(** * Monte Carlo projection of a football competition

    A shallow embedding of [monte_carlo_sim.py] (class
    [MonteCarloSimulator]) and of the parts of [football_db.py] it relies
    on ([Team], [Match], [FootballDatabase.get_standings]).

    Modelling choices.
    - Python objects live in a store and are reached through references,
      so that in-place mutation and aliasing are visible: [self.teams] is
      an insertion-ordered dict from names to references of [Team]
      objects, [self.matches] a list of references of [Match] objects.
    - Python [int] is [Z]; positions and counters, which only grow from
      zero, are [nat].
    - Python [float] is an exact rational [Q] in the projection, where
      rounding is not modelled: what is concluded there is about integer
      tallies, counts and the store.  [simulate_match] is given a second
      time with the floats as binary64 numbers (module [Binary64]), for
      what depends on the rounding and on the range of a float.
    - The module-global generator of [random] is a sequence of standard
      normal deviates together with the index of the next one;
      [random.gauss(mu, sigma)] returns [mu + z * sigma] for the next
      deviate [z], as CPython computes it.
    - Exceptions are results: a computation returns [Ok v] or [Raise e]
      together with the store it left behind.
    - [print] calls are not modelled. *)

From Stdlib Require Import ZArith QArith Qminmax Lia SpecFloat.
From stdpp Require Import gmap strings list fin_maps sorting.

Local Open Scope Z_scope.

(** ** Objects *)

(** [class Team] of football_db.py. *)
Record Team := mkTeam {
  name : string;
  country : string;
  matches_played : Z;
  wins : Z;
  draws : Z;
  losses : Z;
  goals_for : Z;
  goals_against : Z;
  points : Z
}.

(** [Team.goal_difference] *)
Definition goal_difference (self : Team) : Z :=
  goals_for self - goals_against self.

(** [Team.update_stats]: the record the object holds after the call. *)
Definition update_stats (self : Team) (gf ga : Z) : Team :=
  let mp := matches_played self + 1 in
  let gf' := goals_for self + gf in
  let ga' := goals_against self + ga in
  if gf >? ga then
    mkTeam (name self) (country self) mp (wins self + 1) (draws self)
           (losses self) gf' ga' (points self + 3)
  else if gf =? ga then
    mkTeam (name self) (country self) mp (wins self) (draws self + 1)
           (losses self) gf' ga' (points self + 1)
  else
    mkTeam (name self) (country self) mp (wins self) (draws self)
           (losses self + 1) gf' ga' (points self).

(** [class Match] of football_db.py. *)
Record Match := mkMatch {
  home_team : string;
  away_team : string;
  matchday : Z;
  home_score : option Z;
  away_score : option Z;
  played : bool
}.

(** [Match.set_result]: the record the object holds after the call. *)
Definition set_result (self : Match) (hs as_ : Z) : Match :=
  mkMatch (home_team self) (away_team self) (matchday self)
          (Some hs) (Some as_) true.

(** ** The store *)

Definition loc := nat.

Record Store := mkStore {
  team_objs : gmap loc Team;
  match_objs : gmap loc Match;
  gauss_stream : nat -> Q;
  gauss_next : nat
}.

Inductive Exn :=
| KeyError (key : string)
| ZeroDivisionError
| ValueError
| OverflowError
| Fault.

Inductive outcome (A : Type) :=
| Ok (a : A)
| Raise (e : Exn).
Arguments Ok {A} a.
Arguments Raise {A} e.

Definition M (A : Type) : Type := Store -> outcome A * Store.

Definition ret {A} (a : A) : M A := fun s => (Ok a, s).

Definition raise {A} (e : Exn) : M A := fun s => (Raise e, s).

Definition bind {A B} (c : M A) (k : A -> M B) : M B :=
  fun s =>
    match c s with
    | (Ok a, s') => k a s'
    | (Raise e, s') => (Raise e, s')
    end.

Notation "'do' x <- c ; k" := (bind c (fun x => k))
  (at level 10, x name, c at level 100, k at level 200).
Notation "'do' ' p <- c ; k" := (bind c (fun x => let 'p := x in k))
  (at level 10, p pattern, c at level 100, k at level 200).
Notation "c ;; k" := (bind c (fun _ => k))
  (at level 100, k at level 200, right associativity).

(** A [for] loop over a list, for its effects. *)
Fixpoint for_each {A} (body : A -> M unit) (l : list A) : M unit :=
  match l with
  | [] => ret tt
  | x :: l' => body x ;; for_each body l'
  end.

(** A list comprehension whose element expression has effects. *)
Fixpoint map_each {A B} (f : A -> M B) (l : list A) : M (list B) :=
  match l with
  | [] => ret []
  | x :: l' => do y <- f x; do ys <- map_each f l'; ret (y :: ys)
  end.

(** Reading an attribute through a reference.  A reference the store does
    not hold cannot arise in Python; the model answers [Fault]. *)
Definition read_team (l : loc) : M Team :=
  fun s =>
    match team_objs s !! l with
    | Some t => (Ok t, s)
    | None => (Raise Fault, s)
    end.

Definition read_match (l : loc) : M Match :=
  fun s =>
    match match_objs s !! l with
    | Some m => (Ok m, s)
    | None => (Raise Fault, s)
    end.

(** In-place mutation of the object behind a reference. *)
Definition modify_team (l : loc) (f : Team -> Team) : M unit :=
  fun s =>
    match team_objs s !! l with
    | Some t =>
        (Ok tt, mkStore (<[l := f t]> (team_objs s)) (match_objs s)
                        (gauss_stream s) (gauss_next s))
    | None => (Raise Fault, s)
    end.

Definition modify_match (l : loc) (f : Match -> Match) : M unit :=
  fun s =>
    match match_objs s !! l with
    | Some m =>
        (Ok tt, mkStore (team_objs s) (<[l := f m]> (match_objs s))
                        (gauss_stream s) (gauss_next s))
    | None => (Raise Fault, s)
    end.

(** [copy.deepcopy] of a [Team] or a [Match]: every attribute is an
    immutable [str], [int], [bool] or [None], so the copy is a new object
    with the same attribute values. *)
Definition deepcopy_team (l : loc) : M loc :=
  fun s =>
    match team_objs s !! l with
    | Some t =>
        let l' := fresh (dom (team_objs s)) in
        (Ok l', mkStore (<[l' := t]> (team_objs s)) (match_objs s)
                        (gauss_stream s) (gauss_next s))
    | None => (Raise Fault, s)
    end.

Definition deepcopy_match (l : loc) : M loc :=
  fun s =>
    match match_objs s !! l with
    | Some m =>
        let l' := fresh (dom (match_objs s)) in
        (Ok l', mkStore (team_objs s) (<[l' := m]> (match_objs s))
                        (gauss_stream s) (gauss_next s))
    | None => (Raise Fault, s)
    end.

(** [random.gauss(mu, sigma)] on the module-global generator. *)
Definition gauss (mu sigma : Q) : M Q :=
  fun s =>
    (Ok (mu + gauss_stream s (gauss_next s) * sigma)%Q,
     mkStore (team_objs s) (match_objs s) (gauss_stream s)
             (S (gauss_next s))).

(** ** Python built-ins *)

(** [int(x)] of a float: truncation toward zero. *)
Definition py_int (x : Q) : Z := Z.quot (Qnum x) (Z.pos (Qden x)).

(** An insertion-ordered [dict] with string keys. *)
Definition dict (V : Type) : Type := list (string * V).

Fixpoint dict_get {V} (d : dict V) (k : string) : option V :=
  match d with
  | [] => None
  | (k', v) :: d' => if decide (k' = k) then Some v else dict_get d' k
  end.

(** [d[k] = v]: overwrite in place, or append a new key. *)
Fixpoint dict_set {V} (d : dict V) (k : string) (v : V) : dict V :=
  match d with
  | [] => [(k, v)]
  | (k', v') :: d' =>
      if decide (k' = k) then (k, v) :: d' else (k', v') :: dict_set d' k v
  end.

(** [d[k]] as an expression: [KeyError] on a missing key. *)
Definition subscript {V} (d : dict V) (k : string) : M V :=
  match dict_get d k with
  | Some v => ret v
  | None => raise (KeyError k)
  end.

(** [enumerate(l, start)] *)
Fixpoint enumerate {A} (start : nat) (l : list A) : list (nat * A) :=
  match l with
  | [] => []
  | x :: l' => (start, x) :: enumerate (S start) l'
  end.

(** [sorted(l, key=key, reverse=True)]: a stable sort, so elements with
    equal keys keep their relative order also under [reverse=True].
    [lt a b] decides [key a < key b]. *)
Section Sorted.
Context {A : Type} (lt : A -> A -> bool).

Fixpoint insert_desc (x : A) (l : list A) : list A :=
  match l with
  | [] => [x]
  | y :: l' => if lt x y then y :: insert_desc x l' else x :: y :: l'
  end.

Definition sorted_reverse (l : list A) : list A :=
  foldr insert_desc [] l.
End Sorted.

(** ** class MonteCarloSimulator *)

(** The attributes [__init__] sets.  [simulation_results] is never read
    or written afterwards and is left out. *)
Record Simulator := mkSimulator {
  teams : dict loc;
  matches : list loc
}.

(** [simulate_match] *)
Definition simulate_match (self : Simulator) (home_team away_team : string)
  : M (Z * Z) :=
  do h <- subscript (teams self) home_team;
  do ht <- read_team h;
  let home_strength := points ht + 10 in
  do a <- subscript (teams self) away_team;
  do at_ <- read_team a;
  let away_strength := points at_ in
  let home_expected := Qmax (1 # 2) (inject_Z home_strength / 10) in
  let away_expected := Qmax (1 # 2) (inject_Z away_strength / 10) in
  do gh <- gauss home_expected (3 # 2);
  let home_score := Z.max 0 (py_int gh) in
  do ga <- gauss away_expected (3 # 2);
  let away_score := Z.max 0 (py_int ga) in
  ret (home_score, away_score).

(** The body of the loop of [simulate_remaining_matches]. *)
Definition simulate_fixture (self : Simulator) (teams_copy : dict loc)
    (match_ : loc) : M unit :=
  do m <- read_match match_;
  if negb (played m) then
    do '(home_score, away_score) <-
      simulate_match self (home_team m) (away_team m);
    modify_match match_ (fun m => set_result m home_score away_score) ;;
    do h <- subscript teams_copy (home_team m);
    modify_team h (fun t => update_stats t home_score away_score) ;;
    do a <- subscript teams_copy (away_team m);
    modify_team a (fun t => update_stats t away_score home_score)
  else ret tt.

(** [simulate_remaining_matches] *)
Definition simulate_remaining_matches (self : Simulator)
    (teams_copy : dict loc) (matches_copy : list loc) : M (dict loc) :=
  for_each (simulate_fixture self teams_copy) matches_copy ;;
  ret teams_copy.

(** The loop that fills [teams_copy] in [run_single_simulation]. *)
Fixpoint deepcopy_teams (items : dict loc) (teams_copy : dict loc)
  : M (dict loc) :=
  match items with
  | [] => ret teams_copy
  | (name, team) :: items' =>
      do c <- deepcopy_team team;
      deepcopy_teams items' (dict_set teams_copy name c)
  end.

(** [run_single_simulation] *)
Definition run_single_simulation (self : Simulator) : M (dict Z) :=
  do teams_copy <- deepcopy_teams (teams self) [];
  do matches_copy <- map_each deepcopy_match (matches self);
  do teams_copy <- simulate_remaining_matches self teams_copy matches_copy;
  map_each (fun '(name, team) => do t <- read_team team; ret (name, points t))
           teams_copy.

(** The three accumulators of [run_simulations]; the first and the last
    are [defaultdict]s, so a missing key reads as the default and is
    created by the update. *)
Record Tally := mkTally {
  final_positions : gmap string (gmap nat nat);
  points_distribution : gmap string (list Z);
  qualification_count : gmap string nat
}.

(** The body of the inner loop of [run_simulations] for one team. *)
Definition record_position (t : Tally) (position : nat) (team_name : string)
    (pts : Z) : Tally :=
  let row := default ∅ (final_positions t !! team_name) in
  let fp := <[team_name := <[position := (default 0 (row !! position) + 1)%nat]> row]>
              (final_positions t) in
  let pd := <[team_name := default [] (points_distribution t !! team_name) ++ [pts]]>
              (points_distribution t) in
  let qc := if (position <=? 8)%nat
            then <[team_name := (default 0 (qualification_count t !! team_name) + 1)%nat]>
                   (qualification_count t)
            else qualification_count t in
  mkTally fp pd qc.

(** The inner loop of [run_simulations] over [enumerate(sorted_teams, 1)]. *)
Definition record_run (t : Tally) (sorted_teams : list (string * Z)) : Tally :=
  foldl (fun t '(position, (team_name, pts)) =>
           record_position t position team_name pts)
        t (enumerate 1 sorted_teams).

(** The sort of [run_simulations]: by final points only, descending. *)
Definition sort_by_points (final_points : dict Z) : list (string * Z) :=
  sorted_reverse (fun x y => x.2 <? y.2) final_points.

(** The outer loop of [run_simulations]; [range(n_simulations)] is empty
    for a count that is zero or negative. *)
Fixpoint simulation_loop (self : Simulator) (iterations : nat) (t : Tally)
  : M Tally :=
  match iterations with
  | O => ret t
  | S k =>
      do final_points <- run_single_simulation self;
      let sorted_teams := sort_by_points final_points in
      simulation_loop self k (record_run t sorted_teams)
  end.

(** The value [run_simulations] returns. *)
Record Results := mkResults {
  r_final_positions : gmap string (gmap nat nat);
  qualification_probability : gmap string Q;
  average_points : gmap string Q;
  points_range : gmap string (Z * Z);
  n_simulations : Z
}.

(** A dict comprehension whose value expression may raise.  The order of
    evaluation only decides which entry raises first. *)
Definition comprehension {V W} (f : V -> outcome W) (d : gmap string V)
  : outcome (gmap string W) :=
  map_fold (fun k v acc =>
              match acc with
              | Ok d' => match f v with
                         | Ok w => Ok (<[k := w]> d')
                         | Raise e => Raise e
                         end
              | Raise e => Raise e
              end) (Ok ∅) d.

(** [x / y] on numbers, as a float. *)
Definition truediv (x y : Z) : outcome Q :=
  if y =? 0 then Raise ZeroDivisionError else Ok (inject_Z x / inject_Z y)%Q.

(** [min(l)] and [max(l)] of a list of ints. *)
Definition py_min (l : list Z) : outcome Z :=
  match l with
  | [] => Raise ValueError
  | x :: l' => Ok (foldl Z.min x l')
  end.

Definition py_max (l : list Z) : outcome Z :=
  match l with
  | [] => Raise ValueError
  | x :: l' => Ok (foldl Z.max x l')
  end.

(** [sum(l)] *)
Definition py_sum (l : list Z) : Z := foldl Z.add 0 l.

(** The dict literal that ends [run_simulations]. *)
Definition statistics (t : Tally) (n : Z) : outcome Results :=
  match comprehension (fun count =>
          match truediv (Z.of_nat count) n with
          | Ok q => Ok (q * 100)%Q
          | Raise e => Raise e
          end) (qualification_count t) with
  | Raise e => Raise e
  | Ok qp =>
    match comprehension (fun pts => truediv (py_sum pts) (Z.of_nat (length pts)))
                        (points_distribution t) with
    | Raise e => Raise e
    | Ok avg =>
      match comprehension (fun pts =>
              match py_min pts with
              | Raise e => Raise e
              | Ok lo => match py_max pts with
                         | Raise e => Raise e
                         | Ok hi => Ok (lo, hi)
                         end
              end) (points_distribution t) with
      | Raise e => Raise e
      | Ok rng => Ok (mkResults (final_positions t) qp avg rng n)
      end
    end
  end.

(** [run_simulations] *)
Definition run_simulations (self : Simulator) (n : Z) : M Results :=
  do t <- simulation_loop self (Z.to_nat n) (mkTally ∅ ∅ ∅);
  fun s => (statistics t n, s).

(** ** FootballDatabase.get_standings *)

(** [key a < key b] for the key [(points, goal_difference, goals_for)],
    compared as Python compares tuples. *)
Definition standings_key_lt (a b : Team) : bool :=
  (points a <? points b)
  || ((points a =? points b)
      && ((goal_difference a <? goal_difference b)
          || ((goal_difference a =? goal_difference b)
              && (goals_for a <? goals_for b)))).

(** [get_standings], on the values of the team dict. *)
Definition get_standings (team_values : list Team) : list Team :=
  sorted_reverse standings_key_lt team_values.

(** ** Snapshots *)

(** The records behind a dict of team references, in dict order; [None]
    when a reference is not in the store. *)
Definition team_items (h : gmap loc Team) (d : dict loc) : option (dict Team) :=
  mapM (fun '(k, l) => (fun t => (k, t)) <$> h !! l) d.

(** The records behind a list of match references. *)
Definition match_list (h : gmap loc Match) (ls : list loc) : option (list Match) :=
  mapM (fun l => h !! l) ls.

(** The snapshot a simulator holds in a store, as plain data. *)
Definition snapshot_of (self : Simulator) (s : Store)
  : option (dict Team * list Match) :=
  match team_items (team_objs s) (teams self),
        match_list (match_objs s) (matches self) with
  | Some F, Some ms => Some (F, ms)
  | _, _ => None
  end.

Definition has_key {V} (d : dict V) (k : string) : bool :=
  match dict_get d k with Some _ => true | None => false end.

(** A fixture that is played, or names two teams of [F]. *)
Definition fixture_ok (F : dict Team) (m : Match) : bool :=
  played m || (has_key F (home_team m) && has_key F (away_team m)).

(** Dict keys are unique, and every unplayed fixture names two teams of
    the snapshot. *)
Definition referential_integrity (F : dict Team) (ms : list Match) : bool :=
  bool_decide (NoDup F.*1) && forallb (fixture_ok F) ms.

Definition unplayed (ms : list Match) : nat :=
  length (filter (fun m => played m = false) ms).

(** ** One run, on plain data *)

(** The score [simulate_match] draws for a side of strength [strength]
    from the deviate [z]. *)
Definition drawn_score (strength : Z) (z : Q) : Z :=
  Z.max 0 (py_int (Qmax (1 # 2) (inject_Z strength / 10) + z * (3 # 2))%Q).

Definition match_scores (home_points away_points : Z) (z1 z2 : Q) : Z * Z :=
  (drawn_score (home_points + 10) z1, drawn_score away_points z2).

Definition points_of (F : dict Team) (k : string) : Z :=
  from_option points 0 (dict_get F k).

(** Apply [f] to the value under the key [k], if any. *)
Fixpoint dict_alter {V} (f : V -> V) (k : string) (d : dict V) : dict V :=
  match d with
  | [] => []
  | (k', v) :: d' =>
      if decide (k' = k) then (k', f v) :: d' else (k', v) :: dict_alter f k d'
  end.

(** The scores of a fixture whose strengths are read from [F] and whose
    deviates are the two at index [c]. *)
Definition fixture_scores (F : dict Team) (g : nat -> Q) (c : nat) (m : Match)
  : Z * Z :=
  match_scores (points_of F (home_team m)) (points_of F (away_team m))
               (g c) (g (S c)).

(** The working records after one fixture with the given scores. *)
Definition apply_result (W : dict Team) (m : Match) (sc : Z * Z) : dict Team :=
  dict_alter (fun t => update_stats t sc.2 sc.1) (away_team m)
    (dict_alter (fun t => update_stats t sc.1 sc.2) (home_team m) W).

(** The fixtures in order, strengths read from the fixed records [F],
    tallies kept in the working records [W]; returns the final working
    records, the fixtures with their results, and the next deviate. *)
Fixpoint play (F : dict Team) (g : nat -> Q) (c : nat) (W : dict Team)
    (ms : list Match) : dict Team * list Match * nat :=
  match ms with
  | [] => (W, [], c)
  | m :: ms' =>
      if played m then
        let '(W', r, c') := play F g c W ms' in (W', m :: r, c')
      else
        let sc := fixture_scores F g c m in
        let '(W', r, c') := play F g (S (S c)) (apply_result W m sc) ms' in
        (W', set_result m sc.1 sc.2 :: r, c')
  end.

Definition final_points_of (W : dict Team) : dict Z :=
  map (fun '(k, t) => (k, points t)) W.

(** The final points of the run that starts at deviate [c]. *)
Definition run_points (F : dict Team) (ms : list Match) (g : nat -> Q) (c : nat)
  : dict Z :=
  final_points_of (play F g c F ms).1.1.

(** The final points of [n] successive runs from the store [s], as
    [simulation_loop] obtains them; the list stops at a run that raises. *)
Fixpoint run_outcomes (self : Simulator) (n : nat) (s : Store) : list (dict Z) :=
  match n with
  | O => []
  | S k =>
      match run_single_simulation self s with
      | (Ok final_points, s') => final_points :: run_outcomes self k s'
      | (Raise _, _) => []
      end
  end.

(** The working references and the store at the end of the simulation
    step of a run: [run_single_simulation] up to its last statement. *)
Definition run_working_set (self : Simulator) : M (dict loc * list loc) :=
  do teams_copy <- deepcopy_teams (teams self) [];
  do matches_copy <- map_each deepcopy_match (matches self);
  do teams_copy <- simulate_remaining_matches self teams_copy matches_copy;
  ret (teams_copy, matches_copy).

(** The body of the inner loop of [run_simulations], as a function of the
    enumerated item. *)
Definition record_step (t : Tally) (x : nat * (string * Z)) : Tally :=
  let '(position, (team_name, pts)) := x in
  record_position t position team_name pts.

(** Readings of the accumulators with their defaults. *)
Definition histogram (fp : gmap string (gmap nat nat)) (team : string)
    (position : nat) : nat :=
  default 0%nat (default ∅ (fp !! team) !! position).

Definition counter (qc : gmap string nat) (team : string) : nat :=
  default 0%nat (qc !! team).

(** The invariant of a team record. *)
Definition team_inv (t : Team) : Prop :=
  points t = 3 * wins t + draws t
  /\ matches_played t = wins t + draws t + losses t.

(** ** Reasoning about computations *)

(** Every object of [s] is in [s'] with the same record, and the
    generator sequence is the same. *)
Definition kept (s s' : Store) : Prop :=
  team_objs s ⊆ team_objs s'
  /\ match_objs s ⊆ match_objs s'
  /\ gauss_stream s' = gauss_stream s.

(** From a store in [I] the computation ends in a store in [I], whether
    it returns or raises, and a returned value satisfies [Q]. *)
Definition maintains {A} (I : Store -> Prop) (c : M A) (Q : A -> Prop) : Prop :=
  forall s, I s ->
    match c s with
    | (Ok a, s') => Q a /\ I s'
    | (Raise _, s') => I s'
    end.

(** Only the objects behind [tc] and [mc] differ between [s] and [s']. *)
Definition only_touched (tc : dict loc) (mc : list loc) (s s' : Store) : Prop :=
  (forall l, l ∉ tc.*2 -> team_objs s' !! l = team_objs s !! l)
  /\ (forall l, l ∉ mc -> match_objs s' !! l = match_objs s !! l)
  /\ gauss_stream s' = gauss_stream s.


(** The store [h] holds the records [W] behind the references [d], key by
    key. *)
Definition holds_teams (h : gmap loc Team) (d : dict loc) (W : dict Team) : Prop :=
  Forall2 (fun x y => x.1 = y.1 /\ h !! x.2 = Some y.2) d W.

Definition holds_matches (h : gmap loc Match) (ls : list loc) (ms : list Match)
  : Prop :=
  Forall2 (fun l m => h !! l = Some m) ls ms.

(** The values the three comprehensions of [run_simulations] compute for
    an entry, when they do not raise. *)
Definition probability_of (n : Z) (count : nat) : Q :=
  (inject_Z (Z.of_nat count) / inject_Z n * 100)%Q.

Definition average_of (pts : list Z) : Q :=
  (inject_Z (py_sum pts) / inject_Z (Z.of_nat (length pts)))%Q.

Definition range_of (pts : list Z) : Z * Z :=
  (foldl Z.min (hd 0 pts) (tl pts), foldl Z.max (hd 0 pts) (tl pts)).

(** The accumulators after the given runs, from empty accumulators. *)
Definition tally_of (runs : list (dict Z)) : Tally :=
  foldl record_run (mkTally ∅ ∅ ∅) (sort_by_points <$> runs).

(** The value [run_simulations] returns from the accumulators [t] when no
    comprehension raises. *)
Definition results_of (t : Tally) (n : Z) : Results :=
  mkResults (final_positions t)
            (probability_of n <$> qualification_count t)
            (average_of <$> points_distribution t)
            (range_of <$> points_distribution t)
            n.

(** ** Worked snapshots *)

(** A generator that always yields the mean. *)
Definition no_noise : nat -> Q := fun _ => 0%Q.


(** Three teams; Ajax and Basel still meet home and away, Celtic has
    played all its fixtures. *)
Definition ajax : Team := mkTeam "Ajax" "NED" 3 2 1 0 4 1 7.
Definition basel : Team := mkTeam "Basel" "SUI" 3 0 0 3 1 6 0.
Definition celtic : Team := mkTeam "Celtic" "SCO" 2 1 1 0 3 1 4.

Definition ajax_basel : Match := mkMatch "Ajax" "Basel" 4 None None false.
Definition basel_ajax : Match := mkMatch "Basel" "Ajax" 5 None None false.
Definition celtic_basel : Match := mkMatch "Celtic" "Basel" 3 (Some 2) (Some 0) true.

Definition league_teams : dict Team :=
  [("Ajax", ajax); ("Basel", basel); ("Celtic", celtic)].

Definition league_matches : list Match := [ajax_basel; basel_ajax; celtic_basel].

Definition league_store (g : nat -> Q) : Store :=
  mkStore (<[0%nat := ajax]> (<[1%nat := basel]> (<[2%nat := celtic]> ∅)))
          (<[0%nat := ajax_basel]> (<[1%nat := basel_ajax]>
             (<[2%nat := celtic_basel]> ∅)))
          g 0.

Definition league : Simulator :=
  mkSimulator [("Ajax", 0%nat); ("Basel", 1%nat); ("Celtic", 2%nat)]
              [0%nat; 1%nat; 2%nat].



(** Two teams level on points after a finished double round: Xamax won
    1-0 at home, Young Boys won 3-0 at home. *)
Definition xamax : Team := mkTeam "Xamax" "SUI" 2 1 0 1 1 3 3.
Definition young_boys : Team := mkTeam "Young Boys" "SUI" 2 1 0 1 3 1 3.

Definition derby_teams : dict Team :=
  [("Xamax", xamax); ("Young Boys", young_boys)].

Definition derby_store : Store :=
  mkStore (<[0%nat := xamax]> (<[1%nat := young_boys]> ∅))
          (<[0%nat := mkMatch "Xamax" "Young Boys" 1 (Some 1) (Some 0) true]>
             (<[1%nat := mkMatch "Young Boys" "Xamax" 2 (Some 3) (Some 0) true]> ∅))
          no_noise 0.

Definition derby : Simulator :=
  mkSimulator [("Xamax", 0%nat); ("Young Boys", 1%nat)] [0%nat; 1%nat].






(** The references of the copies of the first run from [derby_store]. *)
Definition derby_working : dict loc :=
  [("Xamax", 2%nat); ("Young Boys", 3%nat)].

(** ** Totals over a set of records *)





(** ** Reading the runs *)




(** ** class FootballDatabase *)

(** [Team.__init__] and [Match.__init__]: the attributes of a new object. *)
Definition Team_init (name country : string) : Team :=
  mkTeam name country 0 0 0 0 0 0 0.

Definition Match_init (home_team away_team : string) (matchday : Z) : Match :=
  mkMatch home_team away_team matchday None None false.

(** [Team.reset_stats]: the record the object holds after the call. *)
Definition reset_stats (self : Team) : Team :=
  mkTeam (name self) (country self) 0 0 0 0 0 0 0.

(** A new object in the store. *)
Definition new_team (t : Team) : M loc :=
  fun s =>
    let l := fresh (dom (team_objs s)) in
    (Ok l, mkStore (<[l := t]> (team_objs s)) (match_objs s)
                   (gauss_stream s) (gauss_next s)).

Definition new_match (m : Match) : M loc :=
  fun s =>
    let l := fresh (dom (match_objs s)) in
    (Ok l, mkStore (team_objs s) (<[l := m]> (match_objs s))
                   (gauss_stream s) (gauss_next s)).

(** The attributes of a [FootballDatabase].  [data_file], the name of the
    file derived from the competition name, is left out with the file
    system.  The attributes are passed along explicitly: an operation
    returns the database it leaves. *)
Record FootballDatabase := mkDatabase {
  competition_name : string;
  db_teams : dict loc;
  db_matches : list loc;
  current_matchday : Z
}.

(** [FootballDatabase.__init__] *)
Definition Database_init (competition_name : string) : FootballDatabase :=
  mkDatabase competition_name [] [] 0.

(** [add_team] *)
Definition add_team (self : FootballDatabase) (name country : string)
  : M (FootballDatabase * loc) :=
  do team <- new_team (Team_init name country);
  ret (mkDatabase (competition_name self) (dict_set (db_teams self) name team)
                  (db_matches self) (current_matchday self),
       team).

(** [create_match] *)
Definition create_match (self : FootballDatabase) (home_team away_team : string)
    (matchday : Z) : M (FootballDatabase * loc) :=
  if negb (has_key (db_teams self) home_team)
     || negb (has_key (db_teams self) away_team)
  then raise ValueError
  else
    do match_ <- new_match (Match_init home_team away_team matchday);
    ret (mkDatabase (competition_name self) (db_teams self)
                    (db_matches self ++ [match_]) (current_matchday self),
         match_).

(** [MonteCarloSimulator(db.teams, db.matches)] *)
Definition simulator_of (db : FootballDatabase) : Simulator :=
  mkSimulator (db_teams db) (db_matches db).

(** The snapshot a database holds in a store has referential integrity. *)
Definition db_ok (db : FootballDatabase) (s : Store) : bool :=
  match snapshot_of (simulator_of db) s with
  | Some (F, ms) => referential_integrity F ms
  | None => false
  end.

(** The calls that grow a database. *)
Inductive db_call :=
| AddTeam (name country : string)
| CreateMatch (home_team away_team : string) (matchday : Z).

(** One call; a [ValueError] of [create_match] is caught and the database
    kept, as [enter_matchday_calendar] does. *)
Definition perform (db : FootballDatabase) (c : db_call) : M FootballDatabase :=
  match c with
  | AddTeam name country =>
      do '(db', _) <- add_team db name country; ret db'
  | CreateMatch home away matchday =>
      fun s =>
        match create_match db home away matchday s with
        | (Ok (db', _), s') => (Ok db', s')
        | (Raise ValueError, s') => (Ok db, s')
        | (Raise e, s') => (Raise e, s')
        end
  end.

Fixpoint perform_all (db : FootballDatabase) (cs : list db_call)
  : M FootballDatabase :=
  match cs with
  | [] => ret db
  | c :: cs' => do db' <- perform db c; perform_all db' cs'
  end.

(** The sort key of [get_standings], and its order on tuples. *)
Definition standings_key (t : Team) : Z * Z * Z :=
  (points t, goal_difference t, goals_for t).

Definition key_le (a b : Z * Z * Z) : Prop :=
  a.1.1 < b.1.1
  \/ (a.1.1 = b.1.1 /\ (a.1.2 < b.1.2 \/ (a.1.2 = b.1.2 /\ a.2 <= b.2))).

(** ** Saving and loading *)

(** The values [json.dump] writes and [json.load] reads back: what is
    loaded is what was dumped. *)
#[local] Unset Elimination Schemes.
Inductive json :=
| JNull
| JBool (b : bool)
| JInt (z : Z)
| JStr (s : string)
| JList (l : list json)
| JDict (d : list (string * json)).
#[local] Set Elimination Schemes.

Definition JOptInt (o : option Z) : json :=
  match o with
  | Some z => JInt z
  | None => JNull
  end.

(** [Team.to_dict] *)
Definition Team_to_dict (self : Team) : json :=
  JDict [("name", JStr (name self));
         ("country", JStr (country self));
         ("matches_played", JInt (matches_played self));
         ("wins", JInt (wins self));
         ("draws", JInt (draws self));
         ("losses", JInt (losses self));
         ("goals_for", JInt (goals_for self));
         ("goals_against", JInt (goals_against self));
         ("points", JInt (points self));
         ("goal_difference", JInt (goal_difference self))].

(** [Match.to_dict] *)
Definition Match_to_dict (self : Match) : json :=
  JDict [("home_team", JStr (home_team self));
         ("away_team", JStr (away_team self));
         ("matchday", JInt (matchday self));
         ("home_score", JOptInt (home_score self));
         ("away_score", JOptInt (away_score self));
         ("played", JBool (played self))].

(** The value [save_to_file] hands to [json.dump]. *)
Definition save_to_file (self : FootballDatabase) : M json :=
  do teams <- map_each (fun '(name, team) =>
                          do t <- read_team team; ret (name, Team_to_dict t))
                       (db_teams self);
  do matches <- map_each (fun match_ =>
                            do m <- read_match match_; ret (Match_to_dict m))
                         (db_matches self);
  ret (JDict [("competition_name", JStr (competition_name self));
              ("current_matchday", JInt (current_matchday self));
              ("teams", JDict teams);
              ("matches", JList matches)]).

(** [data[key]] on a loaded value.  The records of the model are typed:
    a value of a type they cannot hold, and the [TypeError] of a subscript
    on a value that is not a dict, are reported as [Fault]. *)
Definition item (data : json) (key : string) : M json :=
  match data with
  | JDict d => subscript d key
  | _ => raise Fault
  end.

Definition as_str (j : json) : M string :=
  match j with JStr s => ret s | _ => raise Fault end.

Definition as_int (j : json) : M Z :=
  match j with JInt z => ret z | _ => raise Fault end.

Definition as_opt_int (j : json) : M (option Z) :=
  match j with
  | JInt z => ret (Some z)
  | JNull => ret None
  | _ => raise Fault
  end.

Definition as_dict (j : json) : M (list (string * json)) :=
  match j with JDict d => ret d | _ => raise Fault end.

Definition as_list (j : json) : M (list json) :=
  match j with JList l => ret l | _ => raise Fault end.

(** The truth value of a loaded value in an [if]. *)
Definition truthy (j : json) : bool :=
  match j with
  | JNull => false
  | JBool b => b
  | JInt z => negb (z =? 0)
  | JStr s => negb (String.eqb s EmptyString)
  | JList l => match l with [] => false | _ => true end
  | JDict d => match d with [] => false | _ => true end
  end.

(** Attribute assignments on a [Team]. *)
Definition set_matches_played (t : Team) (v : Z) : Team :=
  mkTeam (name t) (country t) v (wins t) (draws t) (losses t)
         (goals_for t) (goals_against t) (points t).
Definition set_wins (t : Team) (v : Z) : Team :=
  mkTeam (name t) (country t) (matches_played t) v (draws t) (losses t)
         (goals_for t) (goals_against t) (points t).
Definition set_draws (t : Team) (v : Z) : Team :=
  mkTeam (name t) (country t) (matches_played t) (wins t) v (losses t)
         (goals_for t) (goals_against t) (points t).
Definition set_losses (t : Team) (v : Z) : Team :=
  mkTeam (name t) (country t) (matches_played t) (wins t) (draws t) v
         (goals_for t) (goals_against t) (points t).
Definition set_goals_for (t : Team) (v : Z) : Team :=
  mkTeam (name t) (country t) (matches_played t) (wins t) (draws t) (losses t)
         v (goals_against t) (points t).
Definition set_goals_against (t : Team) (v : Z) : Team :=
  mkTeam (name t) (country t) (matches_played t) (wins t) (draws t) (losses t)
         (goals_for t) v (points t).
Definition set_points (t : Team) (v : Z) : Team :=
  mkTeam (name t) (country t) (matches_played t) (wins t) (draws t) (losses t)
         (goals_for t) (goals_against t) v.

(** [Match.set_result] with the scores as loaded, which may be [None]. *)
Definition set_loaded_result (self : Match) (hs as_ : option Z) : Match :=
  mkMatch (home_team self) (away_team self) (matchday self) hs as_ true.

(** The body of the first loop of [load_from_file]. *)
Definition load_team (teams : dict loc) (name : string) (team_data : json)
  : M (dict loc) :=
  do n <- (do j <- item team_data "name"; as_str j);
  do c <- (do j <- item team_data "country"; as_str j);
  do team <- new_team (Team_init n c);
  do v <- (do j <- item team_data "matches_played"; as_int j);
  modify_team team (fun t => set_matches_played t v) ;;
  do v <- (do j <- item team_data "wins"; as_int j);
  modify_team team (fun t => set_wins t v) ;;
  do v <- (do j <- item team_data "draws"; as_int j);
  modify_team team (fun t => set_draws t v) ;;
  do v <- (do j <- item team_data "losses"; as_int j);
  modify_team team (fun t => set_losses t v) ;;
  do v <- (do j <- item team_data "goals_for"; as_int j);
  modify_team team (fun t => set_goals_for t v) ;;
  do v <- (do j <- item team_data "goals_against"; as_int j);
  modify_team team (fun t => set_goals_against t v) ;;
  do v <- (do j <- item team_data "points"; as_int j);
  modify_team team (fun t => set_points t v) ;;
  ret (dict_set teams name team).

(** The body of the second loop of [load_from_file]. *)
Definition load_match (matches : list loc) (match_data : json)
  : M (list loc) :=
  do h <- (do j <- item match_data "home_team"; as_str j);
  do a <- (do j <- item match_data "away_team"; as_str j);
  do d <- (do j <- item match_data "matchday"; as_int j);
  do match_ <- new_match (Match_init h a d);
  do p <- item match_data "played";
  (if truthy p then
     do hs <- (do j <- item match_data "home_score"; as_opt_int j);
     do as_ <- (do j <- item match_data "away_score"; as_opt_int j);
     modify_match match_ (fun m => set_loaded_result m hs as_)
   else ret tt) ;;
  ret (matches ++ [match_]).

Fixpoint load_teams (teams : dict loc) (items : list (string * json))
  : M (dict loc) :=
  match items with
  | [] => ret teams
  | (name, team_data) :: items' =>
      do teams' <- load_team teams name team_data; load_teams teams' items'
  end.

Fixpoint load_matches (matches : list loc) (items : list json)
  : M (list loc) :=
  match items with
  | [] => ret matches
  | match_data :: items' =>
      do matches' <- load_match matches match_data; load_matches matches' items'
  end.

(** [load_from_file], given what the file holds ([None] when there is no
    file); returns the database it leaves and the value it returns. *)
Definition load_from_file (self : FootballDatabase) (file : option json)
  : M (FootballDatabase * bool) :=
  match file with
  | None => ret (self, false)
  | Some data =>
      do cn <- (do j <- item data "competition_name"; as_str j);
      do cm <- (do j <- item data "current_matchday"; as_int j);
      do ts <- (do j <- item data "teams"; as_dict j);
      do teams <- load_teams (db_teams self) ts;
      do ms <- (do j <- item data "matches"; as_list j);
      do matches <- load_matches (db_matches self) ms;
      ret (mkDatabase cn teams matches cm, true)
  end.

(** The dict after the assignments [d[k] = v] for the items of [F] in
    order. *)
Definition dict_update {V} (d F : dict V) : dict V :=
  foldl (fun acc x => dict_set acc x.1 x.2) d F.

(** ** Finding a team by name *)

(** The string methods of the Python library that [normalize_team_name]
    and [find_team_fuzzy] call, taken as given: [str.lower], [str.strip],
    [re.sub(r'[^a-z0-9\s]', '', .)] and [' '.join(.split())]. *)
Record StringLibrary := mkStringLibrary {
  lower : string -> string;
  strip : string -> string;
  drop_other_characters : string -> string;
  join_split : string -> string
}.

(** [needle in hay] on strings. *)
Fixpoint contains (hay needle : string) : bool :=
  String.prefix needle hay
  || match hay with
     | EmptyString => false
     | String _ hay' => contains hay' needle
     end.

(** The first element of a list that passes a test, as a [for] loop with
    a [return] finds it. *)
Fixpoint first_where {A} (f : A -> bool) (l : list A) : option A :=
  match l with
  | [] => None
  | x :: l' => if f x then Some x else first_where f l'
  end.

(** [normalize_team_name] *)
Definition normalize_team_name (lib : StringLibrary) (name : string) : string :=
  join_split lib (drop_other_characters lib (strip lib (lower lib name))).

(** [find_team_fuzzy], on the keys of [self.teams] in dict order. *)
Definition find_team_fuzzy (lib : StringLibrary) (self : FootballDatabase)
    (search_name : string) : option string :=
  let keys := (db_teams self).*1 in
  let normalized_search := normalize_team_name lib search_name in
  match first_where (fun team_name =>
                       bool_decide (strip lib (lower lib team_name)
                                    = strip lib (lower lib search_name)))
                    keys with
  | Some team_name => Some team_name
  | None =>
    match first_where (fun team_name =>
                         bool_decide (normalize_team_name lib team_name
                                      = normalized_search))
                      keys with
    | Some team_name => Some team_name
    | None =>
      match first_where (fun team_name =>
                           contains (normalize_team_name lib team_name)
                                    normalized_search)
                        keys with
      | Some team_name => Some team_name
      | None =>
          first_where (fun team_name =>
                         contains normalized_search
                                  (normalize_team_name lib team_name))
                      keys
      end
    end
  end.

(** ** RacingBars.interpolate *)

(** An element of the list [interpolate] returns. *)
Record Row := mkRow {
  row_name : string;
  row_position : Q;
  row_points : json;
  row_gd : json
}.

(** [{t['name']: (i, t) for i, t in items}]; a name is a dict key, which
    the model has as a string. *)
Fixpoint index_by_name (items : list (nat * json)) (acc : dict (nat * json))
  : M (dict (nat * json)) :=
  match items with
  | [] => ret acc
  | (i, t) :: items' =>
      do n <- (do j <- item t "name"; as_str j);
      index_by_name items' (dict_set acc n (i, t))
  end.

(** [data.get(key, default)] *)
Definition get_default (data : json) (key : string) (default : json) : json :=
  match data with
  | JDict d => from_option (fun v => v) default (dict_get d key)
  | _ => default
  end.

(** [x < y] on floats. *)
Definition float_lt (x y : Q) : bool :=
  (Qnum x * QDen y <? Qnum y * QDen x)%Z.

(** [sorted(l, key=key)]: a stable sort; [lt a b] decides
    [key a < key b]. *)
Fixpoint insert_asc {A} (lt : A -> A -> bool) (x : A) (l : list A) : list A :=
  match l with
  | [] => [x]
  | y :: l' => if lt y x then y :: insert_asc lt x l' else x :: y :: l'
  end.

Definition sorted_ascending {A} (lt : A -> A -> bool) (l : list A) : list A :=
  foldr (insert_asc lt) [] l.

(** The position shown for a team that moves from index [pos1] to index
    [pos2]. *)
Definition moving_position (pos1 pos2 : nat) (progress : Q) : Q :=
  (inject_Z (Z.of_nat pos1)
   + inject_Z (Z.of_nat pos2 - Z.of_nat pos1) * progress)%Q.

(** The loop of [interpolate] over [standings2.keys()]. *)
Definition interpolated_rows (standings1 standings2 : dict (nat * json))
    (progress : Q) : list Row :=
  omap (fun '(name, (pos2, data2)) =>
          match dict_get standings1 name with
          | Some (pos1, _) =>
              Some (mkRow name (moving_position pos1 pos2 progress)
                          (get_default data2 "points" (JInt 0))
                          (get_default data2 "gd" (JInt 0)))
          | None => None
          end) standings2.

(** [interpolate] *)
Definition interpolate (snap1 snap2 : json) (progress : Q) : M (list Row) :=
  do st1 <- (do j <- item snap1 "standings"; as_list j);
  do standings1 <- index_by_name (enumerate 0 st1) [];
  do st2 <- (do j <- item snap2 "standings"; as_list j);
  do standings2 <- index_by_name (enumerate 0 st2) [];
  ret (sorted_ascending
         (fun a b => float_lt (row_position a) (row_position b))
         (interpolated_rows standings1 standings2 progress)).

(** The name of an entry of a snapshot, and the entries and names of a
    snapshot, when they are there and are strings. *)
Definition entry_name (t : json) : option string :=
  match t with
  | JDict d => match dict_get d "name" with
               | Some (JStr n) => Some n
               | _ => None
               end
  | _ => None
  end.

Definition standings_of (snap : json) : option (list json) :=
  match snap with
  | JDict d => match dict_get d "standings" with
               | Some (JList l) => Some l
               | _ => None
               end
  | _ => None
  end.

Definition names_of (snap : json) : option (list string) :=
  match standings_of snap with
  | Some l => mapM entry_name l
  | None => None
  end.

(** The dict [index_by_name] builds from entries that have names. *)
Definition named (it : nat * json) : string * (nat * json) :=
  (default EmptyString (entry_name it.2), it).

(** The row of the entry at index [j] of the new standings, when its team
    is at some index of the old standings [names1]. *)
Definition row_of (names1 : list string) (progress : Q) (j : nat) (t : json)
  : option Row :=
  match entry_name t with
  | Some n =>
      match list_find (fun k => k = n) names1 with
      | Some (i, _) =>
          Some (mkRow n (moving_position i j progress)
                      (get_default t "points" (JInt 0))
                      (get_default t "gd" (JInt 0)))
      | None => None
      end
  | None => None
  end.

(** [stands_before names n n']: the name [n] stands at an earlier index of
    [names] than [n']. *)
Definition stands_before (names : list string) (n n' : string) : Prop :=
  exists i i', names !! i = Some n /\ names !! i' = Some n' /\ (i < i')%nat.

(** ** Further worked data *)



(** The league as a database. *)
Definition league_db : FootballDatabase :=
  mkDatabase "League" (teams league) (matches league) 5.

(** A string library that changes nothing. *)
Definition plain_strings : StringLibrary :=
  mkStringLibrary (fun s => s) (fun s => s) (fun s => s) (fun s => s).

(** Two snapshots of the racing bars: Celtic overtakes Ajax, and Dortmund
    is only in the second one. *)
Definition standing (name : string) (points gd : Z) : json :=
  JDict [("name", JStr name); ("points", JInt points); ("gd", JInt gd)].

Definition round1 : json :=
  JDict [("round", JInt 1);
         ("standings", JList [standing "Ajax" 3 2; standing "Basel" 1 0;
                              standing "Celtic" 0 (-2)])].

Definition round2 : json :=
  JDict [("round", JInt 2);
         ("standings", JList [standing "Celtic" 6 1; standing "Dortmund" 4 1;
                              standing "Ajax" 3 (-1); standing "Basel" 2 0])].

(** ** enter_matchday_results *)

(** A list comprehension with a condition that reads objects. *)
Fixpoint filter_each {A} (p : A -> M bool) (l : list A) : M (list A) :=
  match l with
  | [] => ret []
  | x :: l' =>
      do b <- p x;
      do ys <- filter_each p l';
      ret (if b then x :: ys else ys)
  end.

(** How a pass through the body of [while True] ends. *)
Inductive pass := Break | Continue.

(** The [try] block of [enter_matchday_results] for a fixture and the two
    lines read, already stripped.  [int_of_str] is [int] on strings, taken
    as given: [None] where [int] raises [ValueError]. *)
Definition try_block (lib : StringLibrary) (int_of_str : string -> option Z)
    (self : FootballDatabase) (match_ : loc)
    (home_score_input away_score_input : string) : M pass :=
  match int_of_str home_score_input with
  | None => raise ValueError
  | Some home_score =>
    match int_of_str away_score_input with
    | None => raise ValueError
    | Some away_score =>
        if (home_score <? 0) || (away_score <? 0) then ret Continue
        else
          do m <- read_match match_;
          match find_team_fuzzy lib self (home_team m) with
          | None | Some EmptyString => ret Break
          | Some actual_home_team =>
              match find_team_fuzzy lib self (away_team m) with
              | None | Some EmptyString => ret Break
              | Some actual_away_team =>
                  modify_match match_
                    (fun m => set_result m home_score away_score);;
                  do home <- subscript (db_teams self) actual_home_team;
                  modify_team home
                    (fun t => update_stats t home_score away_score);;
                  do away <- subscript (db_teams self) actual_away_team;
                  modify_team away
                    (fun t => update_stats t away_score home_score);;
                  ret Break
              end
          end
    end
  end.

(** The [while True] loop for one fixture, on the lines still to be read
    from the standard input; it returns the lines left.  Both lines are
    read before either is converted.  [ValueError] starts the loop again,
    [KeyError] and every other exception end it; so does the [EOFError]
    that [input] raises when no line is left.  [Fault], which stands for
    no exception of Python, is passed on. *)
Fixpoint enter_result (lib : StringLibrary) (int_of_str : string -> option Z)
    (self : FootballDatabase) (match_ : loc) (stdin : list string)
  : M (list string) :=
  match stdin with
  | home_line :: away_line :: stdin' =>
      fun s =>
        match try_block lib int_of_str self match_
                        (strip lib home_line) (strip lib away_line) s with
        | (Ok Break, s') => (Ok stdin', s')
        | (Ok Continue, s') =>
            enter_result lib int_of_str self match_ stdin' s'
        | (Raise ValueError, s') =>
            enter_result lib int_of_str self match_ stdin' s'
        | (Raise Fault, s') => (Raise Fault, s')
        | (Raise _, s') => (Ok stdin', s')
        end
  | _ => ret []
  end.

(** The [for] loop over the fixtures of the matchday. *)
Fixpoint enter_results (lib : StringLibrary) (int_of_str : string -> option Z)
    (self : FootballDatabase) (matchday_matches : list loc)
    (stdin : list string) : M (list string) :=
  match matchday_matches with
  | [] => ret stdin
  | match_ :: rest =>
      do stdin' <- enter_result lib int_of_str self match_ stdin;
      enter_results lib int_of_str self rest stdin'
  end.

(** [m.matchday == matchday and not m.played] *)
Definition to_enter (matchday_ : Z) (m : Match) : bool :=
  (matchday m =? matchday_) && negb (played m).

(** [enter_matchday_results]: the database and the lines it leaves. *)
Definition enter_matchday_results (lib : StringLibrary)
    (int_of_str : string -> option Z) (self : FootballDatabase)
    (matchday_ : Z) (stdin : list string)
  : M (FootballDatabase * list string) :=
  do matchday_matches <-
    filter_each (fun l => do m <- read_match l; ret (to_enter matchday_ m))
                (db_matches self);
  match matchday_matches with
  | [] => ret (self, stdin)
  | _ =>
      do stdin' <- enter_results lib int_of_str self matchday_matches stdin;
      ret (mkDatabase (competition_name self) (db_teams self)
                      (db_matches self)
                      (Z.max (current_matchday self) matchday_),
           stdin')
  end.

(** What a call may have made of a fixture record and of a team record. *)
Definition fixture_entered (m m' : Match) : Prop :=
  m' = m \/ exists h a, 0 <= h /\ 0 <= a /\ m' = set_result m h a.

Definition team_credited (t t' : Team) : Prop :=
  name t' = name t /\ country t' = country t
  /\ matches_played t <= matches_played t'
  /\ wins t <= wins t'
  /\ draws t <= draws t'
  /\ losses t <= losses t'
  /\ goals_for t <= goals_for t'
  /\ goals_against t <= goals_against t'
  /\ points t <= points t'
  /\ (team_inv t -> team_inv t').

(** Every object of [s] is in [s'], changed at most as a call changes
    it. *)
Definition entered (s s' : Store) : Prop :=
  (forall l t, team_objs s !! l = Some t ->
     exists t', team_objs s' !! l = Some t' /\ team_credited t t')
  /\ (forall l m, match_objs s !! l = Some m ->
        exists m', match_objs s' !! l = Some m' /\ fixture_entered m m')
  /\ gauss_stream s' = gauss_stream s /\ gauss_next s' = gauss_next s.

(** Only the fixture objects at [ls] may differ between [s] and [s']. *)
Definition fixtures_framed (ls : list loc) (s s' : Store) : Prop :=
  forall l, l ∉ ls -> match_objs s' !! l = match_objs s !! l.

(** The store holds the team objects of the dict. *)
Definition teams_present (d : dict loc) (s : Store) : Prop :=
  Forall (fun l => is_Some (team_objs s !! l)) d.*2.

(** The references of the fixtures that pass the test of the
    comprehension. *)
Definition selected (matchday_ : Z) (ls : list loc) (ms : list Match)
  : list loc :=
  (filter (fun x : loc * Match => to_enter matchday_ x.2 = true) (zip ls ms)).*1.

(** What [enter_matchday_results] may have made of a fixture record. *)
Definition fixture_after (matchday_ : Z) (m m' : Match) : Prop :=
  m' = m
  \/ (matchday m = matchday_ /\ played m = false
      /\ exists h a, 0 <= h /\ 0 <= a /\ m' = set_result m h a).

(** ** Valid scores for every fixture of the matchday *)

(** [find_team_fuzzy] returned a name that passes [if not ...]. *)
Definition found (o : option string) : bool :=
  match o with
  | Some (String _ _) => true
  | _ => false
  end.

(** The team records after the result [sc] of the fixture [m] is credited
    to the two teams [find_team_fuzzy] returns for its names. *)
Definition credit (lib : StringLibrary) (self : FootballDatabase)
    (W : dict Team) (m : Match) (sc : Z * Z) : dict Team :=
  match find_team_fuzzy lib self (home_team m),
        find_team_fuzzy lib self (away_team m) with
  | Some home, Some away =>
      dict_alter (fun t => update_stats t sc.2 sc.1) away
        (dict_alter (fun t => update_stats t sc.1 sc.2) home W)
  | _, _ => W
  end.

(** The fixtures of the matchday that are to be entered, in order. *)
Definition fixtures_to_enter (matchday_ : Z) (ms : list Match) : list Match :=
  filter (fun m => to_enter matchday_ m = true) ms.

(** The fixture records after the scores are set, in order, on the fixtures
    to be entered. *)
Fixpoint record_scores (matchday_ : Z) (ms : list Match) (scores : list (Z * Z))
  : list Match :=
  match ms with
  | [] => []
  | m :: ms' =>
      if to_enter matchday_ m then
        match scores with
        | sc :: scores' =>
            set_result m sc.1 sc.2 :: record_scores matchday_ ms' scores'
        | [] => m :: ms'
        end
      else m :: record_scores matchday_ ms' scores
  end.

(** The lines typed for a list of pairs of lines. *)
Definition lines_of (typed : list (string * string)) : list string :=
  flat_map (fun ln => [ln.1; ln.2]) typed.

(** [int] on the few numerals the worked examples type. *)
Definition read_numeral (s : string) : option Z :=
  match s with
  | "0" => Some 0
  | "1" => Some 1
  | "2" => Some 2
  | "3" => Some 3
  | "-1" => Some (-1)
  | _ => None
  end.

(** ** The outcome of a match in binary64 arithmetic *)

(** [simulate_match] once more, with the [float] values of Python as the
    binary64 numbers they are: every operation rounds to the nearest
    number, ties to even, and the conversions raise as Python's do.  The
    operations are those of the IEEE 754 specification of the standard
    library ([SpecFloat]) at precision 53 and maximal exponent 1024. *)
Module Binary64.

Definition float : Type := spec_float.

Definition prec : Z := 53.
Definition emax : Z := 1024.

(** [x + y], [x * y] and [x < y] on floats. *)
Definition add (x y : float) : float := SFadd prec emax x y.
Definition mul (x y : float) : float := SFmul prec emax x y.
Definition lt (x y : float) : bool := SFltb x y.

(** The literals [0.5] and [1.5]. *)
Definition half : float := S754_finite false 4503599627370496 (-53).
Definition one_and_a_half : float := S754_finite false 6755399441055744 (-52).

(** The number a float stands for; 0 for an infinity and for NaN. *)
Definition value (x : float) : Q :=
  match x with
  | S754_finite s m e =>
      let v := match e with
               | Zneg k => Z.pos m # Pos.pow 2 k
               | _ => inject_Z (Z.pos m * 2 ^ e)
               end in
      if s then Qopp v else v
  | _ => 0%Q
  end.

Definition is_finite (x : float) : bool :=
  match x with
  | S754_finite _ _ _ | S754_zero _ => true
  | _ => false
  end.

(** The float nearest to [a / b] for integers [a] and [b <> 0]; an
    infinity when that is beyond the largest float. *)
Definition quotient (a b : Z) : float :=
  match a with
  | 0 => S754_zero (b <? 0)
  | _ =>
      let '(mz, ez, lz) :=
        SFdiv_core_binary prec emax (Z.abs a) 0 (Z.abs b) 0 in
      binary_round_aux prec emax (xorb (a <? 0) (b <? 0)) mz ez lz
  end.

(** [a / b] on ints. *)
Definition truediv (a b : Z) : M float :=
  if b =? 0 then raise ZeroDivisionError
  else match quotient a b with
       | S754_infinity _ => raise OverflowError
       | q => ret q
       end.

(** [max(x, y)] on floats: [y] when [x < y], else [x]. *)
Definition max (x y : float) : float := if lt x y then y else x.

(** [int(x)] of a float: the integer part, toward zero. *)
Definition truncate (x : float) : Z :=
  match x with
  | S754_finite s m e =>
      cond_Zopp s match e with
                  | Zneg k => Z.pos m / Z.pos (Pos.pow 2 k)
                  | _ => Z.pos m * 2 ^ e
                  end
  | _ => 0
  end.

Definition int (x : float) : M Z :=
  match x with
  | S754_nan => raise ValueError
  | S754_infinity _ => raise OverflowError
  | _ => ret (truncate x)
  end.

(** [random.gauss(mu, sigma)]: [mu + z * sigma] for the next value [z]
    the generator derives; [normal] lists these values in the order of
    the calls, and the cursor of the store counts the calls. *)
Definition gauss (normal : nat -> float) (mu sigma : float) : M float :=
  fun s =>
    (Ok (add mu (mul (normal (gauss_next s)) sigma)),
     mkStore (team_objs s) (match_objs s) (gauss_stream s)
             (S (gauss_next s))).

(** [simulate_match] *)
Definition simulate_match (normal : nat -> float) (self : Simulator)
    (home_team away_team : string) : M (Z * Z) :=
  do h <- subscript (teams self) home_team;
  do ht <- read_team h;
  let home_strength := points ht + 10 in
  do a <- subscript (teams self) away_team;
  do at_ <- read_team a;
  let away_strength := points at_ in
  do qh <- truediv home_strength 10;
  let home_expected := max half qh in
  do qa <- truediv away_strength 10;
  let away_expected := max half qa in
  do gh <- gauss normal home_expected one_and_a_half;
  do ih <- int gh;
  let home_score := Z.max 0 ih in
  do ga <- gauss normal away_expected one_and_a_half;
  do ia <- int ga;
  let away_score := Z.max 0 ia in
  ret (home_score, away_score).

End Binary64.

(** The floats 0.6 and -1.0, and a generator that yields them. *)
Definition six_tenths : Binary64.float := Binary64.quotient 6 10.
Definition minus_one : Binary64.float := Binary64.quotient (-1) 1.

Definition two_values : nat -> Binary64.float :=
  fun i => if (i =? 0)%nat then six_tenths else minus_one.

(** A record with more points than the largest float. *)
Definition giants : Team :=
  mkTeam "Giants" "" (10 ^ 400) 0 (10 ^ 400) 0 0 0 (10 ^ 400).

Definition giants_store : Store :=
  mkStore (<[0%nat := giants]> (<[1%nat := basel]> ∅)) ∅ no_noise 0.

Definition giants_league : Simulator :=
  mkSimulator [("Giants", 0%nat); ("Basel", 1%nat)] [].

(** Ajax on one point, at home to Basel. *)
Definition ajax_on_one : Team := mkTeam "Ajax" "NED" 1 0 1 0 0 0 1.

Definition early_store : Store :=
  mkStore (<[0%nat := ajax_on_one]> (<[1%nat := basel]> ∅)) ∅ no_noise 0.

Definition early_league : Simulator :=
  mkSimulator [("Ajax", 0%nat); ("Basel", 1%nat)] [].

(** * Properties *)



Lemma dict_get_Some_elem {V} (d : dict V) k v :
  dict_get d k = Some v -> (k, v) ∈ d.
Proof.
  induction d as [|[k' v'] d IH]; cbn; [done|].
  case_decide; intros Hg.
  - simplify_eq. left.
  - right. auto.
Qed.

Lemma dict_get_Some_value {V} (d : dict V) k v :
  dict_get d k = Some v -> v ∈ d.*2.
Proof.
  intros Hg. apply dict_get_Some_elem in Hg.
  apply list_elem_of_fmap. by exists (k, v).
Qed.

Lemma dict_get_None_keys {V} (d : dict V) k :
  dict_get d k = None <-> k ∉ d.*1.
Proof.
  induction d as [|[k' v'] d IH]; cbn.
  - split; [intros _; apply not_elem_of_nil | done].
  - rewrite not_elem_of_cons. case_decide as Hk.
    + split; [done | intros [Hne _]; congruence].
    + rewrite IH. split; [intros Hn; split; [congruence | done] | by intros [_ Hn]].
Qed.

Lemma dict_get_is_Some_keys {V} (d : dict V) k :
  is_Some (dict_get d k) <-> k ∈ d.*1.
Proof.
  destruct (dict_get d k) eqn:E.
  - split; [intros _|eauto]. apply dict_get_Some_elem in E.
    apply list_elem_of_fmap. by exists (k, v).
  - apply dict_get_None_keys in E. split; [intros [? ?]; done | done].
Qed.


Lemma dict_set_fresh {V} (d : dict V) k v :
  k ∉ d.*1 -> dict_set d k v = d ++ [(k, v)].
Proof.
  induction d as [|[k' v'] d IH]; cbn; [done|].
  rewrite not_elem_of_cons. intros [Hne Hk].
  case_decide; [congruence|]. by rewrite IH.
Qed.

Lemma dict_alter_keys {V} (f : V -> V) k (d : dict V) :
  (dict_alter f k d).*1 = d.*1.
Proof.
  induction d as [|[k' v'] d IH]; cbn; [done|].
  case_decide; cbn; congruence.
Qed.


(** ** The outcome model *)

Lemma simulate_match_eq self home away s lh la th ta :
  dict_get (teams self) home = Some lh ->
  team_objs s !! lh = Some th ->
  dict_get (teams self) away = Some la ->
  team_objs s !! la = Some ta ->
  simulate_match self home away s
  = (Ok (match_scores (points th) (points ta)
           (gauss_stream s (gauss_next s)) (gauss_stream s (S (gauss_next s)))),
     mkStore (team_objs s) (match_objs s) (gauss_stream s)
             (S (S (gauss_next s)))).
Proof.
  intros Hh Hth Ha Hta.
  unfold simulate_match, bind, subscript, read_team, gauss, ret.
  rewrite Hh. cbn. rewrite Hth, Ha. cbn. rewrite Hta. reflexivity.
Qed.


(** ** Team records *)

Lemma update_stats_inv t gf ga : team_inv t -> team_inv (update_stats t gf ga).
Proof.
  unfold team_inv, update_stats. intros [Hp Hm].
  destruct (gf >? ga); [|destruct (gf =? ga)]; cbn; lia.
Qed.

(** ** The accumulators *)

Lemma histogram_record_position t p k pts k' p' :
  histogram (final_positions (record_position t p k pts)) k' p'
  = (histogram (final_positions t) k' p'
     + if decide (k = k' /\ p = p') then 1 else 0)%nat.
Proof.
  unfold histogram, record_position. cbn.
  destruct (decide (k = k')) as [->|Hk].
  - rewrite lookup_insert_eq. cbn.
    destruct (decide (p = p')) as [->|Hp].
    + rewrite lookup_insert_eq. cbn. rewrite decide_True by done. done.
    + rewrite lookup_insert_ne by done. rewrite decide_False by tauto. lia.
  - rewrite lookup_insert_ne by done. rewrite decide_False by tauto. lia.
Qed.

Lemma qualification_record_position t p k pts k' :
  qualification_count (record_position t p k pts) !! k'
  = if decide (k = k' /\ (p <= 8)%nat)
    then Some (counter (qualification_count t) k' + 1)%nat
    else qualification_count t !! k'.
Proof.
  unfold record_position, counter. cbn.
  destruct (Nat.leb_spec p 8).
  - destruct (decide (k = k')) as [->|Hk].
    + rewrite lookup_insert_eq, decide_True by done. done.
    + rewrite lookup_insert_ne by done. rewrite decide_False by tauto. done.
  - rewrite decide_False by lia. done.
Qed.

Lemma points_record_position t p k pts k' :
  points_distribution (record_position t p k pts) !! k'
  = if decide (k = k')
    then Some (default [] (points_distribution t !! k') ++ [pts])
    else points_distribution t !! k'.
Proof.
  unfold record_position. cbn.
  destruct (decide (k = k')) as [->|Hk].
  - by rewrite lookup_insert_eq.
  - by rewrite lookup_insert_ne.
Qed.

Lemma record_run_unfold t l : record_run t l = foldl record_step t (enumerate 1 l).
Proof. reflexivity. Qed.

Lemma record_steps_absent l : forall start t team,
  team ∉ l.*1 ->
  let t' := foldl record_step t (enumerate start l) in
  (forall p, histogram (final_positions t') team p
             = histogram (final_positions t) team p)
  /\ qualification_count t' !! team = qualification_count t !! team
  /\ points_distribution t' !! team = points_distribution t !! team.
Proof.
  induction l as [|[k0 p0] l IH]; intros start t team Hnot; cbn.
  - done.
  - cbn in Hnot. apply not_elem_of_cons in Hnot as [Hne Hnot].
    destruct (IH (S start) (record_position t start k0 p0) team Hnot)
      as (Hh & Hq & Hp).
    split; [|split].
    + intros p. rewrite Hh, histogram_record_position.
      rewrite decide_False by (intros [? ?]; congruence). lia.
    + rewrite Hq, qualification_record_position.
      by rewrite decide_False by (intros [? ?]; congruence).
    + rewrite Hp, points_record_position.
      by rewrite decide_False by congruence.
Qed.

Lemma record_steps_present l : forall start t i team pts,
  NoDup l.*1 ->
  l !! i = Some (team, pts) ->
  let t' := foldl record_step t (enumerate start l) in
  (forall p, histogram (final_positions t') team p
             = (histogram (final_positions t) team p
                + if decide (p = (start + i)%nat) then 1 else 0)%nat)
  /\ qualification_count t' !! team
     = (if decide (start + i <= 8)%nat
        then Some (counter (qualification_count t) team + 1)%nat
        else qualification_count t !! team)
  /\ points_distribution t' !! team
     = Some (default [] (points_distribution t !! team) ++ [pts]).
Proof.
  induction l as [|[k0 p0] l IH]; intros start t i team pts Hnd Hi; [done|].
  cbn in Hnd. apply NoDup_cons in Hnd as [Hk0 Hnd].
  destruct i as [|i]; cbn in Hi |- *.
  - simplify_eq.
    destruct (record_steps_absent l (S start)
                (record_position t start team pts) team Hk0) as (Hh & Hq & Hp).
    rewrite Nat.add_0_r. split; [|split].
    + intros p. rewrite Hh, histogram_record_position.
      destruct (decide (p = start)) as [->|Hne].
      * by rewrite decide_True.
      * by rewrite decide_False by (intros [? ?]; congruence).
    + rewrite Hq, qualification_record_position.
      destruct (decide (start <= 8)%nat).
      * by rewrite decide_True.
      * by rewrite decide_False by tauto.
    + rewrite Hp, points_record_position. by rewrite decide_True.
  - assert (k0 <> team) as Hne.
    { intros ->. apply Hk0. apply list_elem_of_fmap.
      exists (team, pts). split; [done|]. by eapply list_elem_of_lookup_2. }
    destruct (IH (S start) (record_position t start k0 p0) i team pts Hnd Hi)
      as (Hh & Hq & Hp).
    replace (start + S i)%nat with (S start + i)%nat by lia.
    split; [|split].
    + intros p. rewrite Hh, histogram_record_position.
      rewrite (decide_False (P := k0 = team /\ _)) by tauto. lia.
    + rewrite Hq. unfold counter.
      rewrite qualification_record_position.
      by rewrite (decide_False (P := k0 = team /\ _)) by tauto.
    + rewrite Hp, points_record_position.
      by rewrite decide_False by done.
Qed.

(** C6.  In one run, for the team at index [i] of the sorted list, that
    is at position [i + 1]: the histogram entry of the team at that
    position grows by one and no other entry of the team changes; the
    qualification counter of the team grows by one when the position is
    at most the cutoff, which the code sets to 8, and is left as it was
    (also absent, when it was absent) otherwise. *)
Theorem record_run_counts t sorted_teams i team pts :
  NoDup sorted_teams.*1 ->
  sorted_teams !! i = Some (team, pts) ->
  let position := S i in
  let t' := record_run t sorted_teams in
  histogram (final_positions t') team position
  = S (histogram (final_positions t) team position)
  /\ (forall p, p <> position ->
        histogram (final_positions t') team p
        = histogram (final_positions t) team p)
  /\ ((position <= 8)%nat ->
        qualification_count t' !! team
        = Some (S (counter (qualification_count t) team)))
  /\ ((8 < position)%nat ->
        qualification_count t' !! team = qualification_count t !! team).
Proof.
  intros Hnd Hi position t'.
  destruct (record_steps_present sorted_teams 1 t i team pts Hnd Hi)
    as (Hh & Hq & _).
  subst t'. rewrite record_run_unfold.
  change (1 + i)%nat with position in Hh, Hq.
  repeat split.
  - rewrite Hh, decide_True by done. lia.
  - intros p Hp. rewrite Hh, decide_False by done. lia.
  - intros Hle. rewrite Hq, decide_True by done. f_equal. lia.
  - intros Hlt. rewrite Hq, decide_False by lia. done.
Qed.

(** ** A run count of zero *)

(** C5, as the code has it.  With a run count of zero [run_simulations]
    returns normally: no run executes, the store and the generator are
    untouched, the four mappings of the result are empty and
    [n_simulations] is 0.  No division takes place, so none is by zero. *)
Theorem run_simulations_zero self s :
  run_simulations self 0 s = (Ok (mkResults ∅ ∅ ∅ ∅ 0), s).
Proof.
  unfold run_simulations, bind. change (Z.to_nat 0) with O.
  cbn [simulation_loop ret]. unfold statistics, comprehension.
  cbn [qualification_count points_distribution final_positions].
  rewrite !map_fold_empty. reflexivity.
Qed.

(** ** Rules for computations *)

Lemma maintains_ret {A} (I : Store -> Prop) (a : A) (Q : A -> Prop) :
  Q a -> maintains I (ret a) Q.
Proof. intros HQ s HI. by cbn. Qed.

Lemma maintains_raise {A} (I : Store -> Prop) e (Q : A -> Prop) :
  maintains I (raise e) Q.
Proof. intros s HI. by cbn. Qed.

Lemma maintains_bind {A B} (I : Store -> Prop) (c : M A) (k : A -> M B) Q Q' :
  maintains I c Q ->
  (forall a, Q a -> maintains I (k a) Q') ->
  maintains I (bind c k) Q'.
Proof.
  intros Hc Hk s HI. unfold bind. specialize (Hc s HI).
  destruct (c s) as [[a|e] s1]; [|done].
  destruct Hc as [HQ HI1]. by apply Hk.
Qed.

Lemma maintains_weaken {A} (I : Store -> Prop) (c : M A) (Q Q' : A -> Prop) :
  (forall a, Q a -> Q' a) -> maintains I c Q -> maintains I c Q'.
Proof.
  intros HQ Hc s HI. specialize (Hc s HI).
  destruct (c s) as [[a|e] s1]; [|done]. destruct Hc. auto.
Qed.

Lemma maintains_for_each {A} (I : Store -> Prop) (body : A -> M unit) l :
  (forall x, x ∈ l -> maintains I (body x) (fun _ => True)) ->
  maintains I (for_each body l) (fun _ => True).
Proof.
  induction l as [|x l IH]; intros Hb; cbn [for_each].
  - by apply maintains_ret.
  - eapply maintains_bind; [apply Hb; left|].
    intros _ _. apply IH. intros y Hy. apply Hb. by right.
Qed.

Lemma maintains_map_each {A B} (I : Store -> Prop) (f : A -> M B) l Q :
  (forall x, x ∈ l -> maintains I (f x) Q) ->
  maintains I (map_each f l) (Forall Q).
Proof.
  induction l as [|x l IH]; intros Hf; cbn [map_each].
  - by apply maintains_ret.
  - eapply maintains_bind; [apply Hf; left|].
    intros y Hy. eapply maintains_bind.
    + apply IH. intros z Hz. apply Hf. by right.
    + intros ys Hys. apply maintains_ret. by constructor.
Qed.

Lemma maintains_subscript {V} (I : Store -> Prop) (d : dict V) k :
  maintains I (subscript d k) (fun v => dict_get d k = Some v).
Proof.
  unfold subscript. destruct (dict_get d k).
  - by apply maintains_ret.
  - apply maintains_raise.
Qed.

Lemma maintains_read_team (I : Store -> Prop) l :
  maintains I (read_team l) (fun _ => True).
Proof. intros s HI. unfold read_team. by destruct (team_objs s !! l). Qed.

Lemma maintains_read_match (I : Store -> Prop) l :
  maintains I (read_match l) (fun _ => True).
Proof. intros s HI. unfold read_match. by destruct (match_objs s !! l). Qed.

(** What a primitive must respect for [simulate_match] and
    [simulate_remaining_matches] to maintain [I]. *)
Section Maintained.
Context (I : Store -> Prop).
Context (P : loc -> Prop) (Pm : loc -> Prop) (F : Team -> Team -> Prop).
Hypothesis I_gauss : forall s,
  I s -> I (mkStore (team_objs s) (match_objs s) (gauss_stream s)
                    (S (gauss_next s))).
Hypothesis I_match : forall s l m,
  I s -> Pm l ->
  I (mkStore (team_objs s) (<[l := m]> (match_objs s)) (gauss_stream s)
             (gauss_next s)).
Hypothesis I_team : forall s l t t',
  I s -> P l -> team_objs s !! l = Some t -> F t t' ->
  I (mkStore (<[l := t']> (team_objs s)) (match_objs s) (gauss_stream s)
             (gauss_next s)).
Hypothesis F_update : forall t gf ga, F t (update_stats t gf ga).

Lemma maintains_gauss mu sigma : maintains I (gauss mu sigma) (fun _ => True).
Proof. intros s HI. cbn. auto. Qed.

Lemma maintains_simulate_match self home away :
  maintains I (simulate_match self home away) (fun _ => True).
Proof.
  unfold simulate_match.
  eapply maintains_bind; [apply maintains_subscript|]. intros h _.
  eapply maintains_bind; [apply maintains_read_team|]. intros ht _.
  eapply maintains_bind; [apply maintains_subscript|]. intros a _.
  eapply maintains_bind; [apply maintains_read_team|]. intros at_ _.
  eapply maintains_bind; [apply maintains_gauss|]. intros gh _.
  eapply maintains_bind; [apply maintains_gauss|]. intros ga _.
  by apply maintains_ret.
Qed.

Lemma maintains_modify_match l f :
  Pm l -> maintains I (modify_match l f) (fun _ => True).
Proof.
  intros Hl s HI. unfold modify_match.
  destruct (match_objs s !! l); [|done]. split; [done|]. by apply I_match.
Qed.

Lemma maintains_update_stats l gf ga :
  P l ->
  maintains I (modify_team l (fun t => update_stats t gf ga)) (fun _ => True).
Proof.
  intros Hl s HI. unfold modify_team.
  destruct (team_objs s !! l) eqn:E; [|done]. split; [done|].
  eapply I_team; eauto.
Qed.

Lemma maintains_simulate_remaining_matches self tc mc :
  (forall l, l ∈ tc.*2 -> P l) ->
  (forall l, l ∈ mc -> Pm l) ->
  maintains I (simulate_remaining_matches self tc mc) (fun _ => True).
Proof.
  intros Htc Hmc. unfold simulate_remaining_matches.
  eapply maintains_bind; [|intros; by apply maintains_ret].
  apply maintains_for_each. intros ml Hml. unfold simulate_fixture.
  eapply maintains_bind; [apply maintains_read_match|]. intros m _.
  destruct (played m); cbn [negb]; [by apply maintains_ret|].
  eapply maintains_bind; [apply maintains_simulate_match|].
  intros [hs as_] _.
  eapply maintains_bind; [apply maintains_modify_match; auto|]. intros _ _.
  eapply maintains_bind; [apply maintains_subscript|]. intros h Hh.
  eapply maintains_bind.
  { apply maintains_update_stats. apply Htc.
    exact (dict_get_Some_value _ _ _ Hh). }
  intros _ _.
  eapply maintains_bind; [apply maintains_subscript|]. intros a Ha.
  apply maintains_update_stats. apply Htc. exact (dict_get_Some_value _ _ _ Ha).
Qed.
End Maintained.

(** ** The snapshot is never written *)

Lemma kept_refl s : kept s s.
Proof. by repeat split. Qed.

Lemma kept_trans s1 s2 s3 : kept s1 s2 -> kept s2 s3 -> kept s1 s3.
Proof.
  intros (Ht & Hm & Hg) (Ht' & Hm' & Hg'). repeat split.
  - by etrans.
  - by etrans.
  - congruence.
Qed.

Lemma dict_set_values {V} (d : dict V) k v x :
  x ∈ (dict_set d k v).*2 -> x = v \/ x ∈ d.*2.
Proof.
  induction d as [|[k' v'] d IH]; cbn.
  - intros Hx. apply list_elem_of_singleton in Hx. by left.
  - case_decide; cbn; rewrite !elem_of_cons; intros [Hx|Hx]; auto.
    destruct (IH Hx); auto.
Qed.

Section Kept.
Context (s0 : Store).

Lemma kept_deepcopy_team l :
  maintains (kept s0) (deepcopy_team l)
            (fun l' => team_objs s0 !! l' = None).
Proof.
  intros s (Ht & Hm & Hg). unfold deepcopy_team.
  destruct (team_objs s !! l); [|done].
  assert (team_objs s !! fresh (dom (team_objs s)) = None) as Hfresh.
  { apply not_elem_of_dom. apply is_fresh. }
  split; [by eapply lookup_weaken_None|].
  repeat split; cbn; [|done..].
  apply insert_subseteq_r; [|done]. by eapply lookup_weaken_None.
Qed.

Lemma kept_deepcopy_match l :
  maintains (kept s0) (deepcopy_match l)
            (fun l' => match_objs s0 !! l' = None).
Proof.
  intros s (Ht & Hm & Hg). unfold deepcopy_match.
  destruct (match_objs s !! l); [|done].
  assert (match_objs s !! fresh (dom (match_objs s)) = None) as Hfresh.
  { apply not_elem_of_dom. apply is_fresh. }
  split; [by eapply lookup_weaken_None|].
  repeat split; cbn; [done| |done].
  apply insert_subseteq_r; [|done]. by eapply lookup_weaken_None.
Qed.

Lemma kept_deepcopy_teams items : forall acc,
  (forall l, l ∈ acc.*2 -> team_objs s0 !! l = None) ->
  maintains (kept s0) (deepcopy_teams items acc)
            (fun tc => forall l, l ∈ tc.*2 -> team_objs s0 !! l = None).
Proof.
  induction items as [|[k l] items IH]; intros acc Hacc; cbn [deepcopy_teams].
  - by apply maintains_ret.
  - eapply maintains_bind; [apply kept_deepcopy_team|].
    intros l' Hl'. apply IH. intros x Hx.
    apply dict_set_values in Hx as [->|Hx]; auto.
Qed.

Lemma kept_simulate_remaining_matches self tc mc :
  (forall l, l ∈ tc.*2 -> team_objs s0 !! l = None) ->
  (forall l, l ∈ mc -> match_objs s0 !! l = None) ->
  maintains (kept s0) (simulate_remaining_matches self tc mc) (fun _ => True).
Proof.
  apply (maintains_simulate_remaining_matches (kept s0)
           (fun l => team_objs s0 !! l = None)
           (fun l => match_objs s0 !! l = None) (fun _ _ => True)).
  - intros s (Ht & Hm & Hg). by repeat split.
  - intros s l m (Ht & Hm & Hg) Hl. repeat split; cbn; [done| |done].
    by apply insert_subseteq_r.
  - intros s l t t' (Ht & Hm & Hg) Hl _ _. repeat split; cbn; [|done..].
    by apply insert_subseteq_r.
  - done.
Qed.

Lemma kept_run_single_simulation self :
  maintains (kept s0) (run_single_simulation self) (fun _ => True).
Proof.
  unfold run_single_simulation.
  eapply maintains_bind.
  { apply kept_deepcopy_teams. intros l Hl. by apply elem_of_nil in Hl. }
  intros tc Htc. eapply maintains_bind.
  { apply maintains_map_each. intros l _. apply kept_deepcopy_match. }
  intros mc Hmc. eapply maintains_bind.
  { apply kept_simulate_remaining_matches; [done|].
    intros l Hl. by eapply Forall_forall in Hmc. }
  intros tc' _.
  eapply maintains_weaken;
    [|apply (maintains_map_each _ _ _ (fun _ => True))]; [done|].
  intros [k l] _. eapply maintains_bind; [apply maintains_read_team|].
  intros t _. by apply maintains_ret.
Qed.

Lemma kept_simulation_loop self n : forall t,
  maintains (kept s0) (simulation_loop self n t) (fun _ => True).
Proof.
  induction n as [|n IH]; intros t; cbn [simulation_loop].
  - by apply maintains_ret.
  - eapply maintains_bind; [apply kept_run_single_simulation|].
    intros fp _. apply IH.
Qed.

Lemma kept_run_simulations self n :
  maintains (kept s0) (run_simulations self n) (fun _ => True).
Proof.
  unfold run_simulations.
  eapply maintains_bind; [apply kept_simulation_loop|].
  intros t _ s Hs. by destruct (statistics t n).
Qed.
End Kept.

Lemma maintains_final_store {A} (I : Store -> Prop) (c : M A) Q s :
  maintains I c Q -> I s -> I (c s).2.
Proof.
  intros Hc HI. specialize (Hc s HI). destruct (c s) as [[a|e] s']; cbn; tauto.
Qed.

Lemma kept_team_items s s' d F :
  team_objs s ⊆ team_objs s' ->
  team_items (team_objs s) d = Some F -> team_items (team_objs s') d = Some F.
Proof.
  intros Hsub HF. apply mapM_Some_1 in HF. apply mapM_Some_2.
  eapply Forall2_impl; [exact HF|]. intros [k l] y Hy. cbn in Hy |- *.
  destruct (team_objs s !! l) eqn:E; [|done].
  by rewrite (lookup_weaken _ _ _ _ E Hsub).
Qed.

Lemma kept_match_list s s' ls ms :
  match_objs s ⊆ match_objs s' ->
  match_list (match_objs s) ls = Some ms -> match_list (match_objs s') ls = Some ms.
Proof.
  intros Hsub Hms. apply mapM_Some_1 in Hms. apply mapM_Some_2.
  eapply Forall2_impl; [exact Hms|]. intros l y Hy. cbn in Hy |- *. exact (lookup_weaken _ _ _ _ Hy Hsub).
Qed.

Lemma kept_snapshot self s s' snap :
  kept s s' -> snapshot_of self s = Some snap -> snapshot_of self s' = Some snap.
Proof.
  intros (Ht & Hm & _). unfold snapshot_of.
  destruct (team_items (team_objs s) (teams self)) as [F|] eqn:EF; [|done].
  destruct (match_list (match_objs s) (matches self)) as [ms|] eqn:Ems; [|done].
  by rewrite (kept_team_items _ _ _ _ Ht EF), (kept_match_list _ _ _ _ Hm Ems).
Qed.

(** C7.  After [run_simulations], whatever the simulator, the run count
    and the starting store, and whether the call returns or raises: every
    team and match object that was in the store holds the record it held
    before the call, so the snapshot read through [self.teams] and
    [self.matches] equals the one before the call.  Every write of a run
    goes to an object allocated by its own [deepcopy] calls. *)
Theorem snapshot_unchanged self n s :
  let s' := (run_simulations self n s).2 in
  team_objs s ⊆ team_objs s'
  /\ match_objs s ⊆ match_objs s'
  /\ (forall snap, snapshot_of self s = Some snap ->
                   snapshot_of self s' = Some snap).
Proof.
  intros s'.
  assert (kept s s') as Hk.
  { apply (maintains_final_store _ _ _ _ (kept_run_simulations s self n)).
    apply kept_refl. }
  split; [apply Hk|]. split; [apply Hk|].
  intros snap. by apply kept_snapshot.
Qed.

(** ** The record invariant *)


(** ** References and the records behind them *)

Lemma team_items_holds h d W : team_items h d = Some W <-> holds_teams h d W.
Proof.
  unfold team_items, holds_teams. split.
  - intros HF. apply mapM_Some_1 in HF.
    eapply Forall2_impl; [exact HF|]. intros [k l] [k' t] Hy. cbn in Hy |- *.
    destruct (h !! l); cbn in Hy; by simplify_eq.
  - intros HF. apply mapM_Some_2.
    eapply Forall2_impl; [exact HF|]. intros [k l] [k' t] [Hk Hl].
    cbn in Hk, Hl |- *. by rewrite Hl, Hk.
Qed.

Lemma match_list_holds h ls ms : match_list h ls = Some ms <-> holds_matches h ls ms.
Proof.
  unfold match_list, holds_matches. split.
  - apply mapM_Some_1.
  - apply mapM_Some_2.
Qed.

Lemma holds_teams_keys h d W : holds_teams h d W -> d.*1 = W.*1.
Proof. induction 1 as [|[k l] [k' t] d W [Hk _] _ IH]; cbn in *; congruence. Qed.

Lemma holds_teams_get h d W k l :
  holds_teams h d W -> dict_get d k = Some l ->
  exists t, dict_get W k = Some t /\ h !! l = Some t.
Proof.
  induction 1 as [|[k0 l0] [k0' t0] d W [Hk Hl] _ IH]; cbn in *; [done|].
  subst k0'. case_decide; [|done]. intros; simplify_eq. eauto.
Qed.

Lemma holds_teams_get_inv h d W k t :
  holds_teams h d W -> dict_get W k = Some t ->
  exists l, dict_get d k = Some l /\ h !! l = Some t.
Proof.
  induction 1 as [|[k0 l0] [k0' t0] d W [Hk Hl] _ IH]; cbn in *; [done|].
  subst k0'. case_decide; [|done]. intros; simplify_eq. eauto.
Qed.

Lemma holds_teams_frame h h' d W :
  holds_teams h d W -> (forall l, l ∈ d.*2 -> h' !! l = h !! l) ->
  holds_teams h' d W.
Proof.
  induction 1 as [|[k0 l0] [k0' t0] d W [Hk Hl] _ IH]; intros Hsame.
  - constructor.
  - constructor.
    + split; [done|]. cbn in *. rewrite Hsame; [done|left].
    + apply IH. intros l Hin. apply Hsame. cbn. by right.
Qed.

Lemma holds_teams_alter h d W k l t f :
  holds_teams h d W -> NoDup d.*2 ->
  dict_get d k = Some l -> h !! l = Some t ->
  holds_teams (<[l := f t]> h) d (dict_alter f k W).
Proof.
  induction 1 as [|[k0 l0] [k0' t0] d W [Hk Hl] HF IH];
    intros Hnd Hget Hlook; cbn in *; [done|].
  subst k0'. apply NoDup_cons in Hnd as [Hl0 Hnd].
  case_decide.
  - simplify_eq. constructor.
    + cbn. by rewrite lookup_insert_eq.
    + eapply holds_teams_frame; [exact HF|].
      intros l' Hl'. apply lookup_insert_ne. congruence.
  - constructor.
    + cbn. split; [done|]. rewrite lookup_insert_ne; [done|].
      intros ->. apply Hl0. by eapply dict_get_Some_value.
    + by apply IH.
Qed.

Lemma holds_matches_frame h h' ls ms :
  holds_matches h ls ms -> (forall l, l ∈ ls -> h' !! l = h !! l) ->
  holds_matches h' ls ms.
Proof.
  induction 1 as [|l0 m0 ls ms Hl _ IH]; intros Hsame; constructor.
  - rewrite Hsame; [done|left].
  - apply IH. intros l Hin. apply Hsame. by right.
Qed.

(** ** One fixture *)

Lemma simulate_fixture_played self tc ml m s :
  match_objs s !! ml = Some m -> played m = true ->
  simulate_fixture self tc ml s = (Ok tt, s).
Proof.
  intros Hm Hp. unfold simulate_fixture, bind, read_match.
  by rewrite Hm, Hp.
Qed.

Lemma has_key_get {V} (d : dict V) k :
  has_key d k = true -> exists v, dict_get d k = Some v.
Proof. unfold has_key. destruct (dict_get d k); [eauto|done]. Qed.

Lemma same_keys_get {V V'} (d : dict V) (d' : dict V') k v :
  d.*1 = d'.*1 -> dict_get d k = Some v -> exists v', dict_get d' k = Some v'.
Proof.
  intros Hk Hg.
  assert (is_Some (dict_get d' k)) as [v' Hv']; [|eauto].
  apply dict_get_is_Some_keys. rewrite <- Hk.
  apply dict_get_is_Some_keys. eauto.
Qed.

Lemma simulate_fixture_unplayed self F tc W ml m s :
  holds_teams (team_objs s) (teams self) F ->
  holds_teams (team_objs s) tc W ->
  NoDup tc.*2 ->
  W.*1 = F.*1 ->
  match_objs s !! ml = Some m ->
  played m = false ->
  has_key F (home_team m) = true ->
  has_key F (away_team m) = true ->
  let sc := fixture_scores F (gauss_stream s) (gauss_next s) m in
  exists h',
    simulate_fixture self tc ml s
    = (Ok tt, mkStore h' (<[ml := set_result m sc.1 sc.2]> (match_objs s))
                      (gauss_stream s) (S (S (gauss_next s))))
    /\ holds_teams h' tc (apply_result W m sc)
    /\ (forall l, l ∉ tc.*2 -> h' !! l = team_objs s !! l).
Proof.
  intros HF HW Hnd Hkeys Hm Hp Hh Ha sc.
  apply has_key_get in Hh as [th Hth]. apply has_key_get in Ha as [ta Hta].
  destruct (holds_teams_get_inv _ _ _ _ _ HF Hth) as (lh & Hlh & Hlh').
  destruct (holds_teams_get_inv _ _ _ _ _ HF Hta) as (la & Hla & Hla').
  assert (sc = match_scores (points th) (points ta)
                 (gauss_stream s (gauss_next s))
                 (gauss_stream s (S (gauss_next s)))) as Hsc.
  { unfold sc, fixture_scores, points_of. by rewrite Hth, Hta. }
  pose proof (holds_teams_keys _ _ _ HW) as Htck.
  destruct (same_keys_get F tc (home_team m) th) as [ch Hch]; [congruence|done|].
  destruct (same_keys_get F tc (away_team m) ta) as [ca Hca]; [congruence|done|].
  destruct (holds_teams_get _ _ _ _ _ HW Hch) as (wh & Hwh & Hwh').
  set (h1 := <[ch := update_stats wh sc.1 sc.2]> (team_objs s)).
  assert (holds_teams h1 tc
            (dict_alter (fun t => update_stats t sc.1 sc.2) (home_team m) W))
    as HW1.
  { exact (holds_teams_alter _ _ _ _ _ wh
             (fun t => update_stats t sc.1 sc.2) HW Hnd Hch Hwh'). }
  destruct (holds_teams_get _ _ _ _ _ HW1 Hca) as (wa & Hwa & Hwa').
  exists (<[ca := update_stats wa sc.2 sc.1]> h1).
  split; [|split].
  - unfold simulate_fixture, bind, read_match. rewrite Hm, Hp. cbn [negb].
    rewrite (simulate_match_eq _ _ _ _ _ _ _ _ Hlh Hlh' Hla Hla'), <- Hsc.
    destruct sc as [hs as_] eqn:Esc. cbn [fst snd] in *.
    unfold modify_match. cbn [match_objs team_objs gauss_stream gauss_next].
    rewrite Hm. unfold subscript. rewrite Hch. cbn [ret].
    unfold modify_team. cbn [match_objs team_objs gauss_stream gauss_next].
    rewrite Hwh'. rewrite Hca. cbn [ret].
    cbn [match_objs team_objs gauss_stream gauss_next].
    fold h1. rewrite Hwa'. reflexivity.
  - unfold apply_result.
    exact (holds_teams_alter _ _ _ _ _ wa
             (fun t => update_stats t sc.2 sc.1) HW1 Hnd Hca Hwa').
  - intros l Hl. unfold h1. rewrite !lookup_insert_ne; [done| |].
    + intros ->. apply Hl. exact (dict_get_Some_value _ _ _ Hch).
    + intros ->. apply Hl. exact (dict_get_Some_value _ _ _ Hca).
Qed.

(** ** The fixtures of a run *)

Lemma play_cons_played F g c W m ms :
  played m = true ->
  play F g c W (m :: ms)
  = ((play F g c W ms).1.1, m :: (play F g c W ms).1.2, (play F g c W ms).2).
Proof.
  intros Hp. cbn [play]. rewrite Hp.
  by destruct (play F g c W ms) as [[W' r] c'].
Qed.

Lemma play_cons_unplayed F g c W m ms :
  played m = false ->
  let sc := fixture_scores F g c m in
  let rest := play F g (S (S c)) (apply_result W m sc) ms in
  play F g c W (m :: ms)
  = (rest.1.1, set_result m sc.1 sc.2 :: rest.1.2, rest.2).
Proof.
  intros Hp sc rest. cbn [play]. rewrite Hp. fold sc. fold rest.
  by destruct rest as [[W' r] c'].
Qed.

Lemma apply_result_keys W m sc : (apply_result W m sc).*1 = W.*1.
Proof. unfold apply_result. by rewrite !dict_alter_keys. Qed.

Lemma for_each_simulate_fixture self F tc :
  NoDup tc.*2 ->
  (forall l, l ∈ (teams self).*2 -> l ∉ tc.*2) ->
  forall mc ms s W,
    holds_teams (team_objs s) (teams self) F ->
    holds_teams (team_objs s) tc W ->
    W.*1 = F.*1 ->
    NoDup mc ->
    holds_matches (match_objs s) mc ms ->
    forallb (fixture_ok F) ms = true ->
    let p := play F (gauss_stream s) (gauss_next s) W ms in
    exists s',
      for_each (simulate_fixture self tc) mc s = (Ok tt, s')
      /\ holds_teams (team_objs s') (teams self) F
      /\ holds_teams (team_objs s') tc p.1.1
      /\ holds_matches (match_objs s') mc p.1.2
      /\ gauss_next s' = p.2
      /\ gauss_stream s' = gauss_stream s
      /\ (forall l, l ∉ mc -> match_objs s' !! l = match_objs s !! l).
Proof.
  intros Hnd Hdisj mc.
  induction mc as [|ml mc IH]; intros ms s W HF HW Hkeys Hndm Hms Hok p.
  - apply Forall2_nil_inv_l in Hms as ->. exists s. cbn. repeat split; try done.
    constructor.
  - apply Forall2_cons_inv_l in Hms as (m & ms' & Hm & Hms & ->).
    apply NoDup_cons in Hndm as [Hml Hndm].
    cbn [forallb] in Hok. apply andb_true_iff in Hok as [Hokm Hok].
    destruct (played m) eqn:Hp.
    + destruct (IH ms' s W HF HW Hkeys Hndm Hms Hok)
        as (s' & Hrun & HF' & HW' & Hms' & Hc & Hg & Hfr).
      exists s'. subst p. rewrite (play_cons_played _ _ _ _ _ _ Hp).
      cbn [for_each fst snd]. unfold bind at 1.
      rewrite (simulate_fixture_played _ _ _ _ _ Hm Hp).
      repeat split; try done.
      * constructor; [|done]. rewrite Hfr; done.
      * intros l Hl. apply Hfr. intros Hin. apply Hl. by right.
    + unfold fixture_ok in Hokm. rewrite Hp in Hokm. cbn in Hokm.
      apply andb_true_iff in Hokm as [Hh Ha].
      destruct (simulate_fixture_unplayed self F tc W ml m s
                  HF HW Hnd Hkeys Hm Hp Hh Ha) as (h' & Hstep & HW1 & Hfr1).
      set (sc := fixture_scores F (gauss_stream s) (gauss_next s) m) in *.
      set (s1 := mkStore h' (<[ml := set_result m sc.1 sc.2]> (match_objs s))
                         (gauss_stream s) (S (S (gauss_next s)))) in *.
      destruct (IH ms' s1 (apply_result W m sc))
        as (s' & Hrun & HF' & HW' & Hms' & Hc & Hg & Hfr).
      { eapply holds_teams_frame; [exact HF|]. intros l Hl. cbn.
        apply Hfr1. by apply Hdisj. }
      { exact HW1. }
      { by rewrite apply_result_keys. }
      { done. }
      { eapply holds_matches_frame; [exact Hms|]. intros l Hl. cbn.
        apply lookup_insert_ne. congruence. }
      { done. }
      exists s'. subst p. rewrite (play_cons_unplayed _ _ _ _ _ _ Hp).
      cbn [for_each fst snd]. unfold bind at 1. rewrite Hstep.
      fold sc. cbn [gauss_stream gauss_next s1] in *.
      repeat split; try done.
      * constructor; [|done]. rewrite Hfr by done. cbn.
        by rewrite lookup_insert_eq.
      * intros l Hl. apply not_elem_of_cons in Hl as [Hne Hl].
        rewrite Hfr by done. cbn. by rewrite lookup_insert_ne.
Qed.

(** ** The copies of a run *)

Lemma holds_teams_allocated h d W l :
  holds_teams h d W -> l ∈ d.*2 -> is_Some (h !! l).
Proof.
  induction 1 as [|[k0 l0] [k0' t0] d W [Hk Hl] _ IH]; cbn.
  - intros Hin. by apply elem_of_nil in Hin.
  - intros Hin. apply elem_of_cons in Hin as [->|Hin]; eauto.
Qed.

Lemma holds_teams_alloc h d W l t :
  holds_teams h d W -> h !! l = None -> holds_teams (<[l := t]> h) d W.
Proof.
  intros HW Hl. eapply holds_teams_frame; [exact HW|].
  intros l' Hl'. apply lookup_insert_ne. intros ->.
  destruct (holds_teams_allocated _ _ _ _ HW Hl') as [? ?]. congruence.
Qed.

Lemma holds_teams_app h d1 W1 d2 W2 :
  holds_teams h d1 W1 -> holds_teams h d2 W2 -> holds_teams h (d1 ++ d2) (W1 ++ W2).
Proof. apply Forall2_app. Qed.

Lemma deepcopy_teams_spec items : forall Fi acc Wacc s,
  holds_teams (team_objs s) items Fi ->
  holds_teams (team_objs s) acc Wacc ->
  NoDup acc.*2 ->
  NoDup (acc.*1 ++ items.*1) ->
  exists tc s',
    deepcopy_teams items acc s = (Ok tc, s')
    /\ holds_teams (team_objs s') tc (Wacc ++ Fi)
    /\ NoDup tc.*2
    /\ (forall l, l ∈ tc.*2 -> l ∈ acc.*2 \/ team_objs s !! l = None)
    /\ team_objs s ⊆ team_objs s'
    /\ match_objs s' = match_objs s
    /\ gauss_stream s' = gauss_stream s
    /\ gauss_next s' = gauss_next s.
Proof.
  induction items as [|[k l] items IH]; intros Fi acc Wacc s HFi Hacc Hnd Hkeys.
  - apply Forall2_nil_inv_l in HFi as ->. exists acc, s. cbn.
    rewrite app_nil_r. repeat split; auto.
  - apply Forall2_cons_inv_l in HFi as ([k' t] & Fi' & [Hk Hl] & HFi & ->).
    cbn in Hk, Hl. subst k'. cbn [deepcopy_teams]. unfold bind, deepcopy_team.
    rewrite Hl.
    set (l' := fresh (dom (team_objs s))).
    assert (team_objs s !! l' = None) as Hfresh.
    { apply not_elem_of_dom. apply is_fresh. }
    set (s1 := mkStore (<[l' := t]> (team_objs s)) (match_objs s)
                       (gauss_stream s) (gauss_next s)).
    cbn [fmap list_fmap fst] in Hkeys.
    assert (k ∉ acc.*1) as Hk.
    { intros Hin. apply NoDup_app in Hkeys as (_ & Hdis & _).
      apply (Hdis k Hin). left. }
    rewrite (dict_set_fresh _ _ _ Hk).
    destruct (IH Fi' (acc ++ [(k, l')]) (Wacc ++ [(k, t)]) s1)
      as (tc & s' & Hrun & Htc & Hndtc & Hfr & Hsub & Hm & Hg & Hc).
    + by apply holds_teams_alloc.
    + apply holds_teams_app; [by apply holds_teams_alloc|].
      constructor; [|constructor]. cbn. by rewrite lookup_insert_eq.
    + rewrite fmap_app. apply NoDup_app. split; [done|]. split.
      * intros x Hx Hx'. cbn in Hx'. apply list_elem_of_singleton in Hx'.
        subst x.
        destruct (holds_teams_allocated _ _ _ _ Hacc Hx) as [? ?]. congruence.
      * cbn. apply NoDup_singleton.
    + rewrite fmap_app. cbn. by rewrite <- app_assoc.
    + exists tc, s'. rewrite Hrun. rewrite <- app_assoc in Htc.
      repeat split; try done.
      * intros x Hx. destruct (Hfr x Hx) as [Hin|Hnone].
        -- rewrite fmap_app in Hin. apply elem_of_app in Hin as [Hin|Hin];
             [by left|]. cbn in Hin. apply list_elem_of_singleton in Hin.
           subst x. by right.
        -- right. cbn in Hnone.
           destruct (decide (l' = x)) as [->|Hne]; [done|].
           by rewrite lookup_insert_ne in Hnone.
      * etrans; [|exact Hsub]. cbn. by apply insert_subseteq.
Qed.

Lemma deepcopy_match_eq l m s :
  match_objs s !! l = Some m ->
  deepcopy_match l s
  = (Ok (fresh (dom (match_objs s))),
     mkStore (team_objs s) (<[fresh (dom (match_objs s)) := m]> (match_objs s))
             (gauss_stream s) (gauss_next s)).
Proof. intros Hl. unfold deepcopy_match. by rewrite Hl. Qed.

Lemma deepcopy_matches_spec ls : forall ms s,
  holds_matches (match_objs s) ls ms ->
  exists mc s',
    map_each deepcopy_match ls s = (Ok mc, s')
    /\ holds_matches (match_objs s') mc ms
    /\ NoDup mc
    /\ (forall l, l ∈ mc -> match_objs s !! l = None)
    /\ match_objs s ⊆ match_objs s'
    /\ team_objs s' = team_objs s
    /\ gauss_stream s' = gauss_stream s
    /\ gauss_next s' = gauss_next s.
Proof.
  induction ls as [|l ls IH]; intros ms s Hms.
  - apply Forall2_nil_inv_l in Hms as ->. exists [], s. cbn.
    repeat split; try done; try constructor.
    intros l Hl. by apply elem_of_nil in Hl.
  - apply Forall2_cons_inv_l in Hms as (m & ms' & Hl & Hms & ->).
    cbn [map_each]. unfold bind. rewrite (deepcopy_match_eq _ _ _ Hl).
    set (l' := fresh (dom (match_objs s))).
    assert (match_objs s !! l' = None) as Hfresh.
    { apply not_elem_of_dom. apply is_fresh. }
    set (s1 := mkStore (team_objs s) (<[l' := m]> (match_objs s))
                       (gauss_stream s) (gauss_next s)).
    destruct (IH ms' s1) as (mc & s' & Hrun & Hmc & Hnd & Hfr & Hsub & Ht & Hg & Hc).
    { eapply holds_matches_frame; [exact Hms|]. intros x Hx. cbn.
      apply lookup_insert_ne. intros ->.
      assert (is_Some (match_objs s !! x)) as [? ?]; [|congruence].
      clear -Hms Hx. induction Hms; [by apply elem_of_nil in Hx|].
      apply elem_of_cons in Hx as [->|Hx]; eauto. }
    assert (l' ∉ mc) as Hl'.
    { intros Hin. specialize (Hfr _ Hin). cbn in Hfr.
      by rewrite lookup_insert_eq in Hfr. }
    exists (l' :: mc), s'. fold s1. rewrite Hrun. cbn [ret].
    repeat split; try done.
    + constructor; [|done]. eapply lookup_weaken; [|exact Hsub].
      cbn. by rewrite lookup_insert_eq.
    + by constructor.
    + intros x Hx. apply elem_of_cons in Hx as [->|Hx]; [done|].
      specialize (Hfr _ Hx). cbn in Hfr.
      destruct (decide (l' = x)) as [->|Hne]; [done|].
      by rewrite lookup_insert_ne in Hfr.
    + etrans; [|exact Hsub]. cbn. by apply insert_subseteq.
Qed.

Lemma read_final_points tc : forall W s,
  holds_teams (team_objs s) tc W ->
  map_each (fun '(name, team) => do t <- read_team team; ret (name, points t))
           tc s
  = (Ok (final_points_of W), s).
Proof.
  induction tc as [|[k l] tc IH]; intros W s HW.
  - by apply Forall2_nil_inv_l in HW as ->.
  - apply Forall2_cons_inv_l in HW as ([k' t] & W' & [Hk Hl] & HW & ->).
    cbn in Hk, Hl. subst k'. cbn [map_each]. unfold bind, read_team.
    rewrite Hl. cbn [ret]. fold (read_team).
    specialize (IH W' s HW). unfold bind, read_team in IH. rewrite IH.
    reflexivity.
Qed.

(** ** One run *)

Lemma snapshot_of_Some self s F ms :
  snapshot_of self s = Some (F, ms) ->
  holds_teams (team_objs s) (teams self) F
  /\ holds_matches (match_objs s) (matches self) ms.
Proof.
  unfold snapshot_of.
  destruct (team_items _ _) as [F'|] eqn:EF; [|done].
  destruct (match_list _ _) as [ms'|] eqn:Ems; [|done].
  intros; simplify_eq. split.
  - by apply team_items_holds.
  - by apply match_list_holds.
Qed.

Lemma holds_teams_weaken h h' d W :
  h ⊆ h' -> holds_teams h d W -> holds_teams h' d W.
Proof.
  intros Hsub HW. eapply Forall2_impl; [exact HW|].
  intros x y [Hk Hl]. split; [done|]. exact (lookup_weaken _ _ _ _ Hl Hsub).
Qed.

Lemma play_next F g ms : forall c W,
  (play F g c W ms).2 = (c + 2 * unplayed ms)%nat.
Proof.
  unfold unplayed.
  induction ms as [|m ms IH]; intros c W; [cbn; lia|].
  destruct (played m) eqn:Hp.
  - rewrite (play_cons_played _ _ _ _ _ _ Hp). cbn [snd]. rewrite IH.
    rewrite filter_cons_False by congruence. done.
  - rewrite (play_cons_unplayed _ _ _ _ _ _ Hp). cbn [snd]. rewrite IH.
    rewrite filter_cons_True by done. cbn [length]. lia.
Qed.

Lemma run_prefix self s F ms :
  snapshot_of self s = Some (F, ms) ->
  referential_integrity F ms = true ->
  let p := play F (gauss_stream s) (gauss_next s) F ms in
  exists tc mc s1 s2 s3,
    deepcopy_teams (teams self) [] s = (Ok tc, s1)
    /\ map_each deepcopy_match (matches self) s1 = (Ok mc, s2)
    /\ simulate_remaining_matches self tc mc s2 = (Ok tc, s3)
    /\ holds_teams (team_objs s3) tc p.1.1
    /\ holds_matches (match_objs s3) mc p.1.2
    /\ gauss_next s3 = p.2
    /\ gauss_stream s3 = gauss_stream s.
Proof.
  intros Hsnap Hri p.
  apply snapshot_of_Some in Hsnap as [HF Hms].
  unfold referential_integrity in Hri. apply andb_true_iff in Hri as [Hnd Hok].
  apply bool_decide_eq_true in Hnd.
  destruct (deepcopy_teams_spec (teams self) F [] [] s)
    as (tc & s1 & Hrun1 & Htc & Hndtc & Hfr1 & Hsub1 & Hm1 & Hg1 & Hc1).
  { done. }
  { constructor. }
  { constructor. }
  { cbn. by rewrite (holds_teams_keys _ _ _ HF). }
  cbn [app] in Htc.
  destruct (deepcopy_matches_spec (matches self) ms s1)
    as (mc & s2 & Hrun2 & Hmc & Hndmc & Hfr2 & Hsub2 & Ht2 & Hg2 & Hc2).
  { by rewrite Hm1. }
  destruct (for_each_simulate_fixture self F tc Hndtc) with
    (mc := mc) (ms := ms) (s := s2) (W := F)
    as (s3 & Hrun3 & _ & HW3 & Hms3 & Hc3 & Hg3 & _).
  { intros l Hl Hin. destruct (Hfr1 l Hin) as [Hnil|Hnone].
    - by apply elem_of_nil in Hnil.
    - destruct (holds_teams_allocated _ _ _ _ HF Hl) as [? ?]. congruence. }
  { rewrite Ht2. by eapply holds_teams_weaken. }
  { by rewrite Ht2. }
  { done. }
  { done. }
  { done. }
  { done. }
  exists tc, mc, s1, s2, s3.
  rewrite Hg2, Hg1, Hc2, Hc1 in HW3, Hms3, Hc3. rewrite Hg2, Hg1 in Hg3.
  repeat split; try done.
  unfold simulate_remaining_matches, bind. by rewrite Hrun3.
Qed.

Lemma run_single_simulation_spec self s F ms :
  snapshot_of self s = Some (F, ms) ->
  referential_integrity F ms = true ->
  exists s',
    run_single_simulation self s
    = (Ok (run_points F ms (gauss_stream s) (gauss_next s)), s')
    /\ kept s s'
    /\ gauss_next s' = (gauss_next s + 2 * unplayed ms)%nat.
Proof.
  intros Hsnap Hri.
  destruct (run_prefix self s F ms Hsnap Hri)
    as (tc & mc & s1 & s2 & s3 & H1 & H2 & H3 & HW & _ & Hc & Hg).
  exists s3.
  assert (run_single_simulation self s
          = (Ok (run_points F ms (gauss_stream s) (gauss_next s)), s3)) as Hrun.
  { unfold run_single_simulation, bind. rewrite H1, H2, H3.
    apply (read_final_points _ _ _ HW). }
  split; [done|]. split.
  - pose proof (maintains_final_store _ _ _ s
                  (kept_run_single_simulation s self) (kept_refl s)) as Hk.
    by rewrite Hrun in Hk.
  - by rewrite Hc, play_next.
Qed.

(** ** Sorting *)

Section SortedReverse.
Context {A : Type} (lt : A -> A -> bool).

Lemma insert_desc_perm x l : insert_desc lt x l ≡ₚ x :: l.
Proof.
  induction l as [|y l IH]; cbn; [done|].
  destruct (lt x y); [|done]. rewrite IH. apply Permutation_swap.
Qed.

Lemma sorted_reverse_perm l : sorted_reverse lt l ≡ₚ l.
Proof.
  induction l as [|x l IH]; cbn; [done|].
  fold (sorted_reverse lt l). by rewrite insert_desc_perm, IH.
Qed.

(** Stability: the elements that satisfy a predicate closed under "not
    below" keep their order.  It is used for the elements of one key. *)
Lemma insert_desc_filter (P : A -> Prop) `{!forall x, Decision (P x)} x l :
  (forall y, P x -> lt x y = true -> ~ P y) ->
  filter P (insert_desc lt x l) = filter P (x :: l).
Proof.
  intros HP. induction l as [|y l IH]; cbn [insert_desc]; [done|].
  destruct (lt x y) eqn:E; [|done].
  rewrite filter_cons, IH, !filter_cons.
  destruct (decide (P x)) as [Hx|Hx]; [|done].
  destruct (decide (P y)) as [Hy|Hy]; [|done].
  by destruct (HP y Hx E).
Qed.

Context (asym : forall x y, lt x y = true -> lt y x = false).
Context (trans : forall x y z, lt x y = false -> lt y z = false -> lt x z = false).

Lemma insert_desc_sorted x l :
  StronglySorted (fun a b => lt a b = false) l ->
  StronglySorted (fun a b => lt a b = false) (insert_desc lt x l).
Proof.
  induction 1 as [|y l Hl IH Hy]; cbn [insert_desc].
  - repeat constructor.
  - destruct (lt x y) eqn:E.
    + constructor; [done|].
      rewrite insert_desc_perm. constructor; [by apply asym|done].
    + constructor; [by constructor|].
      constructor; [done|].
      eapply Forall_impl; [exact Hy|]. intros z Hz. by eapply trans.
Qed.

Lemma sorted_reverse_sorted l :
  StronglySorted (fun a b => lt a b = false) (sorted_reverse lt l).
Proof.
  induction l as [|x l IH]; cbn; [constructor|].
  by apply insert_desc_sorted.
Qed.
End SortedReverse.

Lemma StronglySorted_impl {A} (R R' : relation A) l :
  (forall a b, R a b -> R' a b) -> StronglySorted R l -> StronglySorted R' l.
Proof.
  intros HR. induction 1 as [|x l Hl IH Hx]; constructor; [done|].
  eapply Forall_impl; [exact Hx|]. auto.
Qed.

Lemma sort_by_points_perm fp : sort_by_points fp ≡ₚ fp.
Proof. apply sorted_reverse_perm. Qed.

Lemma sort_by_points_sorted fp :
  StronglySorted (fun a b : string * Z => b.2 <= a.2) (sort_by_points fp).
Proof.
  eapply StronglySorted_impl;
    [|apply (sorted_reverse_sorted (fun x y : string * Z => x.2 <? y.2))].
  - intros a b Hab. cbn in Hab. lia.
  - intros x y Hxy. cbn in *. lia.
  - intros x y z Hxy Hyz. cbn in *. lia.
Qed.

Lemma sort_by_points_stable fp v :
  filter (fun x : string * Z => x.2 = v) (sort_by_points fp)
  = filter (fun x : string * Z => x.2 = v) fp.
Proof.
  unfold sort_by_points. induction fp as [|x fp IH]; [done|].
  cbn [sorted_reverse foldr]. fold (sorted_reverse (fun x y : string * Z => x.2 <? y.2) fp).
  rewrite insert_desc_filter.
  - by rewrite !filter_cons, IH.
  - intros y Hx Hlt Hy. cbn in Hlt. lia.
Qed.

Lemma standings_key_lt_asym a b :
  standings_key_lt a b = true -> standings_key_lt b a = false.
Proof.
  unfold standings_key_lt.
  destruct (Z.ltb_spec (points a) (points b)), (Z.eqb_spec (points a) (points b)),
    (Z.ltb_spec (points b) (points a)), (Z.eqb_spec (points b) (points a)),
    (Z.ltb_spec (goal_difference a) (goal_difference b)),
    (Z.eqb_spec (goal_difference a) (goal_difference b)),
    (Z.ltb_spec (goal_difference b) (goal_difference a)),
    (Z.eqb_spec (goal_difference b) (goal_difference a)),
    (Z.ltb_spec (goals_for a) (goals_for b)),
    (Z.ltb_spec (goals_for b) (goals_for a)); cbn; try done; lia.
Qed.

Lemma standings_key_lt_false a b :
  standings_key_lt a b = false -> points b <= points a.
Proof.
  unfold standings_key_lt.
  destruct (Z.ltb_spec (points a) (points b)); cbn; [done|lia].
Qed.

Lemma standings_key_lt_trans a b c :
  standings_key_lt a b = false -> standings_key_lt b c = false ->
  standings_key_lt a c = false.
Proof.
  unfold standings_key_lt.
  destruct (Z.ltb_spec (points a) (points b)), (Z.eqb_spec (points a) (points b)),
    (Z.ltb_spec (points b) (points c)), (Z.eqb_spec (points b) (points c)),
    (Z.ltb_spec (points a) (points c)), (Z.eqb_spec (points a) (points c)),
    (Z.ltb_spec (goal_difference a) (goal_difference b)),
    (Z.eqb_spec (goal_difference a) (goal_difference b)),
    (Z.ltb_spec (goal_difference b) (goal_difference c)),
    (Z.eqb_spec (goal_difference b) (goal_difference c)),
    (Z.ltb_spec (goal_difference a) (goal_difference c)),
    (Z.eqb_spec (goal_difference a) (goal_difference c)),
    (Z.ltb_spec (goals_for a) (goals_for b)),
    (Z.ltb_spec (goals_for b) (goals_for c)),
    (Z.ltb_spec (goals_for a) (goals_for c)); cbn; try done; lia.
Qed.

Lemma get_standings_perm ts : get_standings ts ≡ₚ ts.
Proof. apply sorted_reverse_perm. Qed.

Lemma get_standings_sorted ts :
  StronglySorted (fun a b => points b <= points a) (get_standings ts).
Proof.
  eapply StronglySorted_impl;
    [|apply (sorted_reverse_sorted standings_key_lt)].
  - intros a b. apply standings_key_lt_false.
  - apply standings_key_lt_asym.
  - apply standings_key_lt_trans.
Qed.

Lemma NoDup_fmap_elem_inj {A B} (f : A -> B) (l : list A) x y :
  NoDup (f <$> l) -> x ∈ l -> y ∈ l -> f x = f y -> x = y.
Proof.
  induction l as [|a l IH]; cbn; intros Hnd Hx Hy Hf.
  - by apply elem_of_nil in Hx.
  - apply NoDup_cons in Hnd as [Ha Hnd].
    apply elem_of_cons in Hx as [->|Hx]; apply elem_of_cons in Hy as [->|Hy].
    + done.
    + destruct Ha. rewrite Hf. by apply list_elem_of_fmap_2.
    + destruct Ha. rewrite <- Hf. by apply list_elem_of_fmap_2.
    + by apply IH.
Qed.

Lemma final_points_of_values W : (final_points_of W).*2 = points <$> W.*2.
Proof.
  unfold final_points_of. induction W as [|[k t] W IH]; cbn; [done|].
  f_equal. exact IH.
Qed.

Lemma final_points_of_keys W : (final_points_of W).*1 = W.*1.
Proof.
  unfold final_points_of. induction W as [|[k t] W IH]; cbn; [done|].
  f_equal. exact IH.
Qed.

Lemma final_points_of_names W :
  (forall k t, (k, t) ∈ W -> k = name t) ->
  final_points_of W = (fun t => (name t, points t)) <$> W.*2.
Proof.
  unfold final_points_of. induction W as [|[k t] W IH]; intros Hk; cbn; [done|].
  f_equal.
  - f_equal. apply Hk. left.
  - apply IH. intros k' t' Hin. apply Hk. by right.
Qed.

(** C2, as the code has it.  The rank order of a run is the stable sort
    of the final points alone, in descending order: it is a permutation of
    the teams, no team is ranked above a team with more points, and teams
    level on points keep the order in which the team dict lists them
    (goal difference and goals scored play no part).  When the dict keys
    are the team names and no two teams are level on points, the order is
    that of [get_standings] on the final records. *)
Theorem rank_order_by_points (W : dict Team) :
  let final_points := final_points_of W in
  let ranking := sort_by_points final_points in
  ranking ≡ₚ final_points
  /\ StronglySorted (fun a b : string * Z => b.2 <= a.2) ranking
  /\ (forall v, filter (fun x : string * Z => x.2 = v) ranking
                = filter (fun x : string * Z => x.2 = v) final_points)
  /\ ((forall k t, (k, t) ∈ W -> k = name t) ->
      NoDup (points <$> W.*2) ->
      ranking.*1 = name <$> get_standings W.*2).
Proof.
  intros final_points ranking.
  split; [apply sort_by_points_perm|].
  split; [apply sort_by_points_sorted|].
  split; [intros v; apply sort_by_points_stable|].
  intros Hnames Hnd.
  set (pi := fun t : Team => (name t, points t)).
  assert (final_points = pi <$> W.*2) as Hfp by by apply final_points_of_names.
  assert (ranking = pi <$> get_standings W.*2) as ->.
  { apply (StronglySorted_unique_strong (fun a b : string * Z => b.2 <= a.2)).
    - intros x1 x2 Hx1 Hx2 H12 H21.
      apply (NoDup_fmap_elem_inj snd final_points).
      + subst final_points. by rewrite final_points_of_values.
      + by rewrite <- (sort_by_points_perm final_points).
      + rewrite Hfp, <- (get_standings_perm W.*2). done.
      + lia.
    - apply sort_by_points_sorted.
    - eapply (StronglySorted_fmap pi); [|apply get_standings_sorted].
      intros x y Hxy. done.
    - unfold ranking. rewrite sort_by_points_perm, Hfp.
      by rewrite get_standings_perm. }
  rewrite <- list_fmap_compose. done.
Qed.

(** ** Properties of a run on plain data *)

Lemma play_keys F g ms : forall c W, (play F g c W ms).1.1.*1 = W.*1.
Proof.
  induction ms as [|m ms IH]; intros c W; [done|].
  destruct (played m) eqn:Hp.
  - rewrite (play_cons_played _ _ _ _ _ _ Hp). cbn [fst]. apply IH.
  - rewrite (play_cons_unplayed _ _ _ _ _ _ Hp). cbn [fst].
    by rewrite IH, apply_result_keys.
Qed.





Lemma run_points_keys F ms g c : (run_points F ms g c).*1 = F.*1.
Proof. unfold run_points. by rewrite final_points_of_keys, play_keys. Qed.

(** ** Successive runs *)

Lemma run_outcomes_spec self F ms n : forall s,
  snapshot_of self s = Some (F, ms) ->
  referential_integrity F ms = true ->
  run_outcomes self n s
  = (fun i => run_points F ms (gauss_stream s)
                (gauss_next s + i * (2 * unplayed ms))) <$> seq 0 n.
Proof.
  induction n as [|n IH]; intros s Hsnap Hri; [done|].
  cbn [run_outcomes seq fmap list_fmap].
  destruct (run_single_simulation_spec self s F ms Hsnap Hri)
    as (s' & Hrun & Hk & Hc).
  rewrite Hrun. rewrite Nat.add_0_r. f_equal.
  rewrite (IH s') by (eauto using kept_snapshot).
  destruct Hk as (_ & _ & ->). rewrite Hc.
  rewrite <- fmap_S_seq, <- list_fmap_compose.
  apply list_fmap_ext. intros i x _. unfold compose. cbv beta. f_equal. lia.
Qed.


Lemma simulation_loop_spec self F ms n : forall s t,
  snapshot_of self s = Some (F, ms) ->
  referential_integrity F ms = true ->
  exists s',
    simulation_loop self n t s
    = (Ok (foldl record_run t (sort_by_points <$> run_outcomes self n s)), s')
    /\ kept s s'
    /\ gauss_next s' = (gauss_next s + n * (2 * unplayed ms))%nat.
Proof.
  induction n as [|n IH]; intros s t Hsnap Hri.
  - exists s. cbn. split; [done|]. split; [apply kept_refl|lia].
  - cbn [simulation_loop run_outcomes]. unfold bind.
    destruct (run_single_simulation_spec self s F ms Hsnap Hri)
      as (s1 & Hrun & Hk & Hc).
    rewrite Hrun.
    destruct (IH s1 (record_run t
                (sort_by_points (run_points F ms (gauss_stream s) (gauss_next s)))))
      as (s' & Hloop & Hk' & Hc'); [by eapply kept_snapshot|done|].
    exists s'. rewrite Hloop. split; [done|].
    split; [by eapply kept_trans|]. rewrite Hc', Hc. lia.
Qed.

(** ** The final statistics *)

Lemma comprehension_Ok {V W} (f : V -> outcome W) (g : V -> W)
    (d : gmap string V) :
  (forall k v, d !! k = Some v -> f v = Ok (g v)) ->
  comprehension f d = Ok (g <$> d).
Proof.
  unfold comprehension.
  apply (map_fold_weak_ind
    (fun r (m : gmap string V) =>
       (forall k v, m !! k = Some v -> f v = Ok (g v)) -> r = Ok (g <$> m))).
  - intros _. by rewrite fmap_empty.
  - intros i x m r Hi IH Hf.
    rewrite IH.
    + rewrite (Hf i x) by apply lookup_insert_eq. by rewrite fmap_insert.
    + intros k v Hk. apply (Hf k). rewrite lookup_insert_ne; [done|].
      intros ->. congruence.
Qed.

Lemma statistics_Ok t n :
  (n <> 0 \/ qualification_count t = ∅) ->
  (forall k pts, points_distribution t !! k = Some pts -> pts <> []) ->
  statistics t n = Ok (results_of t n).
Proof.
  intros Hn Hpts. unfold statistics, results_of.
  rewrite (comprehension_Ok _ (probability_of n)).
  2:{ intros k v Hk. unfold truediv.
      destruct (Z.eqb_spec n 0) as [->|Hne]; [|done].
      destruct Hn as [Hn|Hn]; [done|]. rewrite Hn in Hk.
      by rewrite lookup_empty in Hk. }
  rewrite (comprehension_Ok _ average_of).
  2:{ intros k v Hk. unfold truediv.
      destruct (Z.eqb_spec (Z.of_nat (length v)) 0) as [Hz|Hne]; [|done].
      destruct v; [by destruct (Hpts k [])|]. cbn in Hz. lia. }
  rewrite (comprehension_Ok _ range_of).
  2:{ intros k v Hk. destruct v; [by destruct (Hpts k [])|]. done. }
  done.
Qed.

(** ** The accumulators over many runs *)



Lemma record_run_points t l team :
  NoDup l.*1 ->
  points_distribution (record_run t l) !! team
  = if decide (team ∈ l.*1)
    then (fun pts => default [] (points_distribution t !! team) ++ [pts])
           <$> dict_get l team
    else points_distribution t !! team.
Proof.
  intros Hnd. rewrite record_run_unfold. case_decide as Hin.
  - apply list_elem_of_fmap in Hin as ([team' pts] & Heq & Hin).
    cbn in Heq. subst team'.
    apply list_elem_of_lookup in Hin as [pos Hpos].
    destruct (record_steps_present l 1 t pos team pts Hnd Hpos) as (_ & _ & Hp).
    rewrite Hp.
    assert (dict_get l team = Some pts) as ->; [|done].
    clear -Hnd Hpos. revert pos Hpos.
    induction l as [|[k v] l IH]; intros pos Hpos; [done|]. cbn.
    cbn in Hnd. apply NoDup_cons in Hnd as [Hk Hnd].
    destruct pos as [|pos]; cbn in Hpos.
    + simplify_eq. by rewrite decide_True.
    + rewrite decide_False; [by eapply IH|].
      intros ->. destruct Hk. apply list_elem_of_fmap. exists (team, pts).
      split; [done|]. by eapply list_elem_of_lookup_2.
  - by destruct (record_steps_absent l 1 t team Hin) as (_ & _ & ->).
Qed.

Lemma record_runs_points_nonempty lists : forall t,
  Forall (fun l : list (string * Z) => NoDup l.*1) lists ->
  (forall k pts, points_distribution t !! k = Some pts -> pts <> []) ->
  forall k pts,
    points_distribution (foldl record_run t lists) !! k = Some pts -> pts <> [].
Proof.
  induction lists as [|l lists IH]; intros t Hnd Ht; cbn [foldl]; [done|].
  apply Forall_cons in Hnd as [Hl Hnd]. apply IH; [done|].
  intros k pts. rewrite (record_run_points _ _ _ Hl). case_decide; [|apply Ht].
  destruct (dict_get l k); cbn; [|done]. intros; simplify_eq.
  intros Heq. by apply app_eq_nil in Heq as [_ ?].
Qed.



(** ** The aggregation *)

Lemma run_outcomes_keys self F ms n s :
  snapshot_of self s = Some (F, ms) ->
  referential_integrity F ms = true ->
  Forall (fun fp : dict Z => fp.*1 = F.*1) (run_outcomes self n s).
Proof.
  intros Hsnap Hri. rewrite (run_outcomes_spec self F ms n s Hsnap Hri).
  apply Forall_fmap, Forall_forall. intros i _. apply run_points_keys.
Qed.

Lemma integrity_NoDup F ms : referential_integrity F ms = true -> NoDup F.*1.
Proof.
  unfold referential_integrity. intros Hri.
  apply andb_true_iff in Hri as [Hnd _]. by apply bool_decide_eq_true in Hnd.
Qed.

Lemma sorted_runs_NoDup (F : dict Team) (runs : list (dict Z)) :
  NoDup F.*1 ->
  Forall (fun fp : dict Z => fp.*1 = F.*1) runs ->
  Forall (fun l : list (string * Z) => NoDup l.*1) (sort_by_points <$> runs).
Proof.
  intros Hnd Hruns. apply Forall_fmap. eapply Forall_impl; [exact Hruns|].
  intros fp Hfp. cbn. rewrite (sort_by_points_perm fp). by rewrite Hfp.
Qed.

Lemma run_simulations_spec self n s F ms :
  snapshot_of self s = Some (F, ms) ->
  referential_integrity F ms = true ->
  exists s',
    run_simulations self n s
    = (Ok (results_of (tally_of (run_outcomes self (Z.to_nat n) s)) n), s')
    /\ kept s s'
    /\ gauss_next s' = (gauss_next s + Z.to_nat n * (2 * unplayed ms))%nat.
Proof.
  intros Hsnap Hri.
  destruct (simulation_loop_spec self F ms (Z.to_nat n) s (mkTally ∅ ∅ ∅)
              Hsnap Hri) as (s' & Hloop & Hk & Hc).
  exists s'. split; [|done].
  unfold run_simulations, bind. rewrite Hloop.
  fold (tally_of (run_outcomes self (Z.to_nat n) s)).
  rewrite statistics_Ok; [done| |].
  - destruct (Z.to_nat n) eqn:En; [right; done|left; lia].
  - unfold tally_of. apply record_runs_points_nonempty.
    + eapply sorted_runs_NoDup; [by eapply integrity_NoDup|].
      by eapply run_outcomes_keys.
    + intros k pts Hk'. cbn in Hk'. by rewrite lookup_empty in Hk'.
Qed.








(** * Worked examples *)




(** C2: Xamax and Young Boys are level on points; the simulation ranks
    Xamax first, [get_standings] ranks Young Boys first on goal
    difference. *)
Lemma level_teams_ranked_in_dict_order :
  (run_working_set derby derby_store).1 = Ok (derby_working, [2%nat; 3%nat])
  /\ team_items (team_objs (run_working_set derby derby_store).2) derby_working
     = Some derby_teams
  /\ (run_single_simulation derby derby_store).1
     = Ok (final_points_of derby_teams)
  /\ (sort_by_points (final_points_of derby_teams)).*1 = ["Xamax"; "Young Boys"]
  /\ name <$> get_standings derby_teams.*2 = ["Young Boys"; "Xamax"]
  /\ (sort_by_points (final_points_of derby_teams)).*1
     <> name <$> get_standings derby_teams.*2.
Proof.
  repeat split; try (vm_compute; reflexivity).
  intros H. vm_compute in H. discriminate H.
Qed.

(** C2, as the code has it, on the league, where no two teams are level
    on points. *)
Lemma rank_order_by_points_witness :
  NoDup (points <$> league_teams.*2)
  /\ (sort_by_points (final_points_of league_teams)).*1
     = name <$> get_standings league_teams.*2.
Proof.
  assert (NoDup (points <$> league_teams.*2)) as H1 by compute_done.
  split; [assumption|].
  destruct (rank_order_by_points league_teams) as (_ & _ & _ & Hsame).
  apply Hsame; [|assumption].
  intros k t Hin. repeat (apply elem_of_cons in Hin as [Heq|Hin];
    [injection Heq as -> ->; reflexivity|]).
  by apply elem_of_nil in Hin.
Defined.



(** C5: with a run count of zero the call does not raise. *)
Lemma zero_runs_do_not_raise :
  ~ exists e, (run_simulations league 0 (league_store no_noise)).1 = Raise e.
Proof. intros [e H]. vm_compute in H. discriminate H. Qed.


(** C6 on a ranking of the league. *)
Lemma record_run_counts_witness :
  NoDup [("Ajax", 10); ("Celtic", 4); ("Basel", 3)].*1
  /\ histogram (final_positions
       (record_run (mkTally ∅ ∅ ∅) [("Ajax", 10); ("Celtic", 4); ("Basel", 3)]))
       "Celtic" 2 = 1%nat.
Proof.
  assert (NoDup [("Ajax", 10); ("Celtic", 4); ("Basel", 3)].*1) as H1
    by compute_done.
  split; [assumption|].
  destruct (record_run_counts (mkTally ∅ ∅ ∅)
              [("Ajax", 10); ("Celtic", 4); ("Basel", 3)] 1 "Celtic" 4
              H1 eq_refl) as (Hh & _).
  exact Hh.
Defined.

(** C7 on the league: the snapshot after three runs. *)
Lemma snapshot_unchanged_witness :
  snapshot_of league (league_store no_noise) = Some (league_teams, league_matches)
  /\ snapshot_of league (run_simulations league 3 (league_store no_noise)).2
     = Some (league_teams, league_matches).
Proof.
  assert (snapshot_of league (league_store no_noise)
          = Some (league_teams, league_matches)) as H1
    by (vm_compute; reflexivity).
  split; [assumption|].
  destruct (snapshot_unchanged league 3 (league_store no_noise)) as (_ & _ & H).
  exact (H _ H1).
Defined.




(** * Further properties of the simulation *)

(** ** What a fixture adds to the tallies *)

Lemma update_stats_goals_for t a b :
  goals_for (update_stats t a b) = goals_for t + a.
Proof. unfold update_stats. by destruct (a >? b), (a =? b). Qed.

Lemma update_stats_goals_against t a b :
  goals_against (update_stats t a b) = goals_against t + b.
Proof. unfold update_stats. by destruct (a >? b), (a =? b). Qed.

Lemma update_stats_matches_played t a b :
  matches_played (update_stats t a b) = matches_played t + 1.
Proof. unfold update_stats. by destruct (a >? b), (a =? b). Qed.










(** ** The accumulators, exactly *)

Lemma dict_get_Some_iff {V} (d : dict V) k v :
  NoDup d.*1 -> dict_get d k = Some v <-> (k, v) ∈ d.
Proof.
  intros Hnd. split; [apply dict_get_Some_elem|].
  induction d as [|[k' v'] d IH]; cbn; intros Hin.
  - by apply elem_of_nil in Hin.
  - cbn in Hnd. apply NoDup_cons in Hnd as [Hk Hnd].
    apply elem_of_cons in Hin as [Heq|Hin].
    + simplify_eq. by rewrite decide_True.
    + rewrite decide_False; [by apply IH|].
      intros ->. apply Hk. apply list_elem_of_fmap. by exists (k, v).
Qed.














(** ** The rankings of successive runs *)











(** ** Probabilities and point statistics *)













(** ** Seasons that are over, and teams that are done *)







(** ** A fixture that names an unknown team *)






(** * The database *)

(** ** Standings *)

Lemma standings_key_lt_false_iff a b :
  standings_key_lt a b = false <-> key_le (standings_key b) (standings_key a).
Proof.
  unfold standings_key_lt, key_le, standings_key. cbn [fst snd].
  destruct (Z.ltb_spec (points a) (points b)), (Z.eqb_spec (points a) (points b)),
    (Z.ltb_spec (goal_difference a) (goal_difference b)),
    (Z.eqb_spec (goal_difference a) (goal_difference b)),
    (Z.ltb_spec (goals_for a) (goals_for b)); cbn; split; try done; lia.
Qed.

(** X12.  [get_standings] returns every team once; no team stands above
    a team whose key (points, goal difference, goals scored) is greater in
    the order of tuples; and teams equal on all three keep the order of
    the team dict. *)
Theorem get_standings_order (team_values : list Team) :
  get_standings team_values ≡ₚ team_values
  /\ StronglySorted (fun a b => key_le (standings_key b) (standings_key a))
                    (get_standings team_values)
  /\ forall key,
       filter (fun t => standings_key t = key) (get_standings team_values)
       = filter (fun t => standings_key t = key) team_values.
Proof.
  split; [apply get_standings_perm|]. split.
  - eapply StronglySorted_impl;
      [|apply (sorted_reverse_sorted standings_key_lt)].
    + intros a b. apply standings_key_lt_false_iff.
    + apply standings_key_lt_asym.
    + apply standings_key_lt_trans.
  - intros key. unfold get_standings.
    induction team_values as [|x l IH]; [done|].
    cbn [sorted_reverse foldr]. fold (sorted_reverse standings_key_lt l).
    rewrite insert_desc_filter.
    + by rewrite !filter_cons, IH.
    + intros y Hx Hlt Hy.
      assert (standings_key_lt x y = false); [|congruence].
      apply standings_key_lt_false_iff. rewrite Hx, Hy.
      unfold key_le. lia.
Qed.

(** ** Growing a database *)

Lemma dict_get_set {V} (d : dict V) k v k' :
  dict_get (dict_set d k v) k'
  = if decide (k = k') then Some v else dict_get d k'.
Proof.
  induction d as [|[k0 v0] d IH]; cbn.
  - by case_decide.
  - destruct (decide (k0 = k)) as [->|Hne]; cbn.
    + by destruct (decide (k = k')).
    + destruct (decide (k0 = k')) as [->|Hne'].
      * by rewrite decide_False by done.
      * apply IH.
Qed.

Lemma dict_set_keys {V} (d : dict V) k v :
  (dict_set d k v).*1 = if decide (k ∈ d.*1) then d.*1 else d.*1 ++ [k].
Proof.
  induction d as [|[k0 v0] d IH]; cbn.
  - rewrite decide_False; [done|]. apply not_elem_of_nil.
  - destruct (decide (k0 = k)) as [->|Hne]; cbn.
    + rewrite decide_True; [done|left].
    + rewrite IH. destruct (decide (k ∈ d.*1)) as [Hin|Hnin].
      * rewrite decide_True; [done|by right].
      * rewrite decide_False; [done|].
        intros Hin. apply elem_of_cons in Hin as [->|Hin]; done.
Qed.

Lemma dict_set_NoDup {V} (d : dict V) k v :
  NoDup d.*1 -> NoDup (dict_set d k v).*1.
Proof.
  intros Hnd. rewrite dict_set_keys. case_decide as Hin; [done|].
  apply NoDup_app. split; [done|]. split; [|apply NoDup_singleton].
  intros x Hx Hx'. apply list_elem_of_singleton in Hx'. by subst.
Qed.

Lemma has_key_set {V} (d : dict V) k v k' :
  has_key d k' = true -> has_key (dict_set d k v) k' = true.
Proof.
  unfold has_key. rewrite dict_get_set. case_decide; [done|].
  by destruct (dict_get d k').
Qed.

Lemma holds_teams_set h d W k l t :
  holds_teams h d W -> h !! l = None ->
  holds_teams (<[l := t]> h) (dict_set d k l) (dict_set W k t).
Proof.
  intros HW Hl. pose proof (holds_teams_alloc _ _ _ _ t HW Hl) as HW'.
  clear HW. induction HW' as [|[k0 l0] [k0' t0] d W [Hk Hl0] HF IH]; cbn in *.
  - constructor; [|constructor]. cbn. by rewrite lookup_insert_eq.
  - subst k0'. case_decide.
    + constructor; [|done]. cbn. by rewrite lookup_insert_eq.
    + constructor; [done|]. exact IH.
Qed.

Lemma has_key_same_keys {V V'} (d : dict V) (d' : dict V') k :
  d.*1 = d'.*1 -> has_key d k = has_key d' k.
Proof.
  intros Hk. unfold has_key.
  destruct (dict_get d k) eqn:E, (dict_get d' k) eqn:E'; try done.
  - apply dict_get_None_keys in E'. rewrite <- Hk in E'.
    apply dict_get_None_keys in E'. congruence.
  - apply dict_get_None_keys in E. rewrite Hk in E.
    apply dict_get_None_keys in E. congruence.
Qed.

Lemma snapshot_of_intro self s F ms :
  holds_teams (team_objs s) (teams self) F ->
  holds_matches (match_objs s) (matches self) ms ->
  snapshot_of self s = Some (F, ms).
Proof.
  intros HF Hms. unfold snapshot_of.
  apply team_items_holds in HF. apply match_list_holds in Hms.
  by rewrite HF, Hms.
Qed.

(** X13.  [add_team] always returns; it gives the name a record with all
    tallies at zero, replacing in place the record of a team the dict
    already has under that name and appending the name otherwise; the other
    teams and all fixtures are as before, the object that held a replaced
    record stays in the store as it was, and referential integrity is
    kept. *)
Theorem add_team_blank_record self name country s F ms :
  snapshot_of (simulator_of self) s = Some (F, ms) ->
  exists db' team s',
    add_team self name country s = (Ok (db', team), s')
    /\ team_objs s !! team = None
    /\ team_objs s' !! team = Some (Team_init name country)
    /\ team_objs s ⊆ team_objs s'
    /\ snapshot_of (simulator_of db') s'
       = Some (dict_set F name (Team_init name country), ms)
    /\ (forall k, dict_get (dict_set F name (Team_init name country)) k
                  = if decide (name = k) then Some (Team_init name country)
                    else dict_get F k)
    /\ (referential_integrity F ms = true ->
        referential_integrity (dict_set F name (Team_init name country)) ms
        = true).
Proof.
  intros Hsnap. apply snapshot_of_Some in Hsnap as [HF Hms].
  cbn [simulator_of teams matches] in HF, Hms.
  set (l := fresh (dom (team_objs s))).
  assert (team_objs s !! l = None) as Hfresh.
  { apply not_elem_of_dom. apply is_fresh. }
  eexists _, l, _. split; [reflexivity|]. cbn [team_objs].
  split; [done|]. split; [by rewrite lookup_insert_eq|].
  split; [by apply insert_subseteq|]. split; [|split].
  - apply snapshot_of_intro; cbn [simulator_of teams matches team_objs match_objs].
    + by apply holds_teams_set.
    + done.
  - intros k. apply dict_get_set.
  - unfold referential_integrity. intros Hri.
    apply andb_true_iff in Hri as [Hnd Hok]. apply bool_decide_eq_true in Hnd.
    apply andb_true_iff. split.
    + apply bool_decide_eq_true. by apply dict_set_NoDup.
    + rewrite forallb_forall in Hok |- *. intros m Hm.
      specialize (Hok m Hm). unfold fixture_ok in *.
      destruct (played m); [done|]. cbn in *.
      apply andb_true_iff in Hok as [Hh Ha].
      by rewrite !has_key_set.
Qed.

Lemma create_match_missing self home away matchday s :
  has_key (db_teams self) home && has_key (db_teams self) away = false ->
  create_match self home away matchday s = (Raise ValueError, s).
Proof.
  intros Hk. unfold create_match.
  destruct (has_key (db_teams self) home), (has_key (db_teams self) away);
    done.
Qed.

Lemma create_match_present self home away matchday s :
  has_key (db_teams self) home && has_key (db_teams self) away = true ->
  create_match self home away matchday s
  = (Ok (mkDatabase (competition_name self) (db_teams self)
           (db_matches self ++ [fresh (dom (match_objs s))])
           (current_matchday self),
         fresh (dom (match_objs s))),
     mkStore (team_objs s)
       (<[fresh (dom (match_objs s)) := Match_init home away matchday]>
          (match_objs s))
       (gauss_stream s) (gauss_next s)).
Proof.
  intros Hk. apply andb_true_iff in Hk as [Hh Ha].
  unfold create_match. by rewrite Hh, Ha.
Qed.

Lemma holds_matches_alloc h ls ms l m :
  holds_matches h ls ms -> h !! l = None -> holds_matches (<[l := m]> h) ls ms.
Proof.
  intros Hms Hl. eapply Forall2_impl; [exact Hms|]. intros l' m' Hl'. cbn in *.
  rewrite lookup_insert_ne; [done|]. intros ->. congruence.
Qed.

(** X14.  [create_match] raises [ValueError], and leaves the store as it
    was, exactly when the home or the away team is not a key of the team
    dict; otherwise it appends one unplayed fixture without scores after
    the existing ones, which stay as they were, and referential integrity
    is kept.  A fixture of a team against itself is accepted. *)
Theorem create_match_checks_teams self home away matchday s F ms :
  snapshot_of (simulator_of self) s = Some (F, ms) ->
  (has_key F home && has_key F away = false ->
   create_match self home away matchday s = (Raise ValueError, s))
  /\ (has_key F home && has_key F away = true ->
      exists db' match_ s',
        create_match self home away matchday s = (Ok (db', match_), s')
        /\ db_teams db' = db_teams self
        /\ db_matches db' = db_matches self ++ [match_]
        /\ match_objs s !! match_ = None
        /\ team_objs s' = team_objs s
        /\ snapshot_of (simulator_of db') s'
           = Some (F, ms ++ [Match_init home away matchday])
        /\ (referential_integrity F ms = true ->
            referential_integrity F (ms ++ [Match_init home away matchday])
            = true)).
Proof.
  intros Hsnap. apply snapshot_of_Some in Hsnap as [HF Hms].
  cbn [simulator_of teams matches] in HF, Hms.
  pose proof (holds_teams_keys _ _ _ HF) as Hkeys.
  rewrite <- !(has_key_same_keys (db_teams self) F) by done.
  split; [apply create_match_missing|].
  intros Hk. rewrite (create_match_present _ _ _ _ _ Hk).
  set (l := fresh (dom (match_objs s))).
  assert (match_objs s !! l = None) as Hfresh.
  { apply not_elem_of_dom. apply is_fresh. }
  eexists _, l, _. split; [reflexivity|].
  cbn [db_teams db_matches team_objs].
  repeat split; try done.
  - apply snapshot_of_intro; cbn [simulator_of teams matches team_objs match_objs
                                   db_teams db_matches].
    + done.
    + apply Forall2_app; [by apply holds_matches_alloc|].
      constructor; [|constructor]. by rewrite lookup_insert_eq.
  - unfold referential_integrity. intros Hri.
    apply andb_true_iff in Hri as [Hnd Hok].
    apply andb_true_iff. split; [done|].
    rewrite forallb_app, Hok. cbn. unfold fixture_ok. cbn.
    rewrite !(has_key_same_keys (db_teams self) F) in Hk by done.
    by rewrite Hk.
Qed.

Lemma perform_ok db c s :
  db_ok db s = true ->
  exists db' s', perform db c s = (Ok db', s') /\ db_ok db' s' = true.
Proof.
  unfold db_ok. intros Hok.
  destruct (snapshot_of (simulator_of db) s) as [[F ms]|] eqn:Hsnap; [|done].
  destruct c as [name country|home away matchday]; cbn [perform].
  - apply snapshot_of_Some in Hsnap as [HF Hms].
    cbn [simulator_of teams matches] in HF, Hms.
    assert (team_objs s !! fresh (dom (team_objs s)) = None) as Hfresh.
    { apply not_elem_of_dom. apply is_fresh. }
    eexists _, _. split; [reflexivity|].
    erewrite snapshot_of_intro;
      [| cbn [simulator_of teams matches team_objs match_objs];
         by apply holds_teams_set
       | done].
    unfold referential_integrity in *.
    apply andb_true_iff in Hok as [Hnd Hfix]. apply bool_decide_eq_true in Hnd.
    apply andb_true_iff. split.
    + apply bool_decide_eq_true. by apply dict_set_NoDup.
    + rewrite forallb_forall in Hfix |- *. intros m Hm.
      specialize (Hfix m Hm). unfold fixture_ok in *.
      destruct (played m); [done|]. cbn in *.
      apply andb_true_iff in Hfix as [Hh Ha].
      by rewrite !has_key_set.
  - destruct (has_key (db_teams db) home && has_key (db_teams db) away) eqn:Hk.
    + rewrite (create_match_present _ _ _ _ _ Hk).
      apply snapshot_of_Some in Hsnap as [HF Hms].
      cbn [simulator_of teams matches] in HF, Hms.
      assert (match_objs s !! fresh (dom (match_objs s)) = None) as Hfresh.
      { apply not_elem_of_dom. apply is_fresh. }
      eexists _, _. split; [reflexivity|].
      erewrite snapshot_of_intro;
        [| cbn [simulator_of teams matches team_objs match_objs db_teams];
           exact HF
         | cbn [simulator_of teams matches team_objs match_objs db_matches];
           apply Forall2_app; [by apply holds_matches_alloc|];
           constructor; [|constructor]; by rewrite lookup_insert_eq].
      unfold referential_integrity in *.
      apply andb_true_iff in Hok as [Hnd Hfix].
      apply andb_true_iff. split; [done|].
      rewrite forallb_app, Hfix. cbn. unfold fixture_ok. cbn.
      rewrite !(has_key_same_keys (db_teams db) F) in Hk
        by by apply holds_teams_keys in HF.
      by rewrite Hk.
    + rewrite (create_match_missing _ _ _ _ _ Hk).
      exists db, s. split; [done|]. by rewrite Hsnap.
Qed.

Lemma perform_all_ok cs : forall db s,
  db_ok db s = true ->
  exists db' s', perform_all db cs s = (Ok db', s') /\ db_ok db' s' = true.
Proof.
  induction cs as [|c cs IH]; intros db s Hok; cbn [perform_all].
  - by exists db, s.
  - destruct (perform_ok db c s Hok) as (db1 & s1 & Hrun & Hok1).
    destruct (IH db1 s1 Hok1) as (db2 & s2 & Hrun2 & Hok2).
    exists db2, s2. unfold bind. by rewrite Hrun.
Qed.

(** X15.  A database grown from an empty one by any calls of [add_team]
    and [create_match] (a [ValueError] of [create_match] being caught, as
    [enter_matchday_calendar] does) has referential integrity, and the
    aggregation over its teams and fixtures returns statistics for any run
    count: no run can meet an unknown team. *)
Theorem grown_database_can_be_simulated competition calls g c n :
  exists db s r s',
    perform_all (Database_init competition) calls (mkStore ∅ ∅ g c)
    = (Ok db, s)
    /\ db_ok db s = true
    /\ run_simulations (simulator_of db) n s = (Ok r, s').
Proof.
  destruct (perform_all_ok calls (Database_init competition) (mkStore ∅ ∅ g c))
    as (db & s & Hrun & Hok); [done|].
  pose proof Hok as Hok'. unfold db_ok in Hok'.
  destruct (snapshot_of (simulator_of db) s) as [[F ms]|] eqn:Hsnap; [|done].
  destruct (run_simulations_spec (simulator_of db) n s F ms Hsnap Hok')
    as (s' & Hsim & _).
  by eexists db, s, _, s'.
Qed.

(** ** Saving and loading *)

Lemma set_attrs_to_dict t :
  set_points
    (set_goals_against
       (set_goals_for
          (set_losses
             (set_draws
                (set_wins
                   (set_matches_played (Team_init (name t) (country t))
                      (matches_played t))
                   (wins t))
                (draws t))
             (losses t))
          (goals_for t))
       (goals_against t))
    (points t)
  = t.
Proof. by destruct t. Qed.

Lemma load_team_to_dict teams k t s :
  load_team teams k (Team_to_dict t) s
  = (Ok (dict_set teams k (fresh (dom (team_objs s)))),
     mkStore (<[fresh (dom (team_objs s)) := t]> (team_objs s)) (match_objs s)
             (gauss_stream s) (gauss_next s)).
Proof.
  unfold load_team, bind, item, Team_to_dict, subscript, as_str, as_int,
    new_team, modify_team, ret.
  cbn [dict_get team_objs match_objs gauss_stream gauss_next].
  repeat (rewrite ?decide_True by reflexivity;
          rewrite ?decide_False by discriminate;
          cbn [team_objs match_objs gauss_stream gauss_next];
          rewrite ?lookup_insert_eq, ?insert_insert_eq).
  by rewrite set_attrs_to_dict.
Qed.

Lemma load_match_to_dict matches m s :
  (played m = false -> home_score m = None /\ away_score m = None) ->
  load_match matches (Match_to_dict m) s
  = (Ok (matches ++ [fresh (dom (match_objs s))]),
     mkStore (team_objs s) (<[fresh (dom (match_objs s)) := m]> (match_objs s))
             (gauss_stream s) (gauss_next s)).
Proof.
  intros Hm.
  unfold load_match, bind, item, Match_to_dict, subscript, as_str, as_int,
    new_match, ret.
  cbn [dict_get team_objs match_objs gauss_stream gauss_next].
  repeat (rewrite ?decide_True by reflexivity;
          rewrite ?decide_False by discriminate).
  cbn [truthy]. destruct m as [h a d hs as_ p]. cbn [played home_score away_score
    home_team away_team matchday] in *.
  destruct p.
  - unfold as_opt_int, modify_match, ret.
    destruct hs, as_; cbn [JOptInt match_objs team_objs gauss_stream gauss_next];
      by rewrite lookup_insert_eq, insert_insert_eq.
  - by destruct (Hm eq_refl) as [-> ->].
Qed.

Lemma load_teams_spec F : forall acc Wacc s,
  holds_teams (team_objs s) acc Wacc ->
  exists acc' s',
    load_teams acc ((fun x => (x.1, Team_to_dict x.2)) <$> F) s = (Ok acc', s')
    /\ holds_teams (team_objs s') acc' (dict_update Wacc F)
    /\ team_objs s ⊆ team_objs s'
    /\ match_objs s' = match_objs s
    /\ gauss_stream s' = gauss_stream s
    /\ gauss_next s' = gauss_next s.
Proof.
  induction F as [|[k t] F IH]; intros acc Wacc s Hacc.
  - exists acc, s. by repeat split.
  - rewrite fmap_cons. cbn [load_teams fst snd]. unfold bind.
    rewrite load_team_to_dict.
    assert (team_objs s !! fresh (dom (team_objs s)) = None) as Hfresh.
    { apply not_elem_of_dom. apply is_fresh. }
    destruct (IH (dict_set acc k (fresh (dom (team_objs s))))
                 (dict_set Wacc k t)
                 (mkStore (<[fresh (dom (team_objs s)) := t]> (team_objs s))
                          (match_objs s) (gauss_stream s) (gauss_next s)))
      as (acc' & s' & Hrun & Hh & Hsub & Hm & Hg & Hc);
      [by apply holds_teams_set|].
    exists acc', s'. rewrite Hrun. repeat split; try done.
    etrans; [|exact Hsub]. cbn. by apply insert_subseteq.
Qed.

Lemma load_matches_spec ms : forall acc msacc s,
  holds_matches (match_objs s) acc msacc ->
  Forall (fun m => played m = false ->
                   home_score m = None /\ away_score m = None) ms ->
  exists acc' s',
    load_matches acc (Match_to_dict <$> ms) s = (Ok acc', s')
    /\ holds_matches (match_objs s') acc' (msacc ++ ms)
    /\ match_objs s ⊆ match_objs s'
    /\ team_objs s' = team_objs s
    /\ gauss_stream s' = gauss_stream s
    /\ gauss_next s' = gauss_next s.
Proof.
  induction ms as [|m ms IH]; intros acc msacc s Hacc Hall.
  - exists acc, s. rewrite app_nil_r. by repeat split.
  - apply Forall_cons in Hall as [Hm Hall].
    rewrite fmap_cons. cbn [load_matches]. unfold bind.
    rewrite (load_match_to_dict _ _ _ Hm).
    assert (match_objs s !! fresh (dom (match_objs s)) = None) as Hfresh.
    { apply not_elem_of_dom. apply is_fresh. }
    destruct (IH (acc ++ [fresh (dom (match_objs s))]) (msacc ++ [m])
                 (mkStore (team_objs s)
                          (<[fresh (dom (match_objs s)) := m]> (match_objs s))
                          (gauss_stream s) (gauss_next s)))
      as (acc' & s' & Hrun & Hh & Hsub & Ht & Hg & Hc); [|exact Hall|].
    { apply Forall2_app; [by apply holds_matches_alloc|].
      constructor; [|constructor]. cbn. by rewrite lookup_insert_eq. }
    exists acc', s'. rewrite Hrun. rewrite <- app_assoc in Hh.
    repeat split; try done.
    etrans; [|exact Hsub]. cbn. by apply insert_subseteq.
Qed.

Lemma save_teams_spec d : forall W s,
  holds_teams (team_objs s) d W ->
  map_each (fun '(name, team) =>
              do t <- read_team team; ret (name, Team_to_dict t)) d s
  = (Ok ((fun x => (x.1, Team_to_dict x.2)) <$> W), s).
Proof.
  induction d as [|[k l] d IH]; intros W s HW.
  - by apply Forall2_nil_inv_l in HW as ->.
  - apply Forall2_cons_inv_l in HW as ([k' t] & W' & [Hk Hl] & HW & ->).
    cbn in Hk, Hl. subst k'. cbn [map_each]. unfold bind, read_team.
    rewrite Hl. cbn [ret].
    specialize (IH W' s HW). unfold bind, read_team in IH. rewrite IH.
    reflexivity.
Qed.

Lemma save_matches_spec ls : forall ms s,
  holds_matches (match_objs s) ls ms ->
  map_each (fun match_ => do m <- read_match match_; ret (Match_to_dict m)) ls s
  = (Ok (Match_to_dict <$> ms), s).
Proof.
  induction ls as [|l ls IH]; intros ms s Hms.
  - by apply Forall2_nil_inv_l in Hms as ->.
  - apply Forall2_cons_inv_l in Hms as (m & ms' & Hl & Hms & ->).
    cbn [map_each]. unfold bind, read_match. rewrite Hl. cbn [ret].
    specialize (IH ms' s Hms). unfold bind, read_match in IH. rewrite IH.
    reflexivity.
Qed.

Lemma save_then_load db0 db s F0 ms0 F ms :
  snapshot_of (simulator_of db0) s = Some (F0, ms0) ->
  snapshot_of (simulator_of db) s = Some (F, ms) ->
  Forall (fun m => played m = false ->
                   home_score m = None /\ away_score m = None) ms ->
  exists data db' s',
    save_to_file db s = (Ok data, s)
    /\ load_from_file db0 (Some data) s = (Ok (db', true), s')
    /\ competition_name db' = competition_name db
    /\ current_matchday db' = current_matchday db
    /\ snapshot_of (simulator_of db') s' = Some (dict_update F0 F, ms0 ++ ms)
    /\ kept s s'.
Proof.
  intros Hsnap0 Hsnap Hall.
  apply snapshot_of_Some in Hsnap0 as [HF0 Hms0].
  apply snapshot_of_Some in Hsnap as [HF Hms].
  cbn [simulator_of teams matches] in *.
  destruct (load_teams_spec F (db_teams db0) F0 s HF0)
    as (tc & s1 & Hrun1 & Htc & Hsub1 & Hm1 & Hg1 & Hc1).
  destruct (load_matches_spec ms (db_matches db0) ms0 s1)
    as (mc & s2 & Hrun2 & Hmc & Hsub2 & Ht2 & Hg2 & Hc2);
    [by rewrite Hm1|done|].
  eexists _, _, s2. split.
  { unfold save_to_file. unfold bind at 1.
    rewrite (save_teams_spec _ _ _ HF). unfold bind at 1.
    rewrite (save_matches_spec _ _ _ Hms). reflexivity. }
  split.
  { unfold load_from_file, bind, item, subscript, as_str, as_int, as_dict,
      as_list, ret.
    cbn [dict_get].
    repeat (rewrite ?decide_True by reflexivity;
            rewrite ?decide_False by discriminate).
    rewrite Hrun1, Hrun2. reflexivity. }
  split; [done|]. split; [done|]. split.
  - apply snapshot_of_intro; cbn [simulator_of teams matches db_teams db_matches].
    + by rewrite Ht2.
    + done.
  - split; [by rewrite Ht2|]. split; [by rewrite <- Hm1|congruence].
Qed.

Lemma dict_update_fresh {V} (F : dict V) : forall acc,
  NoDup (acc.*1 ++ F.*1) -> dict_update acc F = acc ++ F.
Proof.
  unfold dict_update.
  induction F as [|[k v] F IH]; intros acc Hnd; cbn; [by rewrite app_nil_r|].
  cbn in Hnd.
  assert (k ∉ acc.*1) as Hk.
  { intros Hin. apply NoDup_app in Hnd as (_ & Hdis & _).
    apply (Hdis k Hin). left. }
  rewrite (dict_set_fresh _ _ _ Hk), IH.
  - by rewrite <- app_assoc.
  - rewrite fmap_app. cbn. by rewrite <- app_assoc.
Qed.

Lemma dict_set_same {V} (d : dict V) k v :
  dict_get d k = Some v -> dict_set d k v = d.
Proof.
  induction d as [|[k0 v0] d IH]; cbn; [done|].
  case_decide; intros Hg; [by simplify_eq|]. by rewrite IH.
Qed.

Lemma dict_update_same {V} (d F : dict V) :
  (forall k v, (k, v) ∈ F -> dict_get d k = Some v) -> dict_update d F = d.
Proof.
  unfold dict_update. induction F as [|[k v] F IH]; intros Hall; cbn; [done|].
  rewrite dict_set_same; [|apply Hall; left].
  apply IH. intros k' v' Hin. apply Hall. by right.
Qed.

(** X16.  What [save_to_file] writes, loaded by [load_from_file] into a
    new database, gives back the competition name, the current matchday,
    every team under its key with every tally, in the same order, and
    every fixture with its teams, matchday, played flag and scores, in the
    same order, provided the unplayed fixtures carry no scores; the
    objects of the saved database are not written. *)
Theorem save_load_round_trip db s F ms competition :
  snapshot_of (simulator_of db) s = Some (F, ms) ->
  NoDup F.*1 ->
  Forall (fun m => played m = false ->
                   home_score m = None /\ away_score m = None) ms ->
  exists data db' s',
    save_to_file db s = (Ok data, s)
    /\ load_from_file (Database_init competition) (Some data) s
       = (Ok (db', true), s')
    /\ competition_name db' = competition_name db
    /\ current_matchday db' = current_matchday db
    /\ snapshot_of (simulator_of db') s' = Some (F, ms)
    /\ snapshot_of (simulator_of db) s' = Some (F, ms).
Proof.
  intros Hsnap Hnd Hall.
  destruct (save_then_load (Database_init competition) db s [] [] F ms)
    as (data & db' & s' & Hsave & Hload & Hcn & Hcm & Hsnap' & Hk);
    [done|done|done|].
  exists data, db', s'. repeat split; try done.
  - rewrite Hsnap'. by rewrite dict_update_fresh.
  - by eapply kept_snapshot.
Qed.

(** X17.  [load_from_file] does not clear the database it loads into: the
    fixtures of the file are appended after the fixtures it already holds,
    and a team of the file replaces the team of the same name.  Loading
    its own save into a database leaves the same teams and every fixture
    twice. *)
Theorem load_appends_fixtures db s F ms :
  snapshot_of (simulator_of db) s = Some (F, ms) ->
  NoDup F.*1 ->
  Forall (fun m => played m = false ->
                   home_score m = None /\ away_score m = None) ms ->
  exists data db' s',
    save_to_file db s = (Ok data, s)
    /\ load_from_file db (Some data) s = (Ok (db', true), s')
    /\ snapshot_of (simulator_of db') s' = Some (F, ms ++ ms)
    /\ length (db_matches db') = (2 * length (db_matches db))%nat.
Proof.
  intros Hsnap Hnd Hall.
  destruct (save_then_load db db s F ms F ms)
    as (data & db' & s' & Hsave & Hload & Hcn & Hcm & Hsnap' & Hk);
    [done|done|done|].
  exists data, db', s'. split; [done|]. split; [done|].
  rewrite dict_update_same in Hsnap'.
  2:{ intros k v Hin. by apply dict_get_Some_iff. }
  split; [done|].
  apply snapshot_of_Some in Hsnap' as [_ Hms'].
  apply snapshot_of_Some in Hsnap as [_ Hms].
  apply Forall2_length in Hms', Hms. cbn [simulator_of matches] in *.
  rewrite Hms', length_app, Hms. lia.
Qed.

(** ** Finding a team by name *)

Lemma first_where_elem {A} (f : A -> bool) l x :
  first_where f l = Some x -> x ∈ l /\ f x = true.
Proof.
  induction l as [|y l IH]; cbn; [done|].
  destruct (f y) eqn:E.
  - intros [= ->]. split; [left|done].
  - intros Hx. destruct (IH Hx). split; [by right|done].
Qed.


Lemma first_where_first {A} (f : A -> bool) l1 x l2 :
  Forall (fun y => f y = false) l1 -> f x = true ->
  first_where f (l1 ++ x :: l2) = Some x.
Proof.
  induction 1 as [|y l1 Hy _ IH]; intros Hx; cbn.
  - by rewrite Hx.
  - rewrite Hy. by apply IH.
Qed.

Lemma contains_empty hay : contains hay EmptyString = true.
Proof. by destruct hay. Qed.

(** X18.  [find_team_fuzzy] returns [None] or a key of the team dict, so
    the caller can index the dict with what it returns; with no teams it
    returns [None]; and a key that equals the search name up to case and
    surrounding blanks wins over every looser match: the first such key in
    dict order is returned. *)
Theorem find_team_fuzzy_returns_key lib self search_name :
  (forall team_name,
     find_team_fuzzy lib self search_name = Some team_name ->
     is_Some (dict_get (db_teams self) team_name))
  /\ (db_teams self = [] -> find_team_fuzzy lib self search_name = None)
  /\ (forall before team_name after,
        (db_teams self).*1 = before ++ team_name :: after ->
        strip lib (lower lib team_name) = strip lib (lower lib search_name) ->
        Forall (fun k => strip lib (lower lib k)
                         <> strip lib (lower lib search_name)) before ->
        find_team_fuzzy lib self search_name = Some team_name).
Proof.
  split; [|split].
  - intros team_name. unfold find_team_fuzzy.
    repeat (match goal with
            | |- context [first_where ?f ?l] =>
                destruct (first_where f l) eqn:?
            end);
      intros; simplify_eq;
      apply dict_get_is_Some_keys;
      match goal with
      | H : first_where _ _ = Some _ |- _ =>
          by apply first_where_elem in H as [? _]
      end.
  - intros Hnil. unfold find_team_fuzzy. by rewrite Hnil.
  - intros before team_name after Hkeys Heq Hbefore.
    unfold find_team_fuzzy. rewrite Hkeys.
    rewrite first_where_first; [done| |by apply bool_decide_eq_true_2].
    eapply Forall_impl; [exact Hbefore|]. intros k Hk.
    by apply bool_decide_eq_false_2.
Qed.

(** X19.  A search name that normalizes to the empty string (one made of
    punctuation only, say) finds a team whenever there is one: the empty
    string is contained in every normalized name. *)
Theorem find_team_fuzzy_empty_search lib self search_name :
  normalize_team_name lib search_name = EmptyString ->
  db_teams self <> [] ->
  is_Some (find_team_fuzzy lib self search_name).
Proof.
  intros Hnorm Hne. unfold find_team_fuzzy. rewrite Hnorm.
  destruct (first_where _ _) as [k|]; [eauto|].
  destruct (first_where _ _) as [k|]; [eauto|].
  destruct (db_teams self) as [|[k l] d]; [done|].
  cbn. rewrite contains_empty. eauto.
Qed.

(** * The racing bars *)

(** ** Sorting in ascending order *)

Section SortedAscending.
Context {A : Type} (lt : A -> A -> bool).

Lemma insert_asc_perm x l : insert_asc lt x l ≡ₚ x :: l.
Proof.
  induction l as [|y l IH]; cbn; [done|].
  destruct (lt y x); [|done]. rewrite IH. apply Permutation_swap.
Qed.

Lemma sorted_ascending_perm l : sorted_ascending lt l ≡ₚ l.
Proof.
  induction l as [|x l IH]; cbn; [done|].
  fold (sorted_ascending lt l). by rewrite insert_asc_perm, IH.
Qed.


Context (asym : forall x y, lt x y = true -> lt y x = false).
Context (trans : forall x y z, lt y x = false -> lt z y = false -> lt z x = false).

Lemma insert_asc_sorted x l :
  StronglySorted (fun a b => lt b a = false) l ->
  StronglySorted (fun a b => lt b a = false) (insert_asc lt x l).
Proof.
  induction 1 as [|y l Hl IH Hy]; cbn [insert_asc].
  - repeat constructor.
  - destruct (lt y x) eqn:E.
    + constructor; [done|].
      rewrite insert_asc_perm. constructor; [by apply asym|done].
    + constructor; [by constructor|].
      constructor; [done|].
      eapply Forall_impl; [exact Hy|]. intros z Hz. by eapply trans.
Qed.

Lemma sorted_ascending_sorted l :
  StronglySorted (fun a b => lt b a = false) (sorted_ascending lt l).
Proof.
  induction l as [|x l IH]; cbn; [constructor|].
  by apply insert_asc_sorted.
Qed.
End SortedAscending.

Lemma float_lt_true x y : float_lt x y = true <-> (x < y)%Q.
Proof. unfold float_lt, Qlt. apply Z.ltb_lt. Qed.

Lemma float_lt_false x y : float_lt x y = false <-> (y <= x)%Q.
Proof.
  unfold float_lt, Qle. rewrite Z.ltb_ge. done.
Qed.

Lemma rows_sorted (rows : list Row) :
  StronglySorted (fun a b => (row_position a <= row_position b)%Q)
    (sorted_ascending (fun a b => float_lt (row_position a) (row_position b))
                      rows).
Proof.
  eapply StronglySorted_impl; [|apply sorted_ascending_sorted].
  - intros a b Hab. cbn in Hab. by apply float_lt_false.
  - intros x y Hxy. apply float_lt_true in Hxy. apply float_lt_false.
    by apply Qlt_le_weak.
  - intros x y z Hxy Hyz. apply float_lt_false in Hxy, Hyz.
    apply float_lt_false. by eapply Qle_trans.
Qed.

(** ** The two indexes *)

Lemma entry_name_item t n s :
  entry_name t = Some n ->
  (do j <- item t "name"; as_str j) s = (Ok n, s).
Proof.
  unfold entry_name. destruct t as [| | | | |d]; try done.
  destruct (dict_get d "name") as [[| | |n'| |]|] eqn:E; try done.
  intros [= ->]. unfold bind, item, subscript. by rewrite E.
Qed.

Lemma index_by_name_spec items : forall acc s,
  Forall (fun it : nat * json => is_Some (entry_name it.2)) items ->
  index_by_name items acc s = (Ok (dict_update acc (named <$> items)), s).
Proof.
  induction items as [|[i t] items IH]; intros acc s Hall; [done|].
  apply Forall_cons in Hall as [[n Hn] Hall]. cbn in Hn.
  cbn [index_by_name]. unfold bind at 1.
  rewrite (entry_name_item _ _ _ Hn). rewrite IH by done.
  unfold dict_update, named. cbn. by rewrite Hn.
Qed.

Lemma enumerate_snd {A} (l : list A) : forall a, (enumerate a l).*2 = l.
Proof. induction l as [|x l IH]; intros a; cbn; [done|]. by rewrite IH. Qed.

Lemma enumerate_lookup {A} (l : list A) : forall a i x,
  enumerate a l !! i = Some x <-> x.1 = (a + i)%nat /\ l !! i = Some x.2.
Proof.
  induction l as [|y l IH]; intros a i [j x]; cbn.
  - rewrite !lookup_nil. split; [done|]. by intros [_ ?].
  - destruct i as [|i]; cbn.
    + rewrite Nat.add_0_r. split; [by intros [= -> ->]|].
      intros [-> [= ->]]. done.
    + rewrite IH. cbn. split; intros [-> ?]; (split; [lia|done]).
Qed.

Lemma named_keys (st : list json) names a :
  mapM entry_name st = Some names ->
  (named <$> enumerate a st).*1 = names
  /\ Forall (fun it : nat * json => is_Some (entry_name it.2)) (enumerate a st).
Proof.
  intros Hn. apply mapM_Some_1 in Hn. revert a.
  induction Hn as [|t n st names Ht _ IH]; intros a; cbn; [done|].
  cbv beta in Ht.
  destruct (IH (S a)) as [Hk Hall]. split.
  - cbn [enumerate fmap list_fmap]. unfold named at 1. cbn [fst snd].
    rewrite Ht. cbn [default]. f_equal. exact Hk.
  - constructor; [cbn [snd]; by rewrite Ht|done].
Qed.

Lemma index_lookup (st : list json) names n :
  mapM entry_name st = Some names ->
  NoDup names ->
  dict_get (named <$> enumerate 0 st) n
  = match list_find (fun k => k = n) names with
    | Some (i, _) => (fun t => (i, t)) <$> st !! i
    | None => None
    end.
Proof.
  intros Hn Hnd. apply mapM_Some_1 in Hn.
  assert (forall a,
    dict_get (named <$> enumerate a st) n
    = match list_find (fun k => k = n) names with
      | Some (i, _) => (fun t => ((a + i)%nat, t)) <$> st !! i
      | None => None
      end) as Hgen; [|apply (Hgen 0%nat)].
  induction Hn as [|t k st names Ht _ IH]; intros a; [done|].
  cbv beta in Ht.
  apply NoDup_cons in Hnd as [Hk Hnd]. specialize (IH Hnd).
  cbn [enumerate fmap list_fmap dict_get named fst snd list_find].
  rewrite Ht. cbn [from_option]. unfold id.
  destruct (decide (k = n)) as [->|Hne].
  - cbn. by rewrite Nat.add_0_r.
  - rewrite (IH (S a)). destruct (list_find _ names) as [[i x]|]; cbn; [|done].
    destruct (st !! i); cbn; [|done]. do 2 f_equal. lia.
Qed.



Lemma interpolated_rows_spec (st1 st2 : list json) names1 progress :
  mapM entry_name st1 = Some names1 ->
  NoDup names1 ->
  Forall (fun t => is_Some (entry_name t)) st2 ->
  forall a,
    interpolated_rows (named <$> enumerate 0 st1) (named <$> enumerate a st2)
                      progress
    = omap (fun it : nat * json => row_of names1 progress it.1 it.2)
           (enumerate a st2).
Proof.
  intros Hn Hnd Hall. unfold interpolated_rows.
  induction Hall as [|t st2 [n Ht] _ IH]; intros a; [done|].
  cbn [enumerate fmap list_fmap omap list_omap]. rewrite <- IH.
  unfold named at 1, row_of. cbn [fst snd]. rewrite Ht. cbn [from_option]. unfold id.
  rewrite (index_lookup st1 names1 n Hn Hnd).
  destruct (list_find _ names1) as [[i x]|] eqn:Hf; [|done].
  apply list_find_Some in Hf as (Hi & -> & _).
  apply mapM_Some_1 in Hn.
  destruct (Forall2_lookup_r _ _ _ _ _ Hn Hi) as (t1 & Ht1 & _).
  by rewrite Ht1.
Qed.

Lemma standings_of_item snap st s :
  standings_of snap = Some st ->
  (do j <- item snap "standings"; as_list j) s = (Ok st, s).
Proof.
  unfold standings_of. destruct snap as [| | | | |d]; try done.
  destruct (dict_get d "standings") as [[| | | |l|]|] eqn:E; try done.
  intros [= ->]. unfold bind, item, subscript. by rewrite E.
Qed.

Lemma interpolate_run snap1 snap2 st1 st2 names1 names2 progress s :
  standings_of snap1 = Some st1 -> mapM entry_name st1 = Some names1 ->
  standings_of snap2 = Some st2 -> mapM entry_name st2 = Some names2 ->
  NoDup names1 -> NoDup names2 ->
  interpolate snap1 snap2 progress s
  = (Ok (sorted_ascending
           (fun a b => float_lt (row_position a) (row_position b))
           (omap (fun it : nat * json => row_of names1 progress it.1 it.2)
                 (enumerate 0 st2))), s).
Proof.
  intros Hs1 Hn1 Hs2 Hn2 Hnd1 Hnd2. unfold interpolate.
  destruct (named_keys st1 names1 0 Hn1) as [Hk1 Hall1].
  destruct (named_keys st2 names2 0 Hn2) as [Hk2 Hall2].
  unfold bind at 1. rewrite (standings_of_item _ _ _ Hs1).
  unfold bind at 1. rewrite (index_by_name_spec _ _ _ Hall1).
  unfold bind at 1. rewrite (standings_of_item _ _ _ Hs2).
  unfold bind at 1. rewrite (index_by_name_spec _ _ _ Hall2).
  rewrite !dict_update_fresh by (cbn; by rewrite ?Hk1, ?Hk2).
  cbn [app]. unfold ret. do 3 f_equal.
  apply interpolated_rows_spec; [done..|].
  rewrite <- (enumerate_snd st2 0%nat) at 1.
  rewrite Forall_fmap. exact Hall2.
Qed.

(** ** The rows *)

Lemma list_find_name (names : list string) n :
  match list_find (fun k => k = n) names with
  | Some (i, k) => k = n /\ names !! i = Some n
  | None => n ∉ names
  end.
Proof.
  destruct (list_find _ names) as [[i k]|] eqn:Hf.
  - apply list_find_Some in Hf as (Hi & -> & _). done.
  - intros Hin. apply list_find_None in Hf.
    rewrite Forall_forall in Hf. by apply (Hf n Hin).
Qed.

Lemma rows_names (st2 : list json) names1 names2 progress :
  mapM entry_name st2 = Some names2 ->
  forall a,
    row_name <$> omap (fun it : nat * json => row_of names1 progress it.1 it.2)
                      (enumerate a st2)
    = filter (.∈ names1) names2.
Proof.
  intros Hn. apply mapM_Some_1 in Hn.
  induction Hn as [|t n st2 names2 Ht _ IH]; intros a; [done|].
  cbv beta in Ht.
  cbn [enumerate omap list_omap]. rewrite filter_cons.
  unfold row_of at 1. cbn [fst snd]. rewrite Ht.
  pose proof (list_find_name names1 n) as Hf.
  destruct (list_find _ names1) as [[i k]|].
  - destruct Hf as [_ Hi]. rewrite decide_True
      by (by eapply list_elem_of_lookup_2).
    cbn. f_equal. apply IH.
  - rewrite decide_False by done. apply IH.
Qed.

Lemma rows_elem (st2 : list json) names1 names2 progress row :
  mapM entry_name st2 = Some names2 ->
  row ∈ omap (fun it : nat * json => row_of names1 progress it.1 it.2)
             (enumerate 0 st2) ->
  exists i j t,
    names1 !! i = Some (row_name row)
    /\ names2 !! j = Some (row_name row)
    /\ st2 !! j = Some t
    /\ row_position row = moving_position i j progress
    /\ row_points row = get_default t "points" (JInt 0)
    /\ row_gd row = get_default t "gd" (JInt 0).
Proof.
  intros Hn Hin. apply mapM_Some_1 in Hn.
  apply list_elem_of_omap in Hin as ([j t] & Hin & Hrow).
  apply list_elem_of_lookup in Hin as [j' Hj].
  apply enumerate_lookup in Hj as [Hj Ht]. cbn in Hj, Ht. subst j.
  destruct (Forall2_lookup_l _ _ _ _ _ Hn Ht) as (n & Hn2 & Hnt).
  cbv beta in Hnt. unfold row_of in Hrow. cbn [fst snd] in Hrow.
  rewrite Hnt in Hrow.
  pose proof (list_find_name names1 n) as Hf.
  destruct (list_find _ names1) as [[i k]|]; [|done].
  destruct Hf as [_ Hi]. injection Hrow as <-.
  exists i, j', t. cbn. done.
Qed.

(** ** The order of the names *)

Lemma before_suffix (names : list string) : forall pre l,
  names = pre ++ l -> StronglySorted (stands_before names) l.
Proof.
  intros pre l. revert pre.
  induction l as [|x l IH]; intros pre ->; constructor.
  - apply (IH (pre ++ [x])). by rewrite <- app_assoc.
  - apply Forall_forall. intros y Hy.
    apply list_elem_of_lookup in Hy as [k Hk].
    exists (length pre), (length pre + S k)%nat. split; [|split; [|lia]].
    + by rewrite list_lookup_middle.
    + rewrite lookup_app_r by lia.
      replace (length pre + S k - length pre)%nat with (S k) by lia. done.
Qed.

Lemma StronglySorted_filter {A} (R : relation A) (P : A -> Prop)
    `{!forall x, Decision (P x)} l :
  StronglySorted R l -> StronglySorted R (filter P l).
Proof.
  induction 1 as [|x l Hl IH Hx]; [constructor|].
  rewrite filter_cons. destruct (decide (P x)); [|done].
  constructor; [done|]. apply Forall_forall. intros y Hy.
  apply list_elem_of_filter in Hy as [_ Hy].
  rewrite Forall_forall in Hx. by apply Hx.
Qed.

Lemma before_asym (names : list string) n n' :
  NoDup names -> stands_before names n n' -> stands_before names n' n -> False.
Proof.
  intros Hnd (i & i' & Hi & Hi' & Hlt) (j & j' & Hj & Hj' & Hlt').
  pose proof (NoDup_lookup _ _ _ _ Hnd Hi Hj').
  pose proof (NoDup_lookup _ _ _ _ Hnd Hi' Hj). lia.
Qed.

Lemma rows_before (names : list string) (rows : list Row) :
  NoDup (row_name <$> rows) ->
  StronglySorted (fun a b => (row_position a <= row_position b)%Q) rows ->
  (forall row, row ∈ rows ->
     exists i, names !! i = Some (row_name row)
               /\ (row_position row == inject_Z (Z.of_nat i))%Q) ->
  StronglySorted (stands_before names) (row_name <$> rows).
Proof.
  intros Hnd Hs. induction Hs as [|x l Hl IH Hx]; intros Hpos; [constructor|].
  cbn in Hnd. apply NoDup_cons in Hnd as [Hxl Hnd].
  cbn. constructor.
  - apply IH; [done|]. intros row Hrow. apply Hpos. by right.
  - apply Forall_fmap, Forall_forall. intros y Hy. cbn.
    rewrite Forall_forall in Hx. specialize (Hx y Hy).
    destruct (Hpos x) as (i & Hi & Hpi); [left|].
    destruct (Hpos y) as (j & Hj & Hpj); [by right|].
    rewrite Hpi, Hpj in Hx. rewrite <- Zle_Qle in Hx.
    exists i, j. split; [done|]. split; [done|].
    destruct (decide (i = j)) as [->|]; [|lia].
    destruct Hxl. rewrite Hi in Hj. injection Hj as ->.
    apply list_elem_of_fmap. by exists y.
Qed.

Lemma order_from_positions (names : list string) (P : string -> Prop)
    `{!forall x, Decision (P x)} (rows : list Row) :
  NoDup names ->
  row_name <$> rows ≡ₚ filter P names ->
  StronglySorted (fun a b => (row_position a <= row_position b)%Q) rows ->
  (forall row, row ∈ rows ->
     exists i, names !! i = Some (row_name row)
               /\ (row_position row == inject_Z (Z.of_nat i))%Q) ->
  row_name <$> rows = filter P names.
Proof.
  intros Hnd Hperm Hs Hpos.
  apply (StronglySorted_unique_strong (stands_before names)).
  - intros n n' _ _ H1 H2. destruct (before_asym names n n' Hnd H1 H2).
  - apply rows_before; [|done..]. rewrite Hperm. by apply NoDup_filter.
  - apply StronglySorted_filter. by apply (before_suffix names []).
  - done.
Qed.

Lemma moving_position_start i j :
  (moving_position i j 0 == inject_Z (Z.of_nat i))%Q.
Proof. unfold moving_position. ring. Qed.

Lemma moving_position_end i j :
  (moving_position i j 1 == inject_Z (Z.of_nat j))%Q.
Proof.
  unfold moving_position. unfold Z.sub. rewrite inject_Z_plus, inject_Z_opp.
  ring.
Qed.

Lemma common_names (names1 names2 : list string) :
  NoDup names1 -> NoDup names2 ->
  filter (.∈ names1) names2 ≡ₚ filter (.∈ names2) names1.
Proof.
  intros H1 H2. apply NoDup_Permutation; [by apply NoDup_filter..|].
  intros n. rewrite !list_elem_of_filter. tauto.
Qed.

(** X20.  [interpolate] on two snapshots whose standings list named teams,
    no name twice, returns without raising, whatever the progress: it
    gives one row for each team of the new standings that is also in the
    old ones, and none for the others; the points and the goal difference
    of a row are those of the team's entry in the new standings (0 when
    the entry has none). *)
Theorem interpolate_rows snap1 snap2 st2 names1 names2 progress s :
  names_of snap1 = Some names1 ->
  standings_of snap2 = Some st2 ->
  names_of snap2 = Some names2 ->
  NoDup names1 -> NoDup names2 ->
  exists rows,
    interpolate snap1 snap2 progress s = (Ok rows, s)
    /\ row_name <$> rows ≡ₚ filter (.∈ names1) names2
    /\ (forall row, row ∈ rows ->
          exists i j t,
            names1 !! i = Some (row_name row)
            /\ names2 !! j = Some (row_name row)
            /\ st2 !! j = Some t
            /\ row_points row = get_default t "points" (JInt 0)
            /\ row_gd row = get_default t "gd" (JInt 0)).
Proof.
  intros Hn1 Hs2 Hn2 Hnd1 Hnd2. unfold names_of in Hn1, Hn2.
  destruct (standings_of snap1) as [st1|] eqn:Hs1; [|done].
  rewrite Hs2 in Hn2.
  eexists. split; [by eapply interpolate_run|].
  split.
  - rewrite sorted_ascending_perm. by rewrite (rows_names _ _ names2).
  - intros row Hrow. rewrite sorted_ascending_perm in Hrow.
    destruct (rows_elem _ _ _ _ _ Hn2 Hrow)
      as (i & j & t & Hi & Hj & Ht & _ & Hp & Hg).
    by exists i, j, t.
Qed.

(** X21.  At progress 0 the rows of [interpolate] stand in the order of the
    old standings, at progress 1 in the order of the new standings (in both
    cases the teams that are in both). *)
Theorem interpolate_endpoints snap1 snap2 names1 names2 s :
  names_of snap1 = Some names1 ->
  names_of snap2 = Some names2 ->
  NoDup names1 -> NoDup names2 ->
  (exists rows,
     interpolate snap1 snap2 0 s = (Ok rows, s)
     /\ row_name <$> rows = filter (.∈ names2) names1)
  /\ (exists rows,
        interpolate snap1 snap2 1 s = (Ok rows, s)
        /\ row_name <$> rows = filter (.∈ names1) names2).
Proof.
  intros Hn1 Hn2 Hnd1 Hnd2. unfold names_of in Hn1, Hn2.
  destruct (standings_of snap1) as [st1|] eqn:Hs1; [|done].
  destruct (standings_of snap2) as [st2|] eqn:Hs2; [|done].
  split.
  - eexists. split; [by eapply interpolate_run|].
    apply order_from_positions; [done| | |].
    + rewrite sorted_ascending_perm, (rows_names _ _ names2) by done.
      by apply common_names.
    + apply rows_sorted.
    + intros row Hrow. rewrite sorted_ascending_perm in Hrow.
      destruct (rows_elem _ _ _ _ _ Hn2 Hrow) as (i & j & t & Hi & _ & _ & -> & _).
      exists i. split; [done|]. apply moving_position_start.
  - eexists. split; [by eapply interpolate_run|].
    apply order_from_positions; [done| | |].
    + by rewrite sorted_ascending_perm, (rows_names _ _ names2).
    + apply rows_sorted.
    + intros row Hrow. rewrite sorted_ascending_perm in Hrow.
      destruct (rows_elem _ _ _ _ _ Hn2 Hrow) as (i & j & t & _ & Hj & _ & -> & _).
      exists j. split; [done|]. apply moving_position_end.
Qed.

(** * Entering the results of a matchday *)

Lemma find_team_fuzzy_key lib self search_name team_name :
  find_team_fuzzy lib self search_name = Some team_name ->
  team_name ∈ (db_teams self).*1.
Proof.
  unfold find_team_fuzzy.
  repeat (match goal with
          | |- context [first_where ?f ?l] =>
              destruct (first_where f l) eqn:?
          end);
    intros; simplify_eq;
    match goal with
    | H : first_where _ _ = Some _ |- _ =>
        by apply first_where_elem in H as [? _]
    end.
Qed.

Lemma dict_get_key {V} (d : dict V) k :
  k ∈ d.*1 -> exists v, dict_get d k = Some v /\ v ∈ d.*2.
Proof.
  induction d as [|[k' v'] d IH]; cbn; intros Hin.
  - by apply elem_of_nil in Hin.
  - case_decide as Hk.
    + exists v'. split; [done|left].
    + apply elem_of_cons in Hin as [->|Hin]; [done|].
      destruct (IH Hin) as (v & Hv & Hel). exists v. split; [done|by right].
Qed.

Lemma team_credited_refl t : team_credited t t.
Proof. unfold team_credited. split_and!; (lia || done). Qed.

Lemma team_credited_trans t1 t2 t3 :
  team_credited t1 t2 -> team_credited t2 t3 -> team_credited t1 t3.
Proof.
  unfold team_credited.
  intros (?&?&?&?&?&?&?&?&?&?) (?&?&?&?&?&?&?&?&?&?).
  split_and!; try lia; try congruence; tauto.
Qed.

Lemma team_credited_update t gf ga :
  0 <= gf -> 0 <= ga -> team_credited t (update_stats t gf ga).
Proof.
  intros Hgf Hga. unfold team_credited. split_and!.
  - unfold update_stats. by repeat case_match.
  - unfold update_stats. by repeat case_match.
  - rewrite update_stats_matches_played. lia.
  - unfold update_stats. repeat case_match; cbn; lia.
  - unfold update_stats. repeat case_match; cbn; lia.
  - unfold update_stats. repeat case_match; cbn; lia.
  - rewrite update_stats_goals_for. lia.
  - rewrite update_stats_goals_against. lia.
  - unfold update_stats. repeat case_match; cbn; lia.
  - apply update_stats_inv.
Qed.

Lemma fixture_entered_refl m : fixture_entered m m.
Proof. by left. Qed.

Lemma fixture_entered_trans m1 m2 m3 :
  fixture_entered m1 m2 -> fixture_entered m2 m3 -> fixture_entered m1 m3.
Proof.
  intros [->|(h & a & Hh & Ha & ->)] [->|(h' & a' & Hh' & Ha' & ->)].
  - by left.
  - right. by exists h', a'.
  - right. by exists h, a.
  - right. by exists h', a'.
Qed.

Lemma entered_refl s : entered s s.
Proof.
  split; [|split; [|done]].
  - intros l t Hl. exists t. split; [done|apply team_credited_refl].
  - intros l m Hl. exists m. split; [done|apply fixture_entered_refl].
Qed.

Lemma entered_trans s1 s2 s3 : entered s1 s2 -> entered s2 s3 -> entered s1 s3.
Proof.
  intros (HT & HM & Hg & Hn) (HT' & HM' & Hg' & Hn').
  split; [|split; [|split; congruence]].
  - intros l t Hl. destruct (HT l t Hl) as (t' & Hl' & Ht).
    destruct (HT' l t' Hl') as (t'' & Hl'' & Ht').
    exists t''. split; [done|]. by eapply team_credited_trans.
  - intros l m Hl. destruct (HM l m Hl) as (m' & Hl' & Hm).
    destruct (HM' l m' Hl') as (m'' & Hl'' & Hm').
    exists m''. split; [done|]. by eapply fixture_entered_trans.
Qed.

Lemma entered_present d s s' :
  entered s s' -> teams_present d s -> teams_present d s'.
Proof.
  intros (HT & _) Hp. eapply Forall_impl; [exact Hp|].
  intros l [t Ht]. destruct (HT l t Ht) as (t' & Ht' & _). by exists t'.
Qed.

Lemma modify_team_entered l f t s :
  team_objs s !! l = Some t ->
  team_credited t (f t) ->
  exists s', modify_team l f s = (Ok tt, s')
             /\ entered s s' /\ match_objs s' = match_objs s.
Proof.
  intros Hl Hf. unfold modify_team. rewrite Hl. eexists. split; [done|].
  split; [|done]. split; [|split; [|done]]; cbn.
  - intros l' t' Hl'. destruct (decide (l' = l)) as [->|Hne].
    + rewrite lookup_insert_eq. exists (f t). split; [done|]. congruence.
    + rewrite lookup_insert_ne by done. exists t'.
      split; [done|apply team_credited_refl].
  - intros l' m Hl'. exists m. split; [done|apply fixture_entered_refl].
Qed.

Lemma modify_match_entered l m h a s :
  match_objs s !! l = Some m ->
  0 <= h -> 0 <= a ->
  exists s', modify_match l (fun m => set_result m h a) s = (Ok tt, s')
             /\ entered s s' /\ fixtures_framed [l] s s'
             /\ team_objs s' = team_objs s.
Proof.
  intros Hl Hh Ha. unfold modify_match. rewrite Hl. eexists. split; [done|].
  split; [|split; [|done]].
  - split; [|split; [|done]]; cbn.
    + intros l' t' Hl'. exists t'. split; [done|apply team_credited_refl].
    + intros l' m' Hl'. destruct (decide (l' = l)) as [->|Hne].
      * rewrite lookup_insert_eq. eexists. split; [done|].
        right. exists h, a. split; [done|]. split; [done|]. congruence.
      * rewrite lookup_insert_ne by done. exists m'.
        split; [done|apply fixture_entered_refl].
  - intros l' Hl'. cbn. apply lookup_insert_ne. intros ->. apply Hl'. left.
Qed.

Lemma credit_team (d : dict loc) k gf ga (k' : pass -> M pass) s :
  k ∈ d.*1 -> teams_present d s -> 0 <= gf -> 0 <= ga ->
  exists l s',
    dict_get d k = Some l
    /\ modify_team l (fun t => update_stats t gf ga) s = (Ok tt, s')
    /\ entered s s' /\ match_objs s' = match_objs s.
Proof.
  intros Hk Hp Hgf Hga.
  destruct (dict_get_key d k Hk) as (l & Hget & Hl).
  unfold teams_present in Hp. rewrite Forall_forall in Hp.
  destruct (Hp l Hl) as [t Ht].
  destruct (modify_team_entered l (fun t => update_stats t gf ga) t s Ht)
    as (s' & Hrun & He & Hm); [by apply team_credited_update|].
  by exists l, s'.
Qed.

Lemma try_block_spec lib int_of_str self match_ hi ai s m :
  match_objs s !! match_ = Some m ->
  teams_present (db_teams self) s ->
  exists r s',
    try_block lib int_of_str self match_ hi ai s = (r, s')
    /\ (r = Ok Break \/ r = Ok Continue \/ r = Raise ValueError)
    /\ entered s s' /\ fixtures_framed [match_] s s'.
Proof.
  intros Hm Hp. unfold try_block.
  assert (forall r, (r = Ok Break \/ r = Ok Continue \/ r = Raise ValueError) ->
            exists r' s', (r, s) = (r', s')
              /\ (r' = Ok Break \/ r' = Ok Continue \/ r' = Raise ValueError)
              /\ entered s s' /\ fixtures_framed [match_] s s') as Hsame.
  { intros r Hr. exists r, s. split; [done|]. split; [done|].
    split; [apply entered_refl|]. by intros l _. }
  destruct (int_of_str hi) as [h|]; [|apply Hsame; auto].
  destruct (int_of_str ai) as [a|]; [|apply Hsame; auto].
  destruct ((h <? 0) || (a <? 0)) eqn:Hneg; [apply Hsame; auto|].
  apply orb_false_iff in Hneg as [Hh Ha].
  apply Z.ltb_ge in Hh, Ha.
  unfold bind at 1. unfold read_match. rewrite Hm.
  destruct (find_team_fuzzy lib self (home_team m)) as [[|c1 k1]|] eqn:Hhome;
    [apply Hsame; auto| |apply Hsame; auto].
  destruct (find_team_fuzzy lib self (away_team m)) as [[|c2 k2]|] eqn:Haway;
    [apply Hsame; auto| |apply Hsame; auto].
  apply find_team_fuzzy_key in Hhome, Haway.
  destruct (modify_match_entered match_ m h a s Hm Hh Ha)
    as (s1 & Hrun1 & He1 & Hf1 & Ht1).
  assert (teams_present (db_teams self) s1) as Hp1
    by (by eapply entered_present).
  destruct (credit_team (db_teams self) _ h a ret s1 Hhome Hp1 Hh Ha)
    as (l2 & s2 & Hget2 & Hrun2 & He2 & Hm2).
  assert (teams_present (db_teams self) s2) as Hp2
    by (by eapply entered_present).
  destruct (credit_team (db_teams self) _ a h ret s2 Haway Hp2 Ha Hh)
    as (l3 & s3 & Hget3 & Hrun3 & He3 & Hm3).
  exists (Ok Break), s3. split.
  - unfold bind. rewrite Hrun1. unfold subscript. rewrite Hget2. unfold ret.
    rewrite Hrun2. rewrite Hget3. by rewrite Hrun3.
  - split; [auto|]. split.
    + eapply entered_trans; [exact He1|].
      eapply entered_trans; [exact He2|exact He3].
    + intros l Hl. rewrite Hm3, Hm2. by apply Hf1.
Qed.

Lemma enter_result_spec lib int_of_str self match_ : forall n stdin s m,
  (length stdin <= n)%nat ->
  match_objs s !! match_ = Some m ->
  teams_present (db_teams self) s ->
  exists rest s',
    enter_result lib int_of_str self match_ stdin s = (Ok rest, s')
    /\ rest `suffix_of` stdin
    /\ entered s s' /\ fixtures_framed [match_] s s'.
Proof.
  assert (forall s, fixtures_framed [match_] s s) as Hframe by (by intros s l _).
  induction n as [|n IH]; intros stdin s m Hlen Hm Hp.
  - destruct stdin; [|cbn in Hlen; lia]. exists [], s.
    split; [done|]. split; [done|]. split; [apply entered_refl|done].
  - destruct stdin as [|home_line [|away_line stdin']].
    + exists [], s. split; [done|]. split; [done|].
      split; [apply entered_refl|done].
    + exists [], s. split; [done|]. split; [apply suffix_nil|].
      split; [apply entered_refl|done].
    + cbn [enter_result].
      destruct (try_block_spec lib int_of_str self match_
                  (strip lib home_line) (strip lib away_line) s m Hm Hp)
        as (r & s1 & Hrun & Hr & He & Hf).
      rewrite Hrun.
      assert (stdin' `suffix_of` home_line :: away_line :: stdin') as Hsuf.
      { by exists [home_line; away_line]. }
      assert (exists rest s',
                enter_result lib int_of_str self match_ stdin' s1
                = (Ok rest, s')
                /\ rest `suffix_of` home_line :: away_line :: stdin'
                /\ entered s s' /\ fixtures_framed [match_] s s') as Hagain.
      { pose proof He as (_ & HM & _).
        destruct (HM match_ m Hm) as (m1 & Hm1 & _).
        destruct (IH stdin' s1 m1) as (rest & s2 & Hrun2 & Hsuf2 & He2 & Hf2);
          [cbn in Hlen; lia|exact Hm1|by eapply entered_present|].
        exists rest, s2. split; [done|]. split; [by etrans|].
        split; [by eapply entered_trans|].
        intros l Hl. rewrite Hf2 by done. by apply Hf. }
      destruct Hr as [->|[->| ->]]; [|exact Hagain..].
      exists stdin', s1. done.
Qed.

Lemma enter_results_spec lib int_of_str self : forall L stdin s,
  Forall (fun l => is_Some (match_objs s !! l)) L ->
  teams_present (db_teams self) s ->
  exists rest s',
    enter_results lib int_of_str self L stdin s = (Ok rest, s')
    /\ rest `suffix_of` stdin
    /\ entered s s' /\ fixtures_framed L s s'.
Proof.
  induction L as [|match_ L IH]; intros stdin s HL Hp.
  - exists stdin, s. split; [done|]. split; [done|].
    split; [apply entered_refl|]. by intros l _.
  - apply Forall_cons in HL as [[m Hm] HL].
    destruct (enter_result_spec lib int_of_str self match_ (length stdin)
                stdin s m) as (rest1 & s1 & Hrun1 & Hsuf1 & He1 & Hf1);
      [done..|].
    destruct (IH rest1 s1) as (rest2 & s2 & Hrun2 & Hsuf2 & He2 & Hf2).
    + eapply Forall_impl; [exact HL|]. intros l [m' Hl].
      destruct He1 as (_ & HM & _).
      destruct (HM l m' Hl) as (m'' & Hl' & _). by exists m''.
    + by eapply entered_present.
    + exists rest2, s2. cbn [enter_results]. unfold bind. rewrite Hrun1.
      split; [done|]. split; [by etrans|].
      split; [by eapply entered_trans|].
      intros l Hl. rewrite Hf2, Hf1; [done| |].
      * intros Hin. apply Hl. apply list_elem_of_singleton in Hin as ->. left.
      * intros Hin. apply Hl. by right.
Qed.

Lemma filter_each_spec matchday_ h : forall ls ms s,
  holds_matches h ls ms ->
  match_objs s = h ->
  filter_each (fun l => do m <- read_match l; ret (to_enter matchday_ m)) ls s
  = (Ok (selected matchday_ ls ms), s).
Proof.
  intros ls ms s Hms Hs. subst h.
  induction Hms as [|l m ls ms Hl _ IH]; [done|].
  cbn [filter_each]. unfold bind at 1. unfold bind at 1.
  unfold read_match at 1. rewrite Hl. unfold ret at 1.
  unfold bind at 1. rewrite IH. unfold ret, selected. cbn [zip zip_with].
  rewrite filter_cons. cbn [snd].
  destruct (to_enter matchday_ m) eqn:E.
  - by rewrite decide_True.
  - by rewrite decide_False.
Qed.

Lemma selected_elem matchday_ h ls ms l :
  holds_matches h ls ms ->
  l ∈ selected matchday_ ls ms ->
  exists m, h !! l = Some m /\ to_enter matchday_ m = true.
Proof.
  intros Hms Hin. unfold selected in Hin.
  apply list_elem_of_fmap in Hin as ([l' m] & -> & Hin).
  apply list_elem_of_filter in Hin as [Hm Hin]. cbn in *.
  exists m. split; [|done].
  apply list_elem_of_lookup in Hin as [i Hi].
  apply lookup_zip_with_Some in Hi as (l0 & m0 & Heq & Hl & Hm0).
  injection Heq as -> ->.
  unfold holds_matches in Hms.
  destruct (Forall2_lookup_l _ _ _ _ _ Hms Hl) as (m1 & Hm1 & Hh).
  by simplify_eq.
Qed.

Lemma selected_nil matchday_ ls ms :
  length ls = length ms ->
  selected matchday_ ls ms = [] <-> existsb (to_enter matchday_) ms = false.
Proof.
  unfold selected. revert ms.
  induction ls as [|l ls IH]; intros [|m ms] Hlen; try done.
  cbn [zip zip_with existsb]. rewrite filter_cons. cbn [snd].
  destruct (to_enter matchday_ m) eqn:E.
  - rewrite decide_True by done. cbn. done.
  - rewrite decide_False by done. cbn. apply IH. by injection Hlen.
Qed.

Lemma entered_teams h h' (d : dict loc) F :
  holds_teams h d F ->
  (forall l t, h !! l = Some t ->
     exists t', h' !! l = Some t' /\ team_credited t t') ->
  exists F',
    holds_teams h' d F'
    /\ Forall2 (fun x x' : string * Team =>
                  x'.1 = x.1 /\ team_credited x.2 x'.2) F F'.
Proof.
  intros HF HT.
  induction HF as [|[k l] [k' t] d F [Hk Hl] _ (F' & HF' & Hrel)].
  - exists []. split; constructor.
  - cbn in Hk, Hl. subst k'. destruct (HT l t Hl) as (t' & Hl' & Ht).
    exists ((k, t') :: F'). split; constructor; done.
Qed.

Lemma entered_fixtures (R : Match -> Match -> Prop) h h' ls ms :
  holds_matches h ls ms ->
  (forall l m, l ∈ ls -> h !! l = Some m ->
     exists m', h' !! l = Some m' /\ R m m') ->
  exists ms', holds_matches h' ls ms' /\ Forall2 R ms ms'.
Proof.
  intros Hms HM.
  induction Hms as [|l m ls ms Hl _ IH].
  - exists []. split; constructor.
  - destruct (HM l m) as (m' & Hl' & Hm); [left|done|].
    destruct IH as (ms' & Hms' & Hrel).
    { intros l0 m0 Hin. apply HM. by right. }
    exists (m' :: ms'). split; constructor; done.
Qed.

Lemma to_enter_true matchday_ m :
  to_enter matchday_ m = true <-> matchday m = matchday_ /\ played m = false.
Proof.
  unfold to_enter. rewrite andb_true_iff, Z.eqb_eq, negb_true_iff. done.
Qed.

Lemma holds_teams_present h d F s :
  holds_teams h d F -> team_objs s = h -> teams_present d s.
Proof.
  intros HF <-. unfold teams_present. apply Forall_fmap.
  induction HF as [|[k l] [k' t] d F [_ Hl] _ IH]; constructor; [|done].
  cbn in *. by exists t.
Qed.

(** X22.  Whatever is typed, [enter_matchday_results] returns.  It leaves
    the teams and fixtures the database refers to, consumes the typed
    lines from the front, and sets [current_matchday] to the larger of its
    value and the matchday when the matchday has an unplayed fixture (it
    leaves it alone otherwise).  A fixture record is as before, or it was
    an unplayed fixture of the matchday and is now played with two scores,
    none negative, and the same teams and matchday.  A team record keeps
    its name and country; none of its seven tallies (matches played, wins,
    draws, losses, goals scored, goals conceded, points) is lower than
    before; and it satisfies the record invariant if it did. *)
Theorem enter_matchday_results_returns lib int_of_str self matchday_ stdin s
    F ms :
  snapshot_of (simulator_of self) s = Some (F, ms) ->
  exists db' rest s' F' ms',
    enter_matchday_results lib int_of_str self matchday_ stdin s
    = (Ok (db', rest), s')
    /\ competition_name db' = competition_name self
    /\ db_teams db' = db_teams self
    /\ db_matches db' = db_matches self
    /\ current_matchday db'
       = (if existsb (to_enter matchday_) ms
          then Z.max (current_matchday self) matchday_
          else current_matchday self)
    /\ rest `suffix_of` stdin
    /\ snapshot_of (simulator_of db') s' = Some (F', ms')
    /\ Forall2 (fixture_after matchday_) ms ms'
    /\ Forall2 (fun x x' : string * Team =>
                  x'.1 = x.1 /\ team_credited x.2 x'.2) F F'.
Proof.
  intros Hsnap. apply snapshot_of_Some in Hsnap as [HF Hms].
  cbn [simulator_of teams matches] in HF, Hms.
  unfold enter_matchday_results. unfold bind at 1.
  rewrite (filter_each_spec matchday_ (match_objs s) _ ms s Hms eq_refl).
  pose proof (selected_nil matchday_ (db_matches self) ms
                (Forall2_length _ _ _ Hms)) as Hnil.
  assert (forall l, l ∈ selected matchday_ (db_matches self) ms ->
            exists m, match_objs s !! l = Some m
                      /\ to_enter matchday_ m = true) as HL.
  { intros l Hl. by eapply selected_elem. }
  destruct (selected matchday_ (db_matches self) ms) as [|l0 L0].
  - exists self, stdin, s, F, ms. split; [done|].
    destruct Hnil as [Hnil _]. rewrite Hnil by done.
    do 4 (split; [done|]). split; [done|].
    split; [by apply snapshot_of_intro|]. split.
    + apply Forall2_same_length_lookup_2; [done|].
      intros i m m' H1 H2. left. congruence.
    + apply Forall2_same_length_lookup_2; [done|].
      intros i x x' H1 H2. simplify_eq.
      split; [done|apply team_credited_refl].
  - assert (existsb (to_enter matchday_) ms = true) as ->.
    { destruct (existsb (to_enter matchday_) ms); [done|].
      destruct Hnil as [_ Hnil]. by discriminate Hnil. }
    destruct (enter_results_spec lib int_of_str self (l0 :: L0) stdin s)
      as (rest & s' & Hrun & Hsuf & He & Hf).
    { apply Forall_forall. intros l Hl.
      destruct (HL l Hl) as (m & Hm & _). by exists m. }
    { by eapply holds_teams_present. }
    pose proof He as (HT & HM & _).
    destruct (entered_teams _ (team_objs s') _ _ HF HT) as (F' & HF' & HrelF).
    destruct (entered_fixtures (fixture_after matchday_) _ (match_objs s')
                _ _ Hms) as (ms' & Hms' & Hrelms).
    { intros l m _ Hl.
      destruct (HM l m Hl) as (m' & Hl' & Hent). exists m'. split; [done|].
      destruct (decide (l ∈ l0 :: L0)) as [Hin|Hnin].
      - destruct (HL l Hin) as (m0 & Hm0 & Hte).
        assert (m0 = m) as -> by congruence.
        apply to_enter_true in Hte as [Hmd Hpl].
        destruct Hent as [->|Hent]; [by left|right]. done.
      - left. rewrite (Hf l Hnin) in Hl'. congruence. }
    eexists _, rest, s', F', ms'. unfold bind. rewrite Hrun.
    split; [reflexivity|]. cbn.
    do 5 (split; [done|]). split; [by apply snapshot_of_intro|done].
Qed.

(** ** Valid scores *)

Lemma try_block_valid lib int_of_str self match_ hi ai s m h a W :
  int_of_str hi = Some h -> int_of_str ai = Some a ->
  0 <= h -> 0 <= a ->
  match_objs s !! match_ = Some m ->
  found (find_team_fuzzy lib self (home_team m)) = true ->
  found (find_team_fuzzy lib self (away_team m)) = true ->
  holds_teams (team_objs s) (db_teams self) W ->
  NoDup (db_teams self).*2 ->
  exists s',
    try_block lib int_of_str self match_ hi ai s = (Ok Break, s')
    /\ holds_teams (team_objs s') (db_teams self) (credit lib self W m (h, a))
    /\ match_objs s' = <[match_ := set_result m h a]> (match_objs s)
    /\ gauss_stream s' = gauss_stream s /\ gauss_next s' = gauss_next s.
Proof.
  intros Hhi Hai Hh Ha Hm Hfh Hfa HW Hnd.
  unfold try_block, credit. rewrite Hhi, Hai.
  replace ((h <? 0) || (a <? 0)) with false
    by (symmetry; apply orb_false_iff; split; apply Z.ltb_ge; lia).
  unfold bind at 1. unfold read_match. rewrite Hm.
  destruct (find_team_fuzzy lib self (home_team m)) as [[|c1 k1]|] eqn:Hhome;
    try done.
  destruct (find_team_fuzzy lib self (away_team m)) as [[|c2 k2]|] eqn:Haway;
    try done.
  apply find_team_fuzzy_key in Hhome, Haway.
  destruct (dict_get_key _ _ Hhome) as (l1 & Hget1 & _).
  destruct (dict_get_key _ _ Haway) as (l2 & Hget2 & _).
  destruct (holds_teams_get _ _ _ _ _ HW Hget1) as (t1 & _ & Hl1).
  pose proof (holds_teams_alter _ _ _ _ _ _
                (fun t => update_stats t h a) HW Hnd Hget1 Hl1) as HW1.
  destruct (holds_teams_get _ _ _ _ _ HW1 Hget2) as (t2 & _ & Hl2).
  pose proof (holds_teams_alter _ _ _ _ _ _
                (fun t => update_stats t a h) HW1 Hnd Hget2 Hl2) as HW2.
  eexists. split.
  - unfold bind, modify_match, subscript, ret, modify_team. rewrite Hm.
    rewrite Hget1. cbn [team_objs]. rewrite Hl1. rewrite Hget2.
    cbn [team_objs]. rewrite Hl2. reflexivity.
  - cbn [team_objs match_objs gauss_stream gauss_next fst snd].
    split; [exact HW2|done].
Qed.

Lemma lines_of_cons ln typed rest :
  lines_of (ln :: typed) ++ rest = ln.1 :: ln.2 :: lines_of typed ++ rest.
Proof. done. Qed.

Lemma enter_results_valid lib int_of_str self rest :
  forall L todo scores typed W s,
    holds_matches (match_objs s) L todo ->
    NoDup L ->
    holds_teams (team_objs s) (db_teams self) W ->
    NoDup (db_teams self).*2 ->
    Forall2 (fun m sc =>
               0 <= sc.1 /\ 0 <= sc.2
               /\ found (find_team_fuzzy lib self (home_team m)) = true
               /\ found (find_team_fuzzy lib self (away_team m)) = true)
            todo scores ->
    Forall2 (fun (ln : string * string) (sc : Z * Z) =>
               int_of_str (strip lib ln.1) = Some sc.1
               /\ int_of_str (strip lib ln.2) = Some sc.2)
            typed scores ->
    exists s',
      enter_results lib int_of_str self L (lines_of typed ++ rest) s
      = (Ok rest, s')
      /\ holds_teams (team_objs s') (db_teams self)
           (foldl (fun W x => credit lib self W x.1 x.2) W (zip todo scores))
      /\ holds_matches (match_objs s') L
           (zip_with (fun m sc => set_result m sc.1 sc.2) todo scores)
      /\ fixtures_framed L s s'
      /\ gauss_stream s' = gauss_stream s /\ gauss_next s' = gauss_next s.
Proof.
  induction L as [|match_ L IH];
    intros todo scores typed W s Hms HndL HW Hnd Hsc Hty.
  - apply Forall2_nil_inv_l in Hms as ->.
    apply Forall2_nil_inv_l in Hsc as ->.
    apply Forall2_nil_inv_r in Hty as ->.
    exists s. split; [done|]. split; [done|]. split; [constructor|].
    split; [by intros l _|done].
  - apply Forall2_cons_inv_l in Hms as (m & todo' & Hm & Hms & ->).
    apply Forall2_cons_inv_l in Hsc
      as ([h a] & scores' & (Hh & Ha & Hfh & Hfa) & Hsc & ->).
    apply Forall2_cons_inv_r in Hty
      as ([hl al] & typed' & (Hhl & Hal) & Hty & ->).
    cbn [fst snd] in *. apply NoDup_cons in HndL as [Hnin HndL].
    destruct (try_block_valid lib int_of_str self match_
                (strip lib hl) (strip lib al) s m h a W)
      as (s1 & Hrun1 & HW1 & Hm1 & Hg1 & Hn1); [done..|].
    destruct (IH todo' scores' typed' (credit lib self W m (h, a)) s1)
      as (s2 & Hrun2 & HW2 & Hms2 & Hf2 & Hg2 & Hn2); [|done..|].
    { rewrite Hm1. unfold holds_matches.
      apply Forall2_same_length_lookup_2; [by eapply Forall2_length|].
      intros i l m' Hl Hm'.
      rewrite lookup_insert_ne
        by (intros <-; apply Hnin; by eapply list_elem_of_lookup_2).
      exact (Forall2_lookup_lr _ _ _ _ _ _ Hms Hl Hm'). }
    exists s2. split; [|split; [exact HW2|split; [|split]]].
    + cbn [enter_results]. rewrite lines_of_cons. cbn [fst snd].
      unfold bind. cbn [enter_result]. rewrite Hrun1. exact Hrun2.
    + cbn [zip_with]. constructor; [|exact Hms2]. cbn [fst snd].
      rewrite (Hf2 match_ Hnin), Hm1. apply lookup_insert_eq.
    + intros l Hl. rewrite Hf2 by (intros Hin; apply Hl; by right).
      rewrite Hm1. apply lookup_insert_ne. intros <-. apply Hl. left.
    + split; congruence.
Qed.

Lemma selected_cons matchday_ l ls m ms :
  selected matchday_ (l :: ls) (m :: ms)
  = if to_enter matchday_ m then l :: selected matchday_ ls ms
    else selected matchday_ ls ms.
Proof.
  unfold selected. cbn [zip zip_with]. rewrite filter_cons. cbn [snd].
  destruct (to_enter matchday_ m).
  - by rewrite decide_True.
  - by rewrite decide_False.
Qed.

Lemma fixtures_to_enter_cons matchday_ m ms :
  fixtures_to_enter matchday_ (m :: ms)
  = if to_enter matchday_ m then m :: fixtures_to_enter matchday_ ms
    else fixtures_to_enter matchday_ ms.
Proof.
  unfold fixtures_to_enter. rewrite filter_cons.
  destruct (to_enter matchday_ m).
  - by rewrite decide_True.
  - by rewrite decide_False.
Qed.

Lemma selected_subseteq matchday_ ls : forall ms l,
  l ∈ selected matchday_ ls ms -> l ∈ ls.
Proof.
  induction ls as [|l0 ls IH]; intros [|m ms] l; try (by intros ?%elem_of_nil).
  rewrite selected_cons. destruct (to_enter matchday_ m).
  - intros [->|Hin]%elem_of_cons; [left|right; by eapply IH].
  - intros Hin. right. by eapply IH.
Qed.

Lemma selected_NoDup matchday_ ls : forall ms,
  NoDup ls -> NoDup (selected matchday_ ls ms).
Proof.
  induction ls as [|l0 ls IH]; intros [|m ms] Hnd; try constructor.
  apply NoDup_cons in Hnd as [Hl0 Hnd]. rewrite selected_cons.
  destruct (to_enter matchday_ m); [|by apply IH].
  constructor; [|by apply IH]. intros Hin. apply Hl0.
  by eapply selected_subseteq.
Qed.

Lemma selected_holds matchday_ h ls ms :
  holds_matches h ls ms ->
  holds_matches h (selected matchday_ ls ms) (fixtures_to_enter matchday_ ms).
Proof.
  induction 1 as [|l m ls ms Hl _ IH]; [constructor|].
  rewrite selected_cons, fixtures_to_enter_cons.
  destruct (to_enter matchday_ m); [by constructor|done].
Qed.

Lemma record_scores_holds matchday_ h h' : forall ls ms scores,
  holds_matches h ls ms ->
  NoDup ls ->
  holds_matches h' (selected matchday_ ls ms)
    (zip_with (fun m sc => set_result m sc.1 sc.2)
              (fixtures_to_enter matchday_ ms) scores) ->
  (forall l, l ∈ ls -> l ∉ selected matchday_ ls ms -> h' !! l = h !! l) ->
  holds_matches h' ls (record_scores matchday_ ms scores).
Proof.
  intros ls ms scores Hms. revert scores.
  induction Hms as [|l m ls ms Hl Hms IH]; intros scores Hnd Hsel Hframe;
    [constructor|].
  apply NoDup_cons in Hnd as [Hnin Hnd].
  rewrite selected_cons, fixtures_to_enter_cons in Hsel.
  rewrite selected_cons in Hframe. cbn [record_scores].
  destruct (to_enter matchday_ m) eqn:E.
  - destruct scores as [|sc scores]; [by apply Forall2_nil_inv_r in Hsel|].
    cbn [zip_with] in Hsel. apply Forall2_cons in Hsel as [Hl' Hsel].
    constructor; [done|]. apply IH; [done..|].
    intros l0 Hin Hnsel. apply Hframe; [by right|].
    intros [->|?]%elem_of_cons; done.
  - constructor.
    + rewrite Hframe; [done|left|].
      intros Hin. apply Hnin. by eapply selected_subseteq.
    + apply IH; [done..|]. intros l0 Hin Hnsel. apply Hframe; [by right|done].
Qed.

(** X23.  When two valid scores, none negative, are typed for each unplayed
    fixture of the matchday, and [find_team_fuzzy] finds a team for both
    names of each of them, [enter_matchday_results] uses exactly the lines
    typed and returns; each of those fixtures is then played with the
    scores typed for it, in fixture order, every other fixture is as
    before; and for each of them in turn the record of the team found for
    the home name is updated with the scores and the record of the team
    found for the away name with the scores swapped, every other record
    is as before. *)
Theorem enter_matchday_results_valid_scores lib int_of_str self matchday_ s
    F ms typed scores rest :
  snapshot_of (simulator_of self) s = Some (F, ms) ->
  NoDup (db_matches self) ->
  NoDup (db_teams self).*2 ->
  Forall2 (fun m sc =>
             0 <= sc.1 /\ 0 <= sc.2
             /\ found (find_team_fuzzy lib self (home_team m)) = true
             /\ found (find_team_fuzzy lib self (away_team m)) = true)
          (fixtures_to_enter matchday_ ms) scores ->
  Forall2 (fun (ln : string * string) (sc : Z * Z) =>
             int_of_str (strip lib ln.1) = Some sc.1
             /\ int_of_str (strip lib ln.2) = Some sc.2)
          typed scores ->
  exists db' s',
    enter_matchday_results lib int_of_str self matchday_
                           (lines_of typed ++ rest) s
    = (Ok (db', rest), s')
    /\ snapshot_of (simulator_of db') s'
       = Some (foldl (fun W x => credit lib self W x.1 x.2) F
                     (zip (fixtures_to_enter matchday_ ms) scores),
               record_scores matchday_ ms scores).
Proof.
  intros Hsnap HndM HndT Hsc Hty.
  apply snapshot_of_Some in Hsnap as [HF Hms].
  cbn [simulator_of teams matches] in HF, Hms.
  unfold enter_matchday_results. unfold bind at 1.
  rewrite (filter_each_spec matchday_ (match_objs s) _ ms s Hms eq_refl).
  destruct (enter_results_valid lib int_of_str self rest
              (selected matchday_ (db_matches self) ms)
              (fixtures_to_enter matchday_ ms) scores typed F s)
    as (s' & Hrun & HF' & Hsel' & Hframe & _);
    [by apply selected_holds|by apply selected_NoDup|done..|].
  pose proof (record_scores_holds matchday_ (match_objs s) (match_objs s')
                _ _ scores Hms HndM Hsel'
                (fun l _ Hnin => Hframe l Hnin)) as Hms'.
  destruct (selected matchday_ (db_matches self) ms) as [|l0 L0] eqn:HL.
  - cbn in Hrun. injection Hrun as Hrest <-.
    exists self, s. split; [by rewrite Hrest|].
    by apply snapshot_of_intro.
  - eexists _, s'. unfold bind. rewrite Hrun. split; [reflexivity|].
    by apply snapshot_of_intro.
Qed.

(** * The outcome of a match in binary64 arithmetic *)

Lemma truncate_magnitude (m : positive) (e : Z) :
  let v := match e with
           | Zneg k => Z.pos m # Pos.pow 2 k
           | _ => inject_Z (Z.pos m * 2 ^ e)
           end in
  let t := match e with
           | Zneg k => Z.pos m / Z.pos (Pos.pow 2 k)
           | _ => Z.pos m * 2 ^ e
           end in
  0 <= t /\ (inject_Z t <= v)%Q /\ (v < inject_Z (t + 1))%Q.
Proof.
  destruct e as [|p|k]; cbv zeta.
  - split; [lia|]. split; [apply Qle_refl|].
    rewrite <- Zlt_Qlt. lia.
  - split; [lia|]. split; [apply Qle_refl|].
    rewrite <- Zlt_Qlt. lia.
  - set (d := Z.pos (Pos.pow 2 k)).
    assert (0 < d) as Hd by (unfold d; lia).
    pose proof (Z.div_mod (Z.pos m) d ltac:(lia)) as Hdm.
    pose proof (Z.mod_pos_bound (Z.pos m) d Hd) as Hr.
    split; [apply Z.div_pos; lia|].
    unfold Qle, Qlt. cbn [Qnum Qden inject_Z]. fold d. nia.
Qed.

Lemma truncate_clamp (x : Binary64.float) :
  Binary64.is_finite x = true ->
  let k := Z.max 0 (Binary64.truncate x) in
  0 <= k
  /\ (inject_Z k <= Qmax 0 (Binary64.value x))%Q
  /\ (Qmax 0 (Binary64.value x) < inject_Z k + 1)%Q.
Proof.
  intros Hfin k. split; [lia|]. subst k.
  destruct x as [sg|sg| |sg m e]; try discriminate Hfin.
  - cbn. split; [done|]. reflexivity.
  - unfold Binary64.value, Binary64.truncate.
    destruct (truncate_magnitude m e) as (Ht & Hlo & Hhi).
    cbv zeta in Ht, Hlo, Hhi.
    set (v := match e with
              | Zneg k => Z.pos m # Pos.pow 2 k
              | _ => inject_Z (Z.pos m * 2 ^ e)
              end) in *.
    set (t := match e with
              | Zneg k => Z.pos m / Z.pos (Pos.pow 2 k)
              | _ => Z.pos m * 2 ^ e
              end) in *.
    assert (0 <= v)%Q as Hv.
    { eapply Qle_trans; [|exact Hlo]. change 0%Q with (inject_Z 0).
      by rewrite <- Zle_Qle. }
    change 1%Q with (inject_Z 1). rewrite <- inject_Z_plus.
    destruct sg; cbn [cond_Zopp].
    + rewrite Z.max_l by lia.
      assert (Qmax 0 (- v) == 0)%Q as ->.
      { apply Q.max_l. apply (Qopp_le_compat 0 v) in Hv. exact Hv. }
      split; [apply Qle_refl|reflexivity].
    + rewrite Z.max_r by lia.
      assert (Qmax 0 v == v)%Q as -> by (by apply Q.max_r).
      done.
Qed.

Lemma truediv_finite a b s :
  b <> 0 ->
  Binary64.is_finite (Binary64.quotient a b) = true ->
  Binary64.truediv a b s = (Ok (Binary64.quotient a b), s).
Proof.
  intros Hb Hfin. unfold Binary64.truediv.
  destruct (Z.eqb_spec b 0) as [->|_]; [done|].
  by destruct (Binary64.quotient a b).
Qed.

Lemma truediv_overflow a b sg s :
  b <> 0 ->
  Binary64.quotient a b = S754_infinity sg ->
  Binary64.truediv a b s = (Raise OverflowError, s).
Proof.
  intros Hb Hq. unfold Binary64.truediv.
  destruct (Z.eqb_spec b 0) as [->|_]; [done|]. by rewrite Hq.
Qed.

Lemma int_finite x s :
  Binary64.is_finite x = true ->
  Binary64.int x s = (Ok (Binary64.truncate x), s).
Proof. by destruct x. Qed.

(** C4, as the code has it.  For two team records reached through
    [self.teams] and the next two values [z1], [z2] the generator
    derives, in binary64 arithmetic, with the constants 0.5 and 1.5: the
    home mean is [max(0.5, (home.points + 10) / 10)], the away mean
    [max(0.5, away.points / 10)], the samples are [mean + z * 1.5].  When
    both quotients are within the float range and both samples are finite,
    [simulate_match] returns, only the generator advances, by two values,
    and each score is the sample clamped at zero and then truncated toward
    zero: the integer [k >= 0] with [k <= max(0, sample) < k + 1].  When a
    quotient is beyond the float range, [simulate_match] raises
    [OverflowError] and nothing is drawn. *)
Theorem simulate_match_outcome normal self home away s lh la th ta :
  dict_get (teams self) home = Some lh ->
  team_objs s !! lh = Some th ->
  dict_get (teams self) away = Some la ->
  team_objs s !! la = Some ta ->
  let home_quotient := Binary64.quotient (points th + 10) 10 in
  let away_quotient := Binary64.quotient (points ta) 10 in
  let home_expected :=
    if SFltb Binary64.half home_quotient then home_quotient
    else Binary64.half in
  let away_expected :=
    if SFltb Binary64.half away_quotient then away_quotient
    else Binary64.half in
  let home_sample :=
    SFadd 53 1024 home_expected
      (SFmul 53 1024 (normal (gauss_next s)) Binary64.one_and_a_half) in
  let away_sample :=
    SFadd 53 1024 away_expected
      (SFmul 53 1024 (normal (S (gauss_next s))) Binary64.one_and_a_half) in
  (Binary64.value Binary64.half == 1 # 2)%Q
  /\ (Binary64.value Binary64.one_and_a_half == 3 # 2)%Q
  /\ (Binary64.is_finite home_quotient = true ->
      Binary64.is_finite away_quotient = true ->
      Binary64.is_finite home_sample = true ->
      Binary64.is_finite away_sample = true ->
      exists home_score away_score,
        Binary64.simulate_match normal self home away s
        = (Ok (home_score, away_score),
           mkStore (team_objs s) (match_objs s) (gauss_stream s)
                   (S (S (gauss_next s))))
        /\ 0 <= home_score
        /\ (inject_Z home_score <= Qmax 0 (Binary64.value home_sample))%Q
        /\ (Qmax 0 (Binary64.value home_sample) < inject_Z home_score + 1)%Q
        /\ 0 <= away_score
        /\ (inject_Z away_score <= Qmax 0 (Binary64.value away_sample))%Q
        /\ (Qmax 0 (Binary64.value away_sample) < inject_Z away_score + 1)%Q)
  /\ ((exists sg, home_quotient = S754_infinity sg) ->
      Binary64.simulate_match normal self home away s
      = (Raise OverflowError, s))
  /\ (Binary64.is_finite home_quotient = true ->
      (exists sg, away_quotient = S754_infinity sg) ->
      Binary64.simulate_match normal self home away s
      = (Raise OverflowError, s)).
Proof.
  intros Hh Hth Ha Hta hq aq he ae hs as_.
  assert (Binary64.simulate_match normal self home away s
          = (do qh <- Binary64.truediv (points th + 10) 10;
             do qa <- Binary64.truediv (points ta) 10;
             do gh <- Binary64.gauss normal (Binary64.max Binary64.half qh)
                        Binary64.one_and_a_half;
             do ih <- Binary64.int gh;
             do ga <- Binary64.gauss normal (Binary64.max Binary64.half qa)
                        Binary64.one_and_a_half;
             do ia <- Binary64.int ga;
             ret (Z.max 0 ih, Z.max 0 ia)) s) as Hrun.
  { unfold Binary64.simulate_match.
    unfold bind at 1. unfold subscript at 1. rewrite Hh. unfold ret at 1.
    unfold bind at 1. unfold read_team at 1. rewrite Hth.
    unfold bind at 1. unfold subscript at 1. rewrite Ha. unfold ret at 1.
    unfold bind at 1. unfold read_team at 1. rewrite Hta. reflexivity. }
  rewrite Hrun. clear Hrun.
  split; [reflexivity|]. split; [reflexivity|]. split; [|split].
  - intros Hfh Hfa Hfhs Hfas.
    destruct (truncate_clamp hs Hfhs) as (H1 & H2 & H3).
    destruct (truncate_clamp as_ Hfas) as (H4 & H5 & H6).
    exists (Z.max 0 (Binary64.truncate hs)), (Z.max 0 (Binary64.truncate as_)).
    split; [|done].
    unfold bind at 1. rewrite truediv_finite by done.
    unfold bind at 1. rewrite truediv_finite by done.
    unfold bind at 1. unfold Binary64.gauss at 1.
    unfold bind at 1.
    change (Binary64.add (Binary64.max Binary64.half
                            (Binary64.quotient (points th + 10) 10))
              (Binary64.mul (normal (gauss_next s)) Binary64.one_and_a_half))
      with hs.
    rewrite int_finite by done.
    unfold bind at 1. unfold Binary64.gauss at 1. cbn [gauss_next].
    unfold bind at 1.
    change (Binary64.add (Binary64.max Binary64.half
                            (Binary64.quotient (points ta) 10))
              (Binary64.mul (normal (S (gauss_next s)))
                 Binary64.one_and_a_half))
      with as_.
    rewrite int_finite by done.
    reflexivity.
  - intros [sg Hq]. unfold bind at 1.
    by rewrite (truediv_overflow _ _ sg).
  - intros Hfh [sg Hq]. unfold bind at 1. rewrite truediv_finite by done.
    unfold bind at 1. by rewrite (truediv_overflow _ _ sg).
Qed.

(** The quotients [quotient a b] for some [a] and [b], as CPython returns
    them for [a / b]: roundings up and down, a tie, an integer beyond
    2 ** 53, a negative zero, the least subnormal number, an underflow to
    zero, a quotient of two integers beyond the float range, and an
    overflow. *)
Lemma quotient_examples :
  Binary64.quotient 17 10 = S754_finite false 7656119366529843 (-52)
  /\ Binary64.quotient 10 3 = S754_finite false 7505999378950827 (-51)
  /\ Binary64.quotient 7 25 = S754_finite false 5044031582654956 (-54)
  /\ Binary64.quotient (-1) 3 = S754_finite true 6004799503160661 (-54)
  /\ Binary64.quotient (2 ^ 53 + 1) 1 = S754_finite false 4503599627370496 1
  /\ Binary64.quotient (2 ^ 53 + 3) 1 = S754_finite false 4503599627370498 1
  /\ Binary64.quotient 0 (-5) = S754_zero true
  /\ Binary64.quotient 1 (2 ^ 1074) = S754_finite false 1 (-1074)
  /\ Binary64.quotient 1 (2 ^ 1075) = S754_zero false
  /\ Binary64.quotient (10 ^ 400) (10 ^ 399)
     = S754_finite false 5629499534213120 (-49)
  /\ Binary64.quotient (10 ^ 400) 10 = S754_infinity false.
Proof. repeat split; vm_compute; reflexivity. Qed.

(** * Further worked examples *)

Lemma league_snapshot g :
  snapshot_of league (league_store g) = Some (league_teams, league_matches).
Proof. vm_compute. reflexivity. Defined.













(** X13 on the league: adding Basel again blanks its record. *)
Lemma add_team_blank_record_witness :
  snapshot_of (simulator_of league_db) (league_store no_noise)
  = Some (league_teams, league_matches)
  /\ exists db' team s',
       add_team league_db "Basel" "SUI" (league_store no_noise)
       = (Ok (db', team), s')
       /\ snapshot_of (simulator_of db') s'
          = Some ([("Ajax", ajax); ("Basel", Team_init "Basel" "SUI");
                   ("Celtic", celtic)], league_matches).
Proof.
  split; [apply league_snapshot|].
  destruct (add_team_blank_record league_db "Basel" "SUI" (league_store no_noise)
              league_teams league_matches (league_snapshot _))
    as (db' & team & s' & Hrun & _ & _ & _ & Hsnap & _).
  exists db', team, s'. split; [exact Hrun|exact Hsnap].
Defined.

(** X14 on the league: a fixture against Dortmund is refused, a fixture
    of Ajax against itself is accepted. *)
Lemma create_match_checks_teams_witness :
  snapshot_of (simulator_of league_db) (league_store no_noise)
  = Some (league_teams, league_matches)
  /\ create_match league_db "Ajax" "Dortmund" 6 (league_store no_noise)
     = (Raise ValueError, league_store no_noise)
  /\ exists db' match_ s',
       create_match league_db "Ajax" "Ajax" 6 (league_store no_noise)
       = (Ok (db', match_), s').
Proof.
  split; [apply league_snapshot|].
  destruct (create_match_checks_teams league_db "Ajax" "Dortmund" 6
              (league_store no_noise) league_teams league_matches
              (league_snapshot _)) as [Hmiss _].
  destruct (create_match_checks_teams league_db "Ajax" "Ajax" 6
              (league_store no_noise) league_teams league_matches
              (league_snapshot _)) as [_ Hpres].
  split; [apply Hmiss; reflexivity|].
  destruct (Hpres eq_refl) as (db' & match_ & s' & Hrun & _).
  exists db', match_, s'. exact Hrun.
Defined.

Lemma league_unplayed_without_scores :
  Forall (fun m => played m = false ->
                   home_score m = None /\ away_score m = None) league_matches.
Proof. repeat constructor; cbn in *; discriminate. Defined.

Lemma league_keys_NoDup : NoDup league_teams.*1.
Proof. compute_done. Defined.

(** X16 on the league. *)
Lemma save_load_round_trip_witness :
  snapshot_of (simulator_of league_db) (league_store no_noise)
  = Some (league_teams, league_matches)
  /\ exists data db' s',
       save_to_file league_db (league_store no_noise)
       = (Ok data, league_store no_noise)
       /\ load_from_file (Database_init EmptyString) (Some data) (league_store no_noise)
          = (Ok (db', true), s')
       /\ snapshot_of (simulator_of db') s' = Some (league_teams, league_matches).
Proof.
  split; [apply league_snapshot|].
  destruct (save_load_round_trip league_db (league_store no_noise)
              league_teams league_matches EmptyString (league_snapshot _)
              league_keys_NoDup league_unplayed_without_scores)
    as (data & db' & s' & Hsave & Hload & _ & _ & Hsnap & _).
  exists data, db', s'. repeat split; assumption.
Defined.

(** X17 on the league. *)
Lemma load_appends_fixtures_witness :
  snapshot_of (simulator_of league_db) (league_store no_noise)
  = Some (league_teams, league_matches)
  /\ exists data db' s',
       load_from_file league_db (Some data) (league_store no_noise)
       = (Ok (db', true), s')
       /\ length (db_matches db') = 6%nat.
Proof.
  split; [apply league_snapshot|].
  destruct (load_appends_fixtures league_db (league_store no_noise)
              league_teams league_matches (league_snapshot _)
              league_keys_NoDup league_unplayed_without_scores)
    as (data & db' & s' & _ & Hload & _ & Hlen).
  exists data, db', s'. split; [exact Hload|exact Hlen].
Defined.

(** X18 on the league: the exact name wins. *)
Lemma find_team_fuzzy_returns_key_witness :
  find_team_fuzzy plain_strings league_db "Basel" = Some "Basel".
Proof.
  destruct (find_team_fuzzy_returns_key plain_strings league_db "Basel")
    as (_ & _ & Hexact).
  apply (Hexact ["Ajax"] "Basel" ["Celtic"]).
  - reflexivity.
  - reflexivity.
  - repeat constructor. discriminate.
Defined.

(** X19 on the league: an empty search finds the first team. *)
Lemma find_team_fuzzy_empty_search_witness :
  normalize_team_name plain_strings EmptyString = EmptyString
  /\ is_Some (find_team_fuzzy plain_strings league_db EmptyString).
Proof.
  split; [reflexivity|].
  apply find_team_fuzzy_empty_search; [reflexivity|discriminate].
Defined.

(** X20 on two rounds, half way through the transition. *)
Lemma interpolate_rows_witness :
  names_of round1 = Some ["Ajax"; "Basel"; "Celtic"]
  /\ names_of round2 = Some ["Celtic"; "Dortmund"; "Ajax"; "Basel"]
  /\ exists rows,
       interpolate round1 round2 (1 # 2) (league_store no_noise)
       = (Ok rows, league_store no_noise)
       /\ row_name <$> rows ≡ₚ ["Celtic"; "Ajax"; "Basel"].
Proof.
  split; [reflexivity|]. split; [reflexivity|].
  destruct (interpolate_rows round1 round2
              [standing "Celtic" 6 1; standing "Dortmund" 4 1;
               standing "Ajax" 3 (-1); standing "Basel" 2 0]
              ["Ajax"; "Basel"; "Celtic"]
              ["Celtic"; "Dortmund"; "Ajax"; "Basel"]
              (1 # 2) (league_store no_noise))
    as (rows & Hrun & Hnames & _);
    [reflexivity|reflexivity|reflexivity|compute_done|compute_done|].
  exists rows. split; [exact Hrun|exact Hnames].
Defined.

(** X21 on the two rounds. *)
Lemma interpolate_endpoints_witness :
  names_of round1 = Some ["Ajax"; "Basel"; "Celtic"]
  /\ names_of round2 = Some ["Celtic"; "Dortmund"; "Ajax"; "Basel"]
  /\ (exists rows,
        interpolate round1 round2 0 (league_store no_noise)
        = (Ok rows, league_store no_noise)
        /\ row_name <$> rows = ["Ajax"; "Basel"; "Celtic"])
  /\ (exists rows,
        interpolate round1 round2 1 (league_store no_noise)
        = (Ok rows, league_store no_noise)
        /\ row_name <$> rows = ["Celtic"; "Ajax"; "Basel"]).
Proof.
  split; [reflexivity|]. split; [reflexivity|].
  apply (interpolate_endpoints round1 round2
           ["Ajax"; "Basel"; "Celtic"]
           ["Celtic"; "Dortmund"; "Ajax"; "Basel"]
           (league_store no_noise));
    [reflexivity|reflexivity|compute_done|compute_done].
Defined.

(** X22 on the league: a word and a negative score are typed before the
    result of Ajax v Basel. *)
Lemma enter_matchday_results_returns_witness :
  snapshot_of (simulator_of league_db) (league_store no_noise)
  = Some (league_teams, league_matches)
  /\ exists db' rest s',
       enter_matchday_results plain_strings read_numeral league_db 4
         ["two"; "1"; "-1"; "0"; "2"; "1"; "3"] (league_store no_noise)
       = (Ok (db', rest), s')
       /\ current_matchday db' = 5.
Proof.
  split; [apply league_snapshot|].
  destruct (enter_matchday_results_returns plain_strings read_numeral
              league_db 4 ["two"; "1"; "-1"; "0"; "2"; "1"; "3"]
              (league_store no_noise) league_teams league_matches
              (league_snapshot _))
    as (db' & rest & s' & F' & ms' & Hrun & _ & _ & _ & Hday & _).
  exists db', rest, s'. split; [exact Hrun|exact Hday].
Defined.

(** X23 on the league: Ajax beat Basel 2-1 on matchday 4. *)
Lemma enter_matchday_results_valid_scores_witness :
  snapshot_of (simulator_of league_db) (league_store no_noise)
  = Some (league_teams, league_matches)
  /\ exists db' s',
       enter_matchday_results plain_strings read_numeral league_db 4
         ["2"; "1"; "3"] (league_store no_noise)
       = (Ok (db', ["3"]), s')
       /\ snapshot_of (simulator_of db') s'
          = Some ([("Ajax", mkTeam "Ajax" "NED" 4 3 1 0 6 2 10);
                   ("Basel", mkTeam "Basel" "SUI" 4 0 0 4 2 8 0);
                   ("Celtic", celtic)],
                  [mkMatch "Ajax" "Basel" 4 (Some 2) (Some 1) true;
                   basel_ajax; celtic_basel]).
Proof.
  split; [apply league_snapshot|].
  apply (enter_matchday_results_valid_scores plain_strings read_numeral
           league_db 4 (league_store no_noise) league_teams league_matches
           [("2", "1")] [(2, 1)] ["3"] (league_snapshot _)).
  - compute_done.
  - compute_done.
  - repeat constructor; vm_compute; congruence.
  - repeat constructor.
Defined.

(** C4, as the code has it, at the fixture Ajax v Basel of the league:
    1.7 + 0.6 * 1.5 is truncated to 2, 0.5 - 1.0 * 1.5 is clamped to 0. *)
Lemma simulate_match_outcome_witness :
  dict_get (teams league) "Ajax" = Some 0%nat
  /\ team_objs (league_store no_noise) !! 0%nat = Some ajax
  /\ dict_get (teams league) "Basel" = Some 1%nat
  /\ team_objs (league_store no_noise) !! 1%nat = Some basel
  /\ (Binary64.simulate_match two_values league "Ajax" "Basel"
        (league_store no_noise)).1
     = Ok (2, 0).
Proof.
  assert (dict_get (teams league) "Ajax" = Some 0%nat) as H1 by reflexivity.
  assert (team_objs (league_store no_noise) !! 0%nat = Some ajax) as H2
    by (vm_compute; reflexivity).
  assert (dict_get (teams league) "Basel" = Some 1%nat) as H3 by reflexivity.
  assert (team_objs (league_store no_noise) !! 1%nat = Some basel) as H4
    by (vm_compute; reflexivity).
  repeat (split; [assumption|]).
  destruct (simulate_match_outcome two_values league "Ajax" "Basel"
              (league_store no_noise) 0%nat 1%nat ajax basel H1 H2 H3 H4)
    as (_ & _ & Hok & _).
  destruct Hok as (hs & as_ & Heq & _);
    [vm_compute; reflexivity..|].
  rewrite Heq. cbn [fst].
  assert (forall a b : outcome (Z * Z) * Store, a = b -> a.1 = b.1) as Hfst
    by (by intros a b ->).
  apply Hfst in Heq. vm_compute in Heq. symmetry. exact Heq.
Defined.

(** C4: a record with [10 ** 400] points makes [simulate_match] fail. *)
Lemma huge_points_overflow :
  dict_get (teams giants_league) "Giants" = Some 0%nat
  /\ team_objs giants_store !! 0%nat = Some giants
  /\ dict_get (teams giants_league) "Basel" = Some 1%nat
  /\ team_objs giants_store !! 1%nat = Some basel
  /\ Binary64.simulate_match two_values giants_league "Giants" "Basel"
       giants_store
     = (Raise OverflowError, giants_store).
Proof.
  repeat split; vm_compute; reflexivity.
Qed.

(** Rounding decides a score: with Ajax on one point and the value 0.6,
    the floats 1.1 and 0.6 * 1.5 add up to the float 2.0 and the home
    score is 2, where 11/10 and one and a half times the number that the
    float 0.6 stands for add up to less than 2. *)
Lemma rounding_decides_a_score :
  (Binary64.simulate_match (fun _ => six_tenths) early_league "Ajax" "Basel"
     early_store).1 = Ok (2, 1)
  /\ ((11 # 10) + Binary64.value six_tenths * (3 # 2) < 2)%Q.
Proof. split; vm_compute; reflexivity. Qed.
